(** * analyze-reformagkh: the crawl / cache / parse pipeline of [main.py]

    A shallow embedding of the functions of [src/main.py] that fetch pages
    into the on-disk cache, walk the region hierarchy, parse listing and
    profile pages and persist the intermediate stores, followed by the
    properties of the specification proved (or refuted) about them.

    Conventions of the embedding.
    - Python text (unicode) is a [string] holding its UTF-8 bytes, so that
      equality of texts is equality of strings and [encode('utf8')] /
      [decode('utf8')] are the identity on the representation.
    - Python integers are [Z]; [None]-able values are [option].
    - A call that may raise returns a [Result]; a generator is the list of
      the items it yields together with the exception that ended it, if any
      ([Gen]).
    - The file system, the network and stderr are explicit state ([World]).
    - Library calls outside the repository whose behaviour the functions only
      pass through (the lxml parse behind [BeautifulSoup], the builtins [int]
      and [float] on text) are the fields of the class [Builtins]. *)

From Stdlib Require Import ZArith Ascii String Floats.
From stdpp Require Import gmap strings list pretty.

Open Scope Z_scope.

Set Warnings "-register-all".

(** ** Exceptions, results and generators *)

Inductive Exn :=
  | AttributeError
  | KeyError
  | ValueError
  | TypeError
  | IndexError
  | IOError
  | ZeroDivisionError
  | RuntimeError.

Inductive Result (A : Type) :=
  | Ok (a : A)
  | Raise (e : Exn).
Arguments Ok {A} a.
Arguments Raise {A} e.

#[global] Instance result_ret : MRet Result := fun _ a => Ok a.
#[global] Instance result_bind : MBind Result := fun _ _ k r =>
  match r with
  | Ok a => k a
  | Raise e => Raise e
  end.
#[global] Instance result_fmap : FMap Result := fun _ _ f r =>
  match r with
  | Ok a => Ok (f a)
  | Raise e => Raise e
  end.

(** What the attribute access [o.f] does on a value that may be [None]. *)
Definition attr {A B} (o : option A) (f : A -> B) : Result B :=
  match o with
  | Some a => Ok (f a)
  | None => Raise AttributeError
  end.

(** A generator run to its end: the items yielded, in order, and the
    exception that stopped it ([None] when it was exhausted normally). *)
Record Gen (A : Type) := mkGen { yielded : list A; raised : option Exn }.
Arguments mkGen {A} yielded raised.
Arguments yielded {A} g.
Arguments raised {A} g.

Definition gen_done {A} (l : list A) : Gen A := mkGen l None.
Definition gen_raise {A} (e : Exn) : Gen A := mkGen [] (Some e).

(** [yield x] followed by the rest of the generator. *)
Definition gen_yield {A} (x : A) (g : Gen A) : Gen A :=
  mkGen (x :: yielded g) (raised g).

(** [for x in l: yield x] followed by the rest of the generator. *)
Definition gen_yield_all {A} (l : list A) (g : Gen A) : Gen A :=
  mkGen (l ++ yielded g) (raised g).

(** A step that may raise, followed by the rest of the generator. *)
Definition gen_bind {A B} (r : Result A) (k : A -> Gen B) : Gen B :=
  match r with
  | Ok a => k a
  | Raise e => gen_raise e
  end.

(** [list(g)]: the items when the generator ends normally, its exception
    otherwise. *)
Definition list_of_gen {A} (g : Gen A) : Result (list A) :=
  match raised g with
  | None => Ok (yielded g)
  | Some e => Raise e
  end.

(** ** Integer and list primitives *)

(** [a % b]: the result has the sign of the divisor, as [Z.modulo]. *)
Definition py_mod (a b : Z) : Result Z :=
  if b =? 0 then Raise ZeroDivisionError else Ok (a mod b).

(** The position [l[i]] denotes: a negative index counts from the end. *)
Definition py_index {A} (l : list A) (i : Z) : Result nat :=
  let n := Z.of_nat (length l) in
  let j := if i <? 0 then i + n else i in
  if (0 <=? j) && (j <? n) then Ok (Z.to_nat j) else Raise IndexError.

(** ** [get_chunks] *)

Section Chunks.
Context {A : Type}.

(** The loop [for index, item in enumerate(sequence)] from position [index]
    on: [chunks[index % count].append(item)]. *)
Fixpoint chunks_loop (count index : Z) (items : list A)
    (chunks : list (list A)) : Result (list (list A)) :=
  match items with
  | [] => Ok chunks
  | item :: rest =>
      k ← py_mod index count;
      pos ← py_index chunks k;
      chunks_loop count (index + 1) rest (alter (fun c => c ++ [item]) pos chunks)
  end.

Definition get_chunks (sequence : list A) (count : Z) : Result (list (list A)) :=
  let count := Z.min count (Z.of_nat (length sequence)) in
  let chunks := replicate (Z.to_nat count) [] in
  chunks_loop count 0 sequence chunks.

End Chunks.

(** ** Text helpers *)

Definition TAB : string := String (ascii_of_nat 9) EmptyString.
Definition NEWLINE : string := String (ascii_of_nat 10) EmptyString.

(** [s.startswith(p)] and [s.endswith(p)]. *)
Definition startswith (p s : string) : bool := String.prefix p s.
Definition endswith (p s : string) : bool :=
  String.prefix (String.rev p) (String.rev s).

(** [os.path.join(a, b)] on POSIX: an absolute [b] replaces [a]; a
    separator is added unless [a] is empty or already ends with one. *)
Definition path_join (a b : string) : string :=
  if startswith "/" b then b
  else if bool_decide (a = "") || endswith "/" a then a +:+ b
  else a +:+ "/" +:+ b.

(** ** SHA-1 ([hashlib.sha1], FIPS 180-4) on 32-bit words held in [Z] *)

Module Sha1.

Definition mask32 (x : Z) : Z := Z.land x 0xFFFFFFFF.
Definition add32 (a b : Z) : Z := mask32 (a + b).
Definition not32 (a : Z) : Z := Z.lxor a 0xFFFFFFFF.
Definition rotl (n x : Z) : Z :=
  Z.lor (mask32 (Z.shiftl x n)) (Z.shiftr x (32 - n)).

Definition bytes_of_string (s : string) : list Z :=
  (fun a => Z.of_N (N_of_ascii a)) <$> list_ascii_of_string s.

(** The [n] low bytes of [x], most significant first. *)
Fixpoint be_bytes (n : nat) (x : Z) : list Z :=
  match n with
  | O => []
  | S n' => be_bytes n' (Z.shiftr x 8) ++ [Z.land x 0xFF]
  end.

(** The message followed by the bit 1, zero bits up to 56 bytes modulo 64,
    and the bit length of the message on 8 bytes. *)
Definition pad (msg : list Z) : list Z :=
  let l := Z.of_nat (length msg) in
  msg ++ [0x80] ++ replicate (Z.to_nat ((55 - l) mod 64)) 0 ++ be_bytes 8 (8 * l).

Definition word_of_bytes (bs : list Z) : Z :=
  foldl (fun acc b => Z.lor (Z.shiftl acc 8) b) 0 bs.

(** [l] cut into pieces of [n] items ([fuel] bounds the number of pieces). *)
Fixpoint pieces {A} (fuel n : nat) (l : list A) : list (list A) :=
  match fuel, l with
  | O, _ | _, [] => []
  | S fuel', _ => take n l :: pieces fuel' n (drop n l)
  end.

(** The message schedule, most recent word first: [w] holds W(t-1), W(t-2),
    ... and grows by W(t) = rotl 1 (W(t-3) xor W(t-8) xor W(t-14) xor W(t-16)). *)
Fixpoint schedule (steps : nat) (w : list Z) : list Z :=
  match steps with
  | O => w
  | S steps' =>
      let at_ i := default 0 (w !! i) in
      let x := Z.lxor (Z.lxor (at_ 2%nat) (at_ 7%nat)) (Z.lxor (at_ 13%nat) (at_ 15%nat)) in
      schedule steps' (rotl 1 x :: w)
  end.

Definition State : Type := Z * Z * Z * Z * Z.

Definition round (t : Z) (st : State) (wt : Z) : State :=
  let '(a, b, c, d, e) := st in
  let '(f, k) :=
    if t <? 20 then (Z.lor (Z.land b c) (Z.land (not32 b) d), 0x5A827999)
    else if t <? 40 then (Z.lxor (Z.lxor b c) d, 0x6ED9EBA1)
    else if t <? 60 then
      (Z.lor (Z.lor (Z.land b c) (Z.land b d)) (Z.land c d), 0x8F1BBCDC)
    else (Z.lxor (Z.lxor b c) d, 0xCA62C1D6) in
  let temp := add32 (add32 (add32 (add32 (rotl 5 a) f) e) k) wt in
  (temp, a, rotl 30 b, c, d).

Fixpoint rounds (t : Z) (st : State) (ws : list Z) : State :=
  match ws with
  | [] => st
  | wt :: ws' => rounds (t + 1) (round t st wt) ws'
  end.

Definition compress (h : State) (block : list Z) : State :=
  let w16 := word_of_bytes <$> pieces 16 4 block in
  let w80 := reverse (schedule 64 (reverse w16)) in
  let '(h0, h1, h2, h3, h4) := h in
  let '(a, b, c, d, e) := rounds 0 h w80 in
  (add32 h0 a, add32 h1 b, add32 h2 c, add32 h3 d, add32 h4 e).

Definition init : State :=
  (0x67452301, 0xEFCDAB89, 0x98BADCFE, 0x10325476, 0xC3D2E1F0).

Definition digest (msg : list Z) : State :=
  let padded := pad msg in
  foldl compress init (pieces (length padded) 64 padded).

Definition hex_digit (n : Z) : ascii :=
  match Z.land n 0xF with
  | 0 => "0" | 1 => "1" | 2 => "2" | 3 => "3" | 4 => "4" | 5 => "5"
  | 6 => "6" | 7 => "7" | 8 => "8" | 9 => "9" | 10 => "a" | 11 => "b"
  | 12 => "c" | 13 => "d" | 14 => "e" | _ => "f"
  end%char.

(** The [n] low hexadecimal digits of [x] followed by [rest]. *)
Fixpoint hex_digits (n : nat) (x : Z) (rest : string) : string :=
  match n with
  | O => rest
  | S n' => hex_digits n' (Z.shiftr x 4) (String (hex_digit x) rest)
  end.

Definition hexdigest (s : string) : string :=
  let '(h0, h1, h2, h3, h4) := digest (bytes_of_string s) in
  hex_digits 8 h0 (hex_digits 8 h1 (hex_digits 8 h2 (hex_digits 8 h3
    (hex_digits 8 h4 "")))).

End Sha1.

(** ** The world the pipeline runs in *)

(** A JSON document is kept as the value [json.dump] writes and
    [cjson.decode] reads back: tuples and lists coincide, numbers and texts
    are preserved, and the key of an object is the text of the Python key,
    kept here as the key itself (for an id: an integer, or [None] for the
    key ["null"]). *)

(** A row [(parent_id, name, buildings)] of the parent table and a row
    [(parent_id, name, id, buildings)] of the leaf list of the region store;
    a row [(region_id, id, address, year, area, company_id)] of the listing
    store. *)
Abbreviation ParentRow := (option Z * string * Z)%type.
Abbreviation LeafRow := (option Z * string * option Z * Z)%type.
Abbreviation ListRow := (option Z * Z * string * option Z * option float * option Z)%type.

(** [files] maps a path to the text of the file there; [regions_json] and
    [region_lists_json] are the documents of [data/regions.json] and
    [data/region_lists.json], when the files exist; [network] is what a GET
    of a URL answers ([None]: the transport fails with a
    [requests.RequestException]); [requests] logs the URLs a GET was issued
    for, oldest first; [stderr] is the text written to [sys.stderr]. *)
Record World := mkWorld {
  files : gmap string string;
  regions_json : option (gmap (option Z) ParentRow * list LeafRow);
  region_lists_json : option (gmap string Z * list ListRow);
  network : string -> option string;
  requests : list string;
  stderr : string;
}.

Definition set_files (f : gmap string string -> gmap string string) (w : World) : World :=
  mkWorld (f (files w)) (regions_json w) (region_lists_json w)
    (network w) (requests w) (stderr w).
Definition log_request (url : string) (w : World) : World :=
  mkWorld (files w) (regions_json w) (region_lists_json w)
    (network w) (requests w ++ [url]) (stderr w).
Definition write_stderr (s : string) (w : World) : World :=
  mkWorld (files w) (regions_json w) (region_lists_json w)
    (network w) (requests w) (stderr w +:+ s).

(** [open(path, 'w').write(text)] and [open(path, 'a').write(text)]; the
    directory of [path] is taken to exist. *)
Definition file_write (path text : string) (fs : gmap string string) : gmap string string :=
  <[path := text]> fs.
Definition file_append (path text : string) (fs : gmap string string) : gmap string string :=
  <[path := default "" (fs !! path) +:+ text]> fs.

(** [open(path).read()]: a missing file raises [IOError]. *)
Definition file_read (path : string) (fs : gmap string string) : Result string :=
  match fs !! path with
  | Some text => Ok text
  | None => Raise IOError
  end.

(** ** The content cache and the fetcher *)

Definition DATA_DIR : string := "data".
Definition HTML_DIR : string := path_join DATA_DIR "html".
Definition HTML_LIST : string := path_join HTML_DIR "list.txt".
Definition REGIONS : string := path_join DATA_DIR "regions.json".
Definition ROOT_URL : string := "https://www.reformagkh.ru/myhouse?geo=reset".

Definition hash_url (url : string) : string := Sha1.hexdigest url.

Definition get_html_filename (url : string) : string := hash_url url +:+ ".html".

Definition get_html_path (url : string) : string :=
  path_join HTML_DIR (get_html_filename url).

(** The line ['{hash}\t{url}\n'] of the index. *)
Definition index_line (url : string) : string :=
  hash_url url +:+ TAB +:+ url +:+ NEWLINE.

Definition update_urls_cache (url path : string) (w : World) : World :=
  set_files (file_append path (index_line url)) w.

Definition update_html_cache (url : string) (w : World) : World :=
  update_urls_cache url HTML_LIST w.

Definition dump_html (url : string) (html : option string) (w : World) : World :=
  let path := get_html_path url in
  let html := match html with None => "" | Some html => html end in
  let w := set_files (file_write path html) w in
  update_html_cache url w.

Definition load_text (path : string) (w : World) : Result string :=
  file_read path (files w).

Definition load_html (url : string) (w : World) : Result string :=
  load_text (get_html_path url) w.

(** [requests.get(url, ...)]: one GET; a transport failure gives [None]. *)
Definition curl_url (url : string) (w : World) : option string * World :=
  (network w url, log_request url w).

Definition fetch_url (url : string) (w : World) : World :=
  let '(html, w) := curl_url url w in
  dump_html url html w.

Definition fetch_urls (urls : list string) (w : World) : World :=
  foldl (fun w url => fetch_url url w) w urls.

(** [p] occurs in [s]. *)
Definition is_infix (p s : string) : Prop := ∃ pre post, s = pre +:+ p +:+ post.

(** Modelled from the spec: the [has(url)] of the cache contract, which
    [main.py] does not define (it only lists the index, for a caller to
    consult): the blob of [url] is stored and the index has its line. *)
Definition cache_has (url : string) (w : World) : Prop :=
  is_Some (files w !! get_html_path url) ∧
  is_infix (index_line url) (default "" (files w !! HTML_LIST)).

(** A world with an empty cache in which every GET answers [html]. *)
Definition fresh_world (html : option string) : World :=
  mkWorld ∅ None None (fun _ => html) [] "".

Definition is_hex_digit (c : ascii) : bool :=
  bool_decide (c ∈ list_ascii_of_string "0123456789abcdef").

(** The claim "after [fetch_and_cache(u)] the cache has [u] and a second
    [fetch_and_cache(u)] performs zero network calls" at a URL and a world. *)
Definition second_fetch_is_free (url : string) (w : World) : Prop :=
  let w1 := fetch_url url w in
  cache_has url w1 ∧ requests (fetch_url url w1) = requests w1.

(** ** The parse tree of a page and the BeautifulSoup queries used on it *)

(** A tag keeps its multi-valued [class] attribute split into its words, as
    BeautifulSoup does, and its other attributes as texts. *)
Inductive Node :=
  | Tag (tag_name : string) (classes : list string)
        (attrs : list (string * string)) (children : list Node)
  | NavigableString (s : string).

(** A node found in a tree, with the siblings that follow it. *)
Record Found := mkFound { node : Node; next_siblings : list Node }.

Definition is_tag (n : Node) : bool :=
  match n with
  | Tag _ _ _ _ => true
  | NavigableString _ => false
  end.

(** The descendants of a node in document order. *)
Fixpoint descendants (n : Node) : list Found :=
  match n with
  | Tag _ _ _ children =>
      (fix walk (l : list Node) : list Found :=
         match l with
         | [] => []
         | c :: rest => mkFound c rest :: descendants c ++ walk rest
         end) children
  | NavigableString _ => []
  end.

(** [n.text]: the texts below [n], concatenated. *)
Fixpoint text (n : Node) : string :=
  match n with
  | Tag _ _ _ children =>
      (fix walk (l : list Node) : string :=
         match l with
         | [] => ""
         | c :: rest => text c +:+ walk rest
         end) children
  | NavigableString s => s
  end.

(** Whether a node is a tag called [name] (carrying the class [cls], when
    one is asked for). *)
Definition matches (name : string) (cls : option string) (n : Node) : bool :=
  match n with
  | Tag tag_name classes _ _ =>
      bool_decide (tag_name = name) &&
      match cls with
      | None => true
      | Some c => bool_decide (c ∈ classes)
      end
  | NavigableString _ => false
  end.

(** [n.find_all(name, class_=cls)] and [n.find(name, class_=cls)]. *)
Definition find_all (name : string) (cls : option string) (n : Node) : list Found :=
  filter (fun f => matches name cls (node f) = true) (descendants n).

Definition find (name : string) (cls : option string) (n : Node) : option Node :=
  node <$> head (find_all name cls n).

(** [f.find_next_sibling()]: the next sibling that is a tag. *)
Definition find_next_sibling (f : Found) : option Node :=
  head (filter (fun n => is_tag n = true) (next_siblings f)).

(** [n.has_attr(key)] and [n[key]] for a single-valued attribute. *)
Definition get_attr (key : string) (n : Node) : option string :=
  match n with
  | Tag _ _ attrs _ => snd <$> head (filter (fun kv => fst kv = key) attrs)
  | NavigableString _ => None
  end.

Definition has_attr (key : string) (n : Node) : bool :=
  bool_decide (is_Some (get_attr key n)).

Definition get_item (key : string) (n : Node) : Result string :=
  match get_attr key n with
  | Some v => Ok v
  | None => Raise KeyError
  end.

(** ** Library calls the pipeline passes text through *)

(** [BeautifulSoup html] is the tree [BeautifulSoup(html, 'lxml')] builds;
    [int_of_text] and [float_of_text] are the builtins [int] and [float] on
    text, [None] standing for their [ValueError]. *)
Class Builtins := {
  BeautifulSoup : string -> Node;
  int_of_text : string -> option Z;
  float_of_text : string -> option float;
}.

Definition py_int `{Builtins} (s : string) : Result Z :=
  match int_of_text s with
  | Some z => Ok z
  | None => Raise ValueError
  end.

Definition py_float `{Builtins} (s : string) : Result float :=
  match float_of_text s with
  | Some x => Ok x
  | None => Raise ValueError
  end.

(** [str(x)] for an integer or [None]. *)
Definition str_int (x : option Z) : string :=
  match x with
  | Some z => pretty z
  | None => "None"
  end.

(** [s.replace(' ', '')]. *)
Fixpoint remove_spaces (s : string) : string :=
  match s with
  | EmptyString => EmptyString
  | String c rest =>
      if Ascii.eqb c " " then remove_spaces rest else String c (remove_spaces rest)
  end.

Definition is_digit (c : ascii) : bool :=
  let n := nat_of_ascii c in (48 <=? n)%nat && (n <=? 57)%nat.

(** The longest prefix of [s] made of the digits [0-9], and what follows. *)
Fixpoint span_digits (s : string) : string * string :=
  match s with
  | EmptyString => (EmptyString, EmptyString)
  | String c rest =>
      if is_digit c then
        let '(ds, tail) := span_digits rest in (String c ds, tail)
      else (EmptyString, s)
  end.

(** [s] without the prefix [p], when it starts with it. *)
Fixpoint strip_prefix (p s : string) : option string :=
  match p, s with
  | EmptyString, _ => Some s
  | String a p', String b s' => if Ascii.eqb a b then strip_prefix p' s' else None
  | String _ _, EmptyString => None
  end.

(** Group 1 of [re.search('tid=(\d+)', s)]: the digits of the leftmost
    [tid=] that digits follow; [None] when the pattern is not found. *)
Fixpoint search_tid (s : string) : option string :=
  let here :=
    match strip_prefix "tid=" s with
    | Some tail =>
        let '(ds, _) := span_digits tail in
        if bool_decide (ds = "") then None else Some ds
    | None => None
    end in
  match here, s with
  | Some ds, _ => Some ds
  | None, String _ rest => search_tid rest
  | None, EmptyString => None
  end.

(** Group 1 of [re.search('^/myhouse/profile/view/(\d+)/', s)]. *)
Definition search_profile_id (s : string) : option string :=
  match strip_prefix "/myhouse/profile/view/" s with
  | Some tail =>
      let '(ds, after) := span_digits tail in
      if bool_decide (ds = "") then None
      else if startswith "/" after then Some ds else None
  | None => None
  end.

(** [m.group(1)] on the result of a search. *)
Definition group1 (m : option string) : Result string :=
  match m with
  | Some g => Ok g
  | None => Raise AttributeError
  end.

(** ** Regions *)

Inductive RegionRecord := mkRegionRecord {
  region_parent : option RegionRecord;
  region_name : string;
  region_id : option Z;
  region_buildings : Z;
}.

(** The ancestors of a region, nearest first. *)
Fixpoint ancestors (r : RegionRecord) : list RegionRecord :=
  match region_parent r with
  | Some p => p :: ancestors p
  | None => []
  end.

Section RegionTree.
Context `{Builtins}.

Definition get_soup (html : string) : Node := BeautifulSoup html.

Definition parse_reforma_int (s : string) : Result Z := py_int (remove_spaces s).

(** The body of the loop of [parse_regions_list] for one [tr.left] row:
    nothing is yielded for a row without a link. *)
Definition parse_region_row (parent : option RegionRecord) (item : Found)
    : Result (option RegionRecord) :=
  match find "a" None (node item) with
  | None => Ok None
  | Some link =>
      tid ← (if has_attr "href" link then
               href ← get_item "href" link;
               digits ← group1 (search_tid href);
               Some <$> py_int digits
             else Ok None);
      let name := text link in
      span ← attr (find_next_sibling item) (find "span" None);
      span_text ← attr span text;
      buildings ← parse_reforma_int span_text;
      Ok (Some (mkRegionRecord parent name tid buildings))
  end.

Fixpoint parse_region_rows (parent : option RegionRecord) (items : list Found)
    : Gen RegionRecord :=
  match items with
  | [] => gen_done []
  | item :: rest =>
      gen_bind (parse_region_row parent item) (fun r =>
        match r with
        | Some region => gen_yield region (parse_region_rows parent rest)
        | None => parse_region_rows parent rest
        end)
  end.

Definition parse_regions_list (html : string) (parent : option RegionRecord)
    : Gen RegionRecord :=
  let soup := get_soup html in
  parse_region_rows parent (find_all "tr" (Some "left") soup).

(** [if id:] holds for an id other than [None] and [0]. *)
Definition subregions_list_url (id : option Z) : option string :=
  match id with
  | Some i =>
      if i =? 0 then None
      else Some ("https://www.reformagkh.ru/myhouse?tid=" +:+ pretty i)
  | None => None
  end.

Definition load_raw_regions (w : World) : Gen RegionRecord :=
  gen_bind (load_html ROOT_URL w) (fun html => parse_regions_list html None).

(** [list(parse_regions_list(load_html(subregions_list_url(id)), parent=region))];
    [load_html(None)] raises [AttributeError] on [None.encode]. *)
Definition load_subregions (region : RegionRecord) (id : Z) (w : World)
    : Result (list RegionRecord) :=
  url ← attr (subregions_list_url (Some id)) (fun url => url);
  html ← load_html url w;
  list_of_gen (parse_regions_list html (Some region)).

Fixpoint load_raw_subregions_loop (regions : list RegionRecord) (stop : Gen RegionRecord)
    (w : World) : Gen RegionRecord :=
  match regions with
  | [] => stop
  | region :: rest =>
      match region_id region with
      | None => gen_yield region (load_raw_subregions_loop rest stop w)
      | Some id =>
          gen_bind (load_subregions region id w) (fun subregions =>
            match subregions with
            | [] => gen_yield region (load_raw_subregions_loop rest stop w)
            | _ => gen_yield_all subregions (load_raw_subregions_loop rest stop w)
            end)
      end
  end.

(** One pass over [regions]; an exception of the input generator is raised
    after the regions it yielded have been processed. *)
Definition load_raw_subregions (regions : Gen RegionRecord) (w : World)
    : Gen RegionRecord :=
  load_raw_subregions_loop (yielded regions) (mkGen [] (raised regions)) w.

(** A region is a leaf when it has no id or its child page lists no row. *)
Definition is_leaf (w : World) (region : RegionRecord) : Prop :=
  match region_id region with
  | None => True
  | Some id => load_subregions region id w = Ok []
  end.

(** The claim "the region tree builder yields only leaf regions" for the
    pipeline [load_raw_subregions(load_raw_regions())] in a world. *)
Definition builder_yields_only_leaves (w : World) : Prop :=
  ∀ region, region ∈ yielded (load_raw_subregions (load_raw_regions w) w) →
    is_leaf w region.

End RegionTree.

(** What one pass of [load_raw_subregions] puts in the place of a region
    whose probe does not raise: the region itself when it is a leaf, its
    children otherwise. *)
Definition expand `{Builtins} (w : World) (region : RegionRecord) : list RegionRecord :=
  match region_id region with
  | None => [region]
  | Some id =>
      match load_subregions region id w with
      | Ok [] => [region]
      | Ok subregions => subregions
      | Raise _ => []
      end
  end.

(** ** Region persistence *)

(** [dump_json_data(data, REGIONS)] and [load_json_data(REGIONS)]; a missing
    file raises [IOError]. *)
Definition dump_regions_json (data : gmap (option Z) ParentRow * list LeafRow)
    (w : World) : World :=
  mkWorld (files w) (Some data) (region_lists_json w)
    (network w) (requests w) (stderr w).

Definition load_regions_json (w : World)
    : Result (gmap (option Z) ParentRow * list LeafRow) :=
  match regions_json w with
  | Some data => Ok data
  | None => Raise IOError
  end.

(** The loop [while parent:] of [dump_regions], entered with the region
    [parent]: every ancestor is entered in the table under its id, with the
    id of its own parent. *)
Fixpoint dump_ancestors (parent : RegionRecord)
    (parents : gmap (option Z) ParentRow) : gmap (option Z) ParentRow :=
  let parents :=
    <[region_id parent :=
        (match region_parent parent with Some p => region_id p | None => None end,
         region_name parent, region_buildings parent)]> parents in
  match region_parent parent with
  | Some p => dump_ancestors p parents
  | None => parents
  end.

Fixpoint dump_regions_loop (regions : list RegionRecord)
    (parents : gmap (option Z) ParentRow) (leafs : list LeafRow)
    : Result (gmap (option Z) ParentRow * list LeafRow) :=
  match regions with
  | [] => Ok (parents, leafs)
  | region :: rest =>
      let '(mkRegionRecord parent name id buildings) := region in
      parent_id ← attr parent region_id;
      let leafs := leafs ++ [(parent_id, name, id, buildings)] in
      let parents :=
        match parent with
        | Some p => dump_ancestors p parents
        | None => parents
        end in
      dump_regions_loop rest parents leafs
  end.

Definition dump_regions (regions : list RegionRecord) (w : World) : Result World :=
  data ← dump_regions_loop regions ∅ [];
  Ok (dump_regions_json data w).

(** [load_parent_region(id, parents)] with [depth] frames of recursion
    left: Python raises [RuntimeError] when they run out. *)
Fixpoint load_parent_region (depth : nat) (id : option Z)
    (parents : gmap (option Z) ParentRow) : Result RegionRecord :=
  match depth with
  | O => Raise RuntimeError
  | S depth' =>
      match parents !! id with
      | None => Raise KeyError
      | Some (parent_id, name, buildings) =>
          parent ← (match parent_id with
                    | None => Ok None
                    | Some _ => Some <$> load_parent_region depth' parent_id parents
                    end);
          Ok (mkRegionRecord parent name id buildings)
      end
  end.

(** [{int(key): value for key, value in parents.iteritems()}]: the key
    ["null"] makes [int] raise [ValueError]; the other keys are the texts of
    integers, which [int] reads back. *)
Definition int_keys (parents : gmap (option Z) ParentRow)
    : Result (gmap (option Z) ParentRow) :=
  match parents !! None with
  | Some _ => Raise ValueError
  | None => Ok parents
  end.

Fixpoint load_regions_loop (depth : nat) (parents : gmap (option Z) ParentRow)
    (leafs : list LeafRow) : Gen RegionRecord :=
  match leafs with
  | [] => gen_done []
  | (parent_id, name, id, buildings) :: rest =>
      gen_bind (load_parent_region depth parent_id parents) (fun parent =>
        gen_yield (mkRegionRecord (Some parent) name id buildings)
          (load_regions_loop depth parents rest))
  end.

Definition load_regions (depth : nat) (w : World) : Gen RegionRecord :=
  gen_bind (load_regions_json w) (fun '(parents, leafs) =>
    gen_bind (int_keys parents) (fun parents =>
      load_regions_loop depth parents leafs)).

(** The regions that stand above the leaves of [regions]. *)
Definition all_ancestors (regions : list RegionRecord) : list RegionRecord :=
  regions ≫= ancestors.

(** The number of ancestors of a region. *)
Definition depth_of (r : RegionRecord) : nat := length (ancestors r).

(** A forest with consistent ids: every leaf has a parent, and above the
    leaves an id is present and names one region. *)
Definition id_consistent (regions : list RegionRecord) : Prop :=
  (∀ r, r ∈ regions → region_parent r ≠ None) ∧
  (∀ a, a ∈ all_ancestors regions → region_id a ≠ None) ∧
  (∀ a b, a ∈ all_ancestors regions → b ∈ all_ancestors regions →
     region_id a = region_id b → a = b).

(** The row of the parent table [dump_regions] writes for a region. *)
Definition entry_of (a : RegionRecord) : ParentRow :=
  (match region_parent a with Some p => region_id p | None => None end,
   region_name a, region_buildings a).

(** The row of the leaf list [dump_regions] writes for a leaf with a
    parent. *)
Definition leaf_row (r : RegionRecord) : LeafRow :=
  (match region_parent r with Some p => region_id p | None => None end,
   region_name r, region_id r, region_buildings r).

(** A parent table that holds rows of the regions [known] only, and the
    row of every region of [written]. *)
Definition table_of (known written : list RegionRecord)
    (parents : gmap (option Z) ParentRow) : Prop :=
  (∀ k v, parents !! k = Some v → ∃ a, a ∈ known ∧ region_id a = k ∧ entry_of a = v) ∧
  (∀ a, a ∈ written → parents !! region_id a = Some (entry_of a)).

(** Induction on the chain of parents of a region. *)
Fixpoint RegionRecord_chain_ind (P : RegionRecord → Prop)
    (Hroot : ∀ name id buildings, P (mkRegionRecord None name id buildings))
    (Hchild : ∀ p name id buildings, P p → P (mkRegionRecord (Some p) name id buildings))
    (r : RegionRecord) : P r :=
  match r with
  | mkRegionRecord None name id buildings => Hroot name id buildings
  | mkRegionRecord (Some p) name id buildings =>
      Hchild p name id buildings (RegionRecord_chain_ind P Hroot Hchild p)
  end.

(** The claim "[save(load(region_store))] round-trips" at the store of a
    world: [load_regions] reads the store to the end, [dump_regions] of the
    regions it yields succeeds, and the pair of parent table and leaf list
    it writes is the stored pair. *)
Definition store_round_trips (depth : nat) (w : World) : Prop :=
  ∃ regions w',
    load_regions depth w = gen_done regions ∧
    dump_regions regions w = Ok w' ∧
    regions_json w' = regions_json w.

(** ** Listing pages *)

Record RegionListRecord := mkRegionListRecord {
  record_region : option RegionRecord;
  record_id : Z;
  record_address : string;
  record_year : option Z;
  record_area : option float;
  record_company : option string;
}.

Definition region_list_url (id : option Z) : option string :=
  match id with
  | Some i =>
      if i =? 0 then None
      else Some ("https://www.reformagkh.ru/myhouse?tid=" +:+ pretty i
                 +:+ "&page=1&limit=100000")
  | None => None
  end.

Definition NO_DATA : string := "н.д.".
Definition NOT_FILLED : string := "Не заполнено".

Section Listing.
Context `{Builtins}.

Definition parse_reforma_float (s : string) : Result float :=
  py_float (remove_spaces s).

(** What one data row shows: the [href] and the text of the link of the
    address cell, and the texts of the year, area and company cells.
    [address, year, area, company = row.find_all('td')] raises [ValueError]
    unless the row has four cells; [link['href']] raises [TypeError] on a
    missing link and [KeyError] on a missing attribute. *)
Definition row_cells (row : Node) : Result (string * string * string * string * string) :=
  match node <$> find_all "td" None row with
  | [address; year; area; company] =>
      link ← (match find "a" None address with
              | Some link => Ok link
              | None => Raise TypeError
              end);
      href ← get_item "href" link;
      Ok (href, text link, text year, text area, text company)
  | _ => Raise ValueError
  end.

(** The body of the loop of [parse_region_list] for one row. *)
Definition parse_list_row (region : option RegionRecord) (row : Node)
    : Result RegionListRecord :=
  '(href, address, year, area, company) ← row_cells row;
  digits ← group1 (search_profile_id href);
  id ← py_int digits;
  year ← (if bool_decide (year = NO_DATA) then Ok None else Some <$> py_int year);
  area ← (if bool_decide (area = NO_DATA) then Ok None
          else Some <$> parse_reforma_float area);
  let company := if bool_decide (company = NOT_FILLED) then None else Some company in
  Ok (mkRegionListRecord region id address year area company).

Fixpoint parse_list_rows (region : option RegionRecord) (rows : list Node)
    : Gen RegionListRecord :=
  match rows with
  | [] => gen_done []
  | row :: rest =>
      gen_bind (parse_list_row region row) (fun record =>
        gen_yield record (parse_list_rows region rest))
  end.

(** The rows [table.find_all('tr')[1:]] of the results table of a page. *)
Definition data_rows (table : Node) : Result (list Node) :=
  table ← attr (find "table" None table) (fun table => table);
  Ok (node <$> drop 1 (find_all "tr" None table)).

(** [print >>sys.stderr, 'Unable to parse region:', region.id] writes its
    first item before it evaluates the second (the space the statement
    leaves pending on the file after an exception is not kept). *)
Definition parse_region_list (html : string) (region : option RegionRecord)
    (w : World) : Gen RegionListRecord * World :=
  let soup := get_soup html in
  match find "div" (Some "grid") soup with
  | None =>
      let w := write_stderr "Unable to parse region:" w in
      match region with
      | Some r =>
          (gen_done [], write_stderr (" " +:+ str_int (region_id r) +:+ NEWLINE) w)
      | None => (gen_raise AttributeError, w)
      end
  | Some table =>
      (gen_bind (data_rows table) (parse_list_rows region), w)
  end.

End Listing.

(** ** Listing persistence *)

Definition REGION_LISTS : string := path_join DATA_DIR "region_lists.json".

Definition dump_region_lists_json (data : gmap string Z * list ListRow)
    (w : World) : World :=
  mkWorld (files w) (regions_json w) (Some data)
    (network w) (requests w) (stderr w).

Definition load_region_lists_json (w : World)
    : Result (gmap string Z * list ListRow) :=
  match region_lists_json w with
  | Some data => Ok data
  | None => Raise IOError
  end.

(** The loop of [dump_region_lists] from the record of index [company_id]
    on. *)
Fixpoint dump_region_lists_loop (company_id : Z) (results : list RegionListRecord)
    (companies : gmap string Z) (data : list ListRow)
    : Result (gmap string Z * list ListRow) :=
  match results with
  | [] => Ok (companies, data)
  | mkRegionListRecord region id address year area company :: rest =>
      let '(this_id, companies) :=
        match company with
        | None => (None, companies)
        | Some name =>
            match companies !! name with
            | Some known => (Some known, companies)
            | None => (Some company_id, <[name := company_id]> companies)
            end
        end in
      region_id ← attr region region_id;
      dump_region_lists_loop (company_id + 1) rest companies
        (data ++ [(region_id, id, address, year, area, this_id)])
  end.

Definition dump_region_lists (results : list RegionListRecord) (w : World)
    : Result World :=
  data ← dump_region_lists_loop 0 results ∅ [];
  Ok (dump_region_lists_json data w).

(** [{_.id: _ for _ in regions}]: the last region of an id stays. *)
Definition regions_by_id (regions : list RegionRecord)
    : gmap (option Z) RegionRecord :=
  foldl (fun m r => <[region_id r := r]> m) ∅ regions.

(** [{id: name for name, id in companies.iteritems()}] followed by
    [companies[None] = None]. For an id given to two names Python keeps the
    name it meets last, in an order it does not fix; the tables
    [dump_region_lists] writes give every name an id of its own. *)
Definition companies_by_id (companies : gmap string Z)
    : gmap (option Z) (option string) :=
  <[None := None]>
    (list_to_map ((fun kv => (Some (snd kv), Some (fst kv))) <$> map_to_list companies)).

Fixpoint load_region_lists_loop (regions : gmap (option Z) RegionRecord)
    (companies : gmap (option Z) (option string)) (results : list ListRow)
    : Gen RegionListRecord :=
  match results with
  | [] => gen_done []
  | (region_id, id, address, year, area, company_id) :: rest =>
      gen_bind (match regions !! region_id with
                | Some r => Ok r
                | None => Raise KeyError
                end) (fun region =>
      gen_bind (match companies !! company_id with
                | Some c => Ok c
                | None => Raise KeyError
                end) (fun company =>
        gen_yield (mkRegionListRecord (Some region) id address year area company)
          (load_region_lists_loop regions companies rest)))
  end.

Definition load_region_lists (regions : list RegionRecord) (w : World)
    : Gen RegionListRecord :=
  let regions := regions_by_id regions in
  gen_bind (load_region_lists_json w) (fun '(companies, results) =>
    load_region_lists_loop regions (companies_by_id companies) results).

(** The results table of a page, [soup.find('div', class_='grid').find('table')],
    when the page has one. *)
Definition results_table (soup : Node) : option Node :=
  match find "div" (Some "grid") soup with
  | Some grid => find "table" None grid
  | None => None
  end.

(** The row [dump_region_lists] stores for a record, given the table of
    company ids: the id of the region, the fields, and the id of the
    company ([None] for no company). *)
Definition stored_as (companies : gmap string Z) (r : RegionListRecord)
    (row : ListRow) : Prop :=
  ∃ region,
    record_region r = Some region ∧
    row = (region_id region, record_id r, record_address r, record_year r,
           record_area r, record_company r ≫= (companies !!.)) ∧
    (∀ name, record_company r = Some name → is_Some (companies !! name)).

(** The state of the loop of [dump_region_lists] after the records [seen]:
    the id of a company is the index of a record that names it, and every
    record is stored under the ids of the table. *)
Definition interned (seen : list RegionListRecord) (companies : gmap string Z)
    (data : list ListRow) : Prop :=
  (∀ name i, companies !! name = Some i →
     0 ≤ i ∧ ∃ r, seen !! Z.to_nat i = Some r ∧ record_company r = Some name) ∧
  Forall2 (stored_as companies) seen data.

(** The regions handed to [load_region_lists] hold the region of a record
    under its id. *)
Definition region_known (regions : list RegionRecord) (r : RegionListRecord) : Prop :=
  ∃ region, record_region r = Some region ∧
    regions_by_id regions !! region_id region = Some region.

(** ** Building profiles: the classification group *)

(** The values the [repair] field takes: [None], a boolean or a text. *)
Inductive Repair :=
  | RepairNone
  | RepairBool (b : bool)
  | RepairText (s : string).

Record BuildingType := mkBuildingType {
  type_building : option string;
  type_series : option string;
  type_capital : option string;
  type_repair : Repair;
  type_energy : option string;
}.

(** [data.get(key)] on a mapping whose values may be [None]. *)
Definition dict_get (key : string) (data : gmap string (option string)) : option string :=
  match data !! key with
  | Some value => value
  | None => None
  end.

Definition REPAIR_LABEL : string := "Дом признан аварийным".

(** The loop of [parse_building_profile_data] over the pairs
    [(key, value)] its regular expressions take from a page, in page order
    ([value] already stripped): the "not filled" text becomes [None]. *)
Definition parse_building_profile_data (groups : list (string * string))
    : gmap string (option string) :=
  foldl (fun data kv =>
           let value := if bool_decide (snd kv = NOT_FILLED) then None else Some (snd kv) in
           <[fst kv := value]> data) ∅ groups.

Definition parse_building_profile_types (data : gmap string (option string))
    : BuildingType :=
  let type := dict_get "Тип дома" data in
  let series := dict_get "Серия, тип постройки здания" data in
  let capital := dict_get "Способ формирования фонда капитального ремонта" data in
  let repair := dict_get REPAIR_LABEL data in
  let repair :=
    match repair with
    | None => RepairNone
    | Some s =>
        if bool_decide (s = "Да") then RepairBool true
        else if bool_decide (s = "Нет") then RepairBool false
        else RepairText s
    end in
  let energy := dict_get "Класс энергетической эффективности" data in
  let energy :=
    match energy with
    | Some s => if bool_decide (s = "Не присвоен") then None else Some s
    | None => None
    end in
  mkBuildingType type series capital repair energy.

(** The claim "the condemned field is true for "Да", false for "Нет" and
    null for any other value" for a mapping with the label present. *)
Definition repair_is_tristate (data : gmap string (option string)) : Prop :=
  ∀ value, data !! REPAIR_LABEL = Some (Some value) →
    type_repair (parse_building_profile_types data) =
      if bool_decide (value = "Да") then RepairBool true
      else if bool_decide (value = "Нет") then RepairBool false
      else RepairNone.

(** The value of the last pair of the page that carries the label [key]. *)
Definition last_value (key : string) (groups : list (string * string)) : option string :=
  snd <$> last (filter (fun kv => fst kv = key) groups).

(** ** Sample pages and a sample environment *)

Module Sample.

(** Decimal numerals, on which it agrees with [int]. *)
Fixpoint digits_value (acc : Z) (s : string) : option Z :=
  match s with
  | EmptyString => Some acc
  | String c rest =>
      if is_digit c then digits_value (10 * acc + (Z.of_nat (nat_of_ascii c) - 48)) rest
      else None
  end.

Definition parse_int (s : string) : option Z :=
  if bool_decide (s = "") then None else digits_value 0 s.

(** Decimal literals [digits.digits] short enough for the quotient of two
    exact binary64 numbers to be the nearest one, on which it agrees with
    [float]. *)
Definition parse_float (s : string) : option float :=
  let '(whole, tail) := span_digits s in
  match strip_prefix "." tail with
  | Some frac =>
      m ← digits_value 0 (whole +:+ frac);
      let k := Z.of_nat (String.length frac) in
      if bool_decide (whole ≠ "") && (m <? 2 ^ 53) && (k <=? 22)
      then Some (PrimFloat.div (PrimFloat.of_uint63 (Uint63.of_Z m))
                               (PrimFloat.of_uint63 (Uint63.of_Z (10 ^ k))))
      else None
  | None => None
  end.

(** The tree of [<html><body> ... </body></html>]. *)
Definition document (body : list Node) : Node :=
  Tag "[document]" [] [] [Tag "html" [] [] [Tag "body" [] [] body]].

(** A page of regions: one [tr.left] row with the link of a region and,
    after it, one row with the count of its buildings. *)
Definition region_rows_html (href name count : string) : string :=
  "<tr class='left'><td><a" +:+ href +:+ ">" +:+ name +:+ "</a></td></tr>" +:+
  "<tr><td><span>" +:+ count +:+ "</span></td></tr>".

Definition region_rows_tree (href : list (string * string)) (name count : string)
    : list Node :=
  [Tag "tr" ["left"] [] [Tag "td" [] [] [Tag "a" [] href [NavigableString name]]];
   Tag "tr" [] [] [Tag "td" [] [] [Tag "span" [] [] [NavigableString count]]]].

Definition root_html : string :=
  "<table>" +:+ region_rows_html " href='/myhouse?tid=1'" "Область" "12 345" +:+ "</table>".
Definition root_tree : Node :=
  document [Tag "table" [] []
    (region_rows_tree [("href", "/myhouse?tid=1")] "Область" "12 345")].

Definition level1_html : string :=
  "<table>" +:+ region_rows_html " href='/myhouse?tid=2'" "Район" "345" +:+ "</table>".
Definition level1_tree : Node :=
  document [Tag "table" [] []
    (region_rows_tree [("href", "/myhouse?tid=2")] "Район" "345")].

Definition level2_html : string :=
  "<table>" +:+ region_rows_html " href='/myhouse?tid=3'" "Посёлок" "45" +:+ "</table>".
Definition level2_tree : Node :=
  document [Tag "table" [] []
    (region_rows_tree [("href", "/myhouse?tid=3")] "Посёлок" "45")].

(** A page that lists no region. *)
Definition empty_html : string := "<table></table>".
Definition empty_tree : Node := document [Tag "table" [] [] []].

(** A root page whose only row is a label: its link has no [href]. *)
Definition label_html : string :=
  "<table>" +:+ region_rows_html "" "Прочие" "7" +:+ "</table>".
Definition label_tree : Node :=
  document [Tag "table" [] [] (region_rows_tree [] "Прочие" "7")].

(** A listing page: a header row and two data rows. *)
Definition listing_row_html (id address year area company : string) : string :=
  "<tr><td><a href='/myhouse/profile/view/" +:+ id +:+ "/'>" +:+ address +:+
  "</a></td><td>" +:+ year +:+ "</td><td>" +:+ area +:+ "</td><td>" +:+
  company +:+ "</td></tr>".

Definition listing_row_tree (id address year area company : string) : Node :=
  Tag "tr" [] []
    [Tag "td" [] []
       [Tag "a" [] [("href", "/myhouse/profile/view/" +:+ id +:+ "/")]
          [NavigableString address]];
     Tag "td" [] [] [NavigableString year];
     Tag "td" [] [] [NavigableString area];
     Tag "td" [] [] [NavigableString company]].

Definition listing_html : string :=
  "<div class='grid'><table><tr><th>Адрес</th></tr>" +:+
  listing_row_html "7001" "ул. Мира, д. 1" "1975" "1 234.5" "Не заполнено" +:+
  listing_row_html "7002" "ул. Мира, д. 2" "н.д." "н.д." "ООО Ромашка" +:+
  "</table></div>".
Definition listing_tree : Node :=
  document [Tag "div" ["grid"] [] [Tag "table" [] []
    [Tag "tr" [] [] [Tag "th" [] [] [NavigableString "Адрес"]];
     listing_row_tree "7001" "ул. Мира, д. 1" "1975" "1 234.5" "Не заполнено";
     listing_row_tree "7002" "ул. Мира, д. 2" "н.д." "н.д." "ООО Ромашка"]]].

(** A page without the results table. *)
Definition no_table_html : string := "<p>Ошибка</p>".
Definition no_table_tree : Node :=
  document [Tag "p" [] [] [NavigableString "Ошибка"]].

(** A page whose [div.grid] holds no table. *)
Definition grid_only_html : string := "<div class='grid'><p>Нет данных</p></div>".
Definition grid_only_tree : Node :=
  document [Tag "div" ["grid"] [] [Tag "p" [] [] [NavigableString "Нет данных"]]].

Definition pages : list (string * Node) :=
  [(root_html, root_tree); (level1_html, level1_tree); (level2_html, level2_tree);
   (empty_html, empty_tree); (label_html, label_tree); (listing_html, listing_tree);
   (no_table_html, no_table_tree); (grid_only_html, grid_only_tree)].

(** The trees of the sample pages; any other text counts as an empty
    document. *)
Definition soup (html : string) : Node :=
  default (document []) (snd <$> head (filter (fun p => fst p = html) pages)).

Definition builtins : Builtins := {|
  BeautifulSoup := soup;
  int_of_text := parse_int;
  float_of_text := parse_float;
|}.

(** A cache holding the pages [(url, html)], stored by [dump_html]. *)
Definition cached (stored : list (string * string)) : World :=
  foldl (fun w p => dump_html (fst p) (Some (snd p)) w) (fresh_world None) stored.

(** Three levels below the root page: region 1, its child 2 and the child
    3 of that one, which has no child. *)
Definition deep_world : World :=
  cached [(ROOT_URL, root_html);
          ("https://www.reformagkh.ru/myhouse?tid=1", level1_html);
          ("https://www.reformagkh.ru/myhouse?tid=2", level2_html);
          ("https://www.reformagkh.ru/myhouse?tid=3", empty_html)].

(** A root page with a label in place of a region. *)
Definition label_world : World := cached [(ROOT_URL, label_html)].

(** Three leaves below a region and its child. *)
Definition oblast : RegionRecord := mkRegionRecord None "Область" (Some 1) 12345.
Definition raion : RegionRecord := mkRegionRecord (Some oblast) "Район" (Some 2) 345.
Definition leaves : list RegionRecord :=
  [mkRegionRecord (Some raion) "Посёлок" (Some 3) 45;
   mkRegionRecord (Some raion) "Прочие" None 7;
   mkRegionRecord (Some oblast) "Город" (Some 4) 300].

(** Two leaves whose parents carry the id 1 and differ: one stands below
    the region 2, the other below nothing. *)
Definition clashing_leaves : list RegionRecord :=
  [mkRegionRecord
     (Some (mkRegionRecord (Some (mkRegionRecord None "Край" (Some 2) 30))
              "Район" (Some 1) 20)) "Село" (Some 10) 1;
   mkRegionRecord (Some (mkRegionRecord None "Район" (Some 1) 20)) "Хутор" (Some 11) 1].

(** Three records of the first of [leaves]: two of one company, one of
    none. *)
Definition poselok : RegionRecord := mkRegionRecord (Some raion) "Посёлок" (Some 3) 45.
Definition records : list RegionListRecord :=
  [mkRegionListRecord (Some poselok) 7001 "ул. Мира, д. 1"
     (Some 1975) (Some 1234.5%float) (Some "ООО Ромашка");
   mkRegionListRecord (Some poselok) 7002 "ул. Мира, д. 2" None None None;
   mkRegionListRecord (Some poselok) 7003 "ул. Мира, д. 3"
     (Some 1980) None (Some "ООО Ромашка")].

End Sample.

(** ** Notions for the further properties of the stores *)

(** A parent table made of rows of the regions [regions], with a row under
    the id of each of them. *)
Definition rows_of (regions : list RegionRecord)
    (parents : gmap (option Z) ParentRow) : Prop :=
  (∀ k v, parents !! k = Some v → ∃ a, a ∈ regions ∧ region_id a = k ∧ entry_of a = v) ∧
  (∀ a, a ∈ regions → is_Some (parents !! region_id a)).

(** An id that a leaf row, or a row of the parent table, names as parent. *)
Definition referenced (parents : gmap (option Z) ParentRow) (leafs : list LeafRow)
    (id : option Z) : Prop :=
  (∃ name i buildings, (id, name, i, buildings) ∈ leafs) ∨
  (id ≠ None ∧ ∃ k name buildings, parents !! k = Some (id, name, buildings)).

(** A world whose region store is the given document. *)
Definition with_regions_json (data : gmap (option Z) ParentRow * list LeafRow) : World :=
  dump_regions_json data (fresh_world None).

(** ** Listing the index of the cache *)

(** The whitespace that [unicode.strip()] removes, on the UTF-8 bytes of a
    text: the characters U+0009 to U+000D, U+001C to U+0020, U+0085,
    U+00A0, U+1680, U+180E, U+2000 to U+200A, U+2028, U+2029, U+202F,
    U+205F and U+3000. *)
Definition is_ascii_space (c : ascii) : bool :=
  let n := N_of_ascii c in
  ((9 <=? n) && (n <=? 13) || (28 <=? n) && (n <=? 32))%N.

Definition is_space2 (b1 b2 : ascii) : bool :=
  let '(x, y) := (N_of_ascii b1, N_of_ascii b2) in
  ((x =? 0xC2) && ((y =? 0x85) || (y =? 0xA0)))%N.

Definition is_space3 (b1 b2 b3 : ascii) : bool :=
  let '(x, y, z) := (N_of_ascii b1, N_of_ascii b2, N_of_ascii b3) in
  ((x =? 0xE1) && (y =? 0x9A) && (z =? 0x80) ||
   (x =? 0xE1) && (y =? 0xA0) && (z =? 0x8E) ||
   (x =? 0xE2) && (y =? 0x80) &&
     ((0x80 <=? z) && (z <=? 0x8A) || (z =? 0xA8) || (z =? 0xA9) || (z =? 0xAF)) ||
   (x =? 0xE2) && (y =? 0x81) && (z =? 0x9F) ||
   (x =? 0xE3) && (y =? 0x80) && (z =? 0x80))%N.

(** The number of bytes of the whitespace character a text starts with,
    0 when it starts with none. *)
Definition space_at_start (l : list ascii) : nat :=
  match l with
  | b1 :: rest =>
      if is_ascii_space b1 then 1
      else match rest with
           | b2 :: rest' =>
               if is_space2 b1 b2 then 2
               else match rest' with
                    | b3 :: _ => if is_space3 b1 b2 b3 then 3 else 0
                    | [] => 0
                    end
           | [] => 0
           end
  | [] => 0
  end%nat.

(** The same for the character a text ends with, on its bytes taken last
    first. *)
Definition space_at_end (r : list ascii) : nat :=
  match r with
  | b1 :: rest =>
      if is_ascii_space b1 then 1
      else match rest with
           | b2 :: rest' =>
               if is_space2 b2 b1 then 2
               else match rest' with
                    | b3 :: _ => if is_space3 b3 b2 b1 then 3 else 0
                    | [] => 0
                    end
           | [] => 0
           end
  | [] => 0
  end%nat.

(** Whitespace characters dropped from the front of [l], as told by
    [width]; [fuel] bounds their number. *)
Fixpoint drop_spaces (width : list ascii -> nat) (fuel : nat) (l : list ascii)
    : list ascii :=
  match fuel with
  | O => l
  | S fuel' =>
      match width l with
      | O => l
      | n => drop_spaces width fuel' (drop n l)
      end
  end.

(** [s.strip()] on a text. *)
Definition strip (s : string) : string :=
  let l := list_ascii_of_string s in
  let l := drop_spaces space_at_start (length l) l in
  let r := drop_spaces space_at_end (length l) (reverse l) in
  string_of_list_ascii (reverse r).

(** The lines a file gives when it is iterated: each ends with its newline,
    but for a last line that has none. [cur] holds the bytes of the line
    being read, last first. *)
Fixpoint file_lines (cur : list ascii) (s : string) : list string :=
  match s with
  | EmptyString =>
      match cur with
      | [] => []
      | _ => [string_of_list_ascii (reverse cur)]
      end
  | String c rest =>
      if Ascii.eqb c (ascii_of_nat 10)
      then string_of_list_ascii (reverse (c :: cur)) :: file_lines [] rest
      else file_lines (c :: cur) rest
  end.

(** [s.split('\t', 1)] when [s] has a tab: what stands before the first
    tab and what stands after it. *)
Fixpoint split_tab (s : string) : option (string * string) :=
  match s with
  | EmptyString => None
  | String c rest =>
      if Ascii.eqb c (ascii_of_nat 9) then Some (EmptyString, rest)
      else match split_tab rest with
           | Some (before, after) => Some (String c before, after)
           | None => None
           end
  end.

(** The body of the loop of [list_urls_cache] for one line:
    [hash, url = line.split('\t', 1)] raises [ValueError] on a line
    without a tab. *)
Definition parse_index_line (line : string) : Result string :=
  match split_tab (strip line) with
  | Some (_, url) => Ok url
  | None => Raise ValueError
  end.

Fixpoint list_index_lines (lines : list string) : Gen string :=
  match lines with
  | [] => gen_done []
  | line :: rest =>
      gen_bind (parse_index_line line) (fun url =>
        gen_yield url (list_index_lines rest))
  end.

Definition list_urls_cache (path : string) (w : World) : Gen string :=
  gen_bind (file_read path (files w)) (fun text =>
    list_index_lines (file_lines [] text)).

Definition list_html_cache (w : World) : Gen string :=
  list_urls_cache HTML_LIST w.

(** The text of an index that holds the lines of [urls]. *)
Definition index_text (urls : list string) : string :=
  foldr (fun url text => index_line url +:+ text) "" urls.

Definition has_newline (s : string) : bool :=
  bool_decide (ascii_of_nat 10 ∈ list_ascii_of_string s).

(** A URL whose line of the index reads back as the URL: it is not empty,
    has no line break and does not end with whitespace. *)
Definition listable (url : string) : Prop :=
  url ≠ "" ∧ has_newline url = false ∧
  space_at_end (reverse (list_ascii_of_string url)) = 0%nat.

(** A URL made of blanks: the whitespace of ASCII but for the line break. *)
Definition blank (url : string) : Prop :=
  Forall (fun c => is_ascii_space c = true ∧ c ≠ ascii_of_nat 10)
    (list_ascii_of_string url).

(** ** The pass over the listing pages *)

Section RawLists.
Context `{Builtins}.

(** [load_html(region_list_url(id))]: for the id [0] the builder returns
    [None], on which [load_html] raises [AttributeError]; a page that is not
    in the cache raises [IOError]. *)
Definition load_region_page (id : Z) (w : World) : Result string :=
  url ← attr (region_list_url (Some id)) (fun url => url);
  load_html url w.

(** A region without id is passed over; the records of the page of a region
    are yielded before the next region is looked at, and an exception ends
    the pass. *)
Fixpoint load_raw_region_lists (regions : list RegionRecord) (w : World)
    : Gen RegionListRecord * World :=
  match regions with
  | [] => (gen_done [], w)
  | region :: rest =>
      match region_id region with
      | None => load_raw_region_lists rest w
      | Some id =>
          match load_region_page id w with
          | Raise e => (gen_raise e, w)
          | Ok html =>
              let '(records, w) := parse_region_list html (Some region) w in
              match raised records with
              | Some _ => (records, w)
              | None =>
                  let '(more, w) := load_raw_region_lists rest w in
                  (gen_yield_all (yielded records) more, w)
              end
          end
      end
  end.

(** The records the cached listing page of a region yields, none for a
    region without id or without a page that can be read. *)
Definition listed (w : World) (region : RegionRecord) : list RegionListRecord :=
  match region_id region with
  | None => []
  | Some id =>
      match load_region_page id w with
      | Ok html => yielded (fst (parse_region_list html (Some region) w))
      | Raise _ => []
      end
  end.

End RawLists.

(** [result.region.parent.parent] raises [AttributeError] for a record
    without region and for a region without parent; a region, being a
    tuple of four fields, counts as true. *)
Definition grandparent (result : RegionListRecord) : Result (option RegionRecord) :=
  region ← attr (record_region result) (fun region => region);
  parent ← attr (region_parent region) (fun parent => parent);
  Ok (region_parent parent).

Fixpoint filter_region_lists (results : list RegionListRecord) (name : string)
    : Gen RegionListRecord :=
  match results with
  | [] => gen_done []
  | result :: rest =>
      gen_bind (grandparent result) (fun parent =>
        match parent with
        | Some p =>
            if bool_decide (region_name p = name)
            then gen_yield result (filter_region_lists rest name)
            else filter_region_lists rest name
        | None => filter_region_lists rest name
        end)
  end.

Definition building_profile_url (id : option Z) : option string :=
  match id with
  | Some i =>
      if i =? 0 then None
      else Some ("https://www.reformagkh.ru/myhouse/profile/view/" +:+ pretty i +:+ "/")
  | None => None
  end.

(** The region of a record has a parent. *)
Definition below_a_parent (result : RegionListRecord) : Prop :=
  ∃ region parent, record_region result = Some region ∧ region_parent region = Some parent.

(** The region two levels above the region of a record is called [name]. *)
Definition under (name : string) (result : RegionListRecord) : bool :=
  match record_region result with
  | Some region =>
      match region_parent region with
      | Some parent =>
          match region_parent parent with
          | Some top => bool_decide (region_name top = name)
          | None => false
          end
      | None => false
      end
  | None => false
  end.

(** The diagnostic [parse_region_list] writes for a region. *)
Definition unable_to_parse (region : RegionRecord) : string :=
  "Unable to parse region: " +:+ str_int (region_id region) +:+ NEWLINE.

(** The position of the first record that names the company [name]. *)
Definition first_naming (name : string) (results : list RegionListRecord) : option Z :=
  (fun found => Z.of_nat (fst found)) <$>
    list_find (fun r => record_company r = Some name) results.

(** ** Building profiles: the dates and the measures *)

Record WhenBuildingWas := mkWhenBuildingWas {
  when_built : option Z;
  when_opened : option Z;
}.

Record BuildingFloors := mkBuildingFloors {
  floors_min : option Z;
  floors_max : option Z;
}.

Record BuildingMeasures := mkBuildingMeasures {
  measures_floors : BuildingFloors;
  measures_appartments : option Z;
  measures_entrances : option Z;
  measures_elevators : option Z;
  measures_area_meters : option float;
  measures_parking_meters : option float;
}.

Definition BUILT_LABEL : string := "Год постройки".
Definition OPENED_LABEL : string := "Год ввода дома в эксплуатацию".
Definition MIN_FLOORS_LABEL : string := "наименьшее, ед.".
Definition MAX_FLOORS_LABEL : string := "наибольшее, ед.".
Definition APPARTMENTS_LABEL : string := "Количество помещений, в том числе:".
Definition ENTRANCES_LABEL : string := "Количество подъездов, ед.".
Definition ELEVATORS_LABEL : string := "Количество лифтов, ед.".
Definition AREA_LABEL : string := "Общая площадь дома, кв.м".
Definition PARKING_LABEL : string :=
  "площадь парковки в границах земельного участка, кв.м".

(** [int_or_none(value, int=int)]. *)
Definition int_or_none {A} (value : option string) (int : string -> Result A)
    : Result (option A) :=
  match value with
  | Some v => Some <$> int v
  | None => Ok None
  end.

Section ProfileNumbers.
Context `{Builtins}.

Definition parse_building_profile_dates (data : gmap string (option string))
    : Result WhenBuildingWas :=
  built ← int_or_none (dict_get BUILT_LABEL data) py_int;
  opened ← int_or_none (dict_get OPENED_LABEL data) py_int;
  Ok (mkWhenBuildingWas built opened).

Definition parse_building_profile_measures (data : gmap string (option string))
    : Result BuildingMeasures :=
  min_floors ← int_or_none (dict_get MIN_FLOORS_LABEL data) parse_reforma_int;
  max_floors ← int_or_none (dict_get MAX_FLOORS_LABEL data) parse_reforma_int;
  appartments ← int_or_none (dict_get APPARTMENTS_LABEL data) parse_reforma_int;
  entrances ← int_or_none (dict_get ENTRANCES_LABEL data) parse_reforma_int;
  elevators ← int_or_none (dict_get ELEVATORS_LABEL data) parse_reforma_int;
  area_meters ← int_or_none (dict_get AREA_LABEL data) parse_reforma_float;
  parking_meters ← int_or_none (dict_get PARKING_LABEL data) parse_reforma_float;
  Ok (mkBuildingMeasures (mkBuildingFloors min_floors max_floors)
        appartments entrances elevators area_meters parking_meters).

End ProfileNumbers.

(** What a page shows for a label: the value of its last row with the
    label, unless that value is the "not filled" text. *)
Definition shown (label : string) (groups : list (string * string)) : option string :=
  match last_value label groups with
  | Some value => if bool_decide (value = NOT_FILLED) then None else Some value
  | None => None
  end.

(** ** The files of the profiles *)

Definition PROFILES_DIR : string := path_join DATA_DIR "profiles".

(** ['{id}.json'.format(id=id)] for an id that is an integer or [None]. *)
Definition get_profile_filename (id : option Z) : string := str_int id +:+ ".json".

Definition get_profile_path (id : option Z) : string :=
  path_join PROFILES_DIR (get_profile_filename id).

(** [s.split('.', 1)] when [s] has a dot: what stands before the first dot
    and what stands after it. *)
Fixpoint split_dot (s : string) : option (string * string) :=
  match s with
  | EmptyString => None
  | String c rest =>
      if Ascii.eqb c "." then Some (EmptyString, rest)
      else match split_dot rest with
           | Some (before, after) => Some (String c before, after)
           | None => None
           end
  end.

Section ProfileFiles.
Context `{Builtins}.

(** [id, _ = filename.split('.', 1)] raises [ValueError] on a name without
    a dot. *)
Definition parse_profile_filename (filename : string) : Result Z :=
  match split_dot filename with
  | Some (id, _) => py_int id
  | None => Raise ValueError
  end.

(** [list_profiles_cache] over the names [os.listdir(PROFILES_DIR)]
    returns, in the order in which it returns them. *)
Fixpoint list_profiles_cache (filenames : list string) : Gen Z :=
  match filenames with
  | [] => gen_done []
  | filename :: rest =>
      gen_bind (parse_profile_filename filename) (fun id =>
        gen_yield id (list_profiles_cache rest))
  end.

End ProfileFiles.

(** ** Further samples *)

Module More.

(** A region store with a row that no leaf reaches. *)
Definition spare_row_store : gmap (option Z) ParentRow * list LeafRow :=
  (<[Some 1 := (None, "Район", 20)]> (<[Some 2 := (None, "Край", 30)]> ∅),
   [(Some 1, "Хутор", Some 11, 1)]).

(** The region store [dump_regions] writes for [Sample.clashing_leaves]:
    the row of the id 1 is the one written last, and no leaf reaches the
    row of the region 2. *)
Definition clashing_store : gmap (option Z) ParentRow * list LeafRow :=
  (<[Some 1 := (None, "Район", 20)]> (<[Some 2 := (None, "Край", 30)]> ∅),
   [(Some 1, "Село", Some 10, 1); (Some 1, "Хутор", Some 11, 1)]).

(** A region store whose row names a parent that has no row. *)
Definition dangling_store : gmap (option Z) ParentRow * list LeafRow :=
  (<[Some 1 := (Some 9, "Район", 20)]> ∅, [(Some 1, "Хутор", Some 11, 1)]).

(** A cache that holds the listing page of the region 3 only. *)
Definition partly_listed_world : World :=
  Sample.cached
    [("https://www.reformagkh.ru/myhouse?tid=3&page=1&limit=100000", Sample.listing_html)].

(** A cache in which the page of the region 3 has no results table and the
    page of the region 4 is a listing. *)
Definition no_table_world : World :=
  Sample.cached
    [("https://www.reformagkh.ru/myhouse?tid=3&page=1&limit=100000", Sample.no_table_html);
     ("https://www.reformagkh.ru/myhouse?tid=4&page=1&limit=100000", Sample.listing_html)].

(** A listing store with two rows of the region 3, and a second region
    that carries the id 3. *)
Definition lists_companies : gmap string Z := {[ "ООО Ромашка" := 0 ]}.
Definition lists_rows : list ListRow :=
  [(Some 3, 7001, "ул. Мира, д. 1", Some 1975, Some 1234.5%float, Some 0);
   (Some 3, 7002, "ул. Мира, д. 2", None, None, None)].
Definition lists_world : World :=
  dump_region_lists_json (lists_companies, lists_rows) (fresh_world None).
Definition twin : RegionRecord := mkRegionRecord (Some Sample.oblast) "Двойник" (Some 3) 1.

(** A listing store whose row names a region id that no sample region
    carries. *)
Definition stray_lists_world : World :=
  dump_region_lists_json (∅, [(Some 9, 7001, "ул. Мира, д. 1", None, None, None)])
    (fresh_world None).

End More.

(* ================================================================== *)
(** * Properties *)

Example get_chunks_5_2 :
  get_chunks [10; 11; 12; 13; 14] 2 = Ok [[10; 12; 14]; [11; 13]].
Proof. reflexivity. Qed.

Example get_chunks_2_5 :
  get_chunks [10; 11] 5 = Ok [[10]; [11]].
Proof. reflexivity. Qed.

Example get_chunks_empty : get_chunks (@nil Z) 3 = Ok [].
Proof. reflexivity. Qed.

Example get_chunks_zero : get_chunks [10; 11] 0 = Raise ZeroDivisionError.
Proof. reflexivity. Qed.

Example get_chunks_negative : get_chunks [10; 11] (-1) = Raise IndexError.
Proof. reflexivity. Qed.

Section ChunksFacts.
Context {A : Type}.
Implicit Types (s done items : list A) (chunks : list (list A)).

Lemma py_mod_pos (a b : Z) : 0 < b → py_mod a b = Ok (a mod b).
Proof. intros Hb. unfold py_mod. destruct (Z.eqb_spec b 0); [lia | done]. Qed.

Lemma py_index_in_range {B} (l : list B) (i : Z) :
  0 ≤ i < Z.of_nat (length l) → py_index l i = Ok (Z.to_nat i).
Proof.
  intros Hi. unfold py_index.
  destruct (Z.ltb_spec i 0); [lia |].
  destruct (Z.leb_spec 0 i); [| lia].
  destruct (Z.ltb_spec i (Z.of_nat (length l))); [done | lia].
Qed.

Lemma concat_alter_snoc chunks (pos : nat) (x : A) :
  (pos < length chunks)%nat →
  concat (alter (λ c, c ++ [x]) pos chunks) ≡ₚ x :: concat chunks.
Proof.
  revert pos. induction chunks as [| c chunks IH]; intros [| pos] Hpos; simpl in *; try lia.
  - rewrite <- app_assoc. simpl. by rewrite Permutation_middle.
  - change (list_alter ?f ?i ?l) with (alter f i l).
    rewrite IH by lia. by rewrite Permutation_middle.
Qed.

(** The loop invariant: with [c] chunks and the items [done] placed, chunk
    [j] holds at position [k] the item of index [k * c + j]. *)
Definition placed (c : nat) done chunks : Prop :=
  length chunks = c ∧
  (∀ j k : nat, (j < c)%nat → chunks !! j ≫= (.!! k) = done !! (k * c + j)%nat) ∧
  concat chunks ≡ₚ done.

Lemma placed_chunk_length c done chunks (j : nat) cj :
  (0 < c)%nat → placed c done chunks → (j < c)%nat → chunks !! j = Some cj →
  length done = (length cj * c + j)%nat ∨
  (length cj * c + j ≥ length done ∧ (length cj = 0 ∨ (length cj - 1) * c + j < length done))%nat.
Proof.
  intros Hc (Hlen & Hpl & _) Hj Hcj. right.
  split.
  - pose proof (Hpl j (length cj) Hj) as H. rewrite Hcj in H. simpl in H.
    rewrite (lookup_ge_None_2 cj) in H by lia. symmetry in H.
    apply lookup_ge_None_1 in H. lia.
  - destruct (length cj) as [| n] eqn:E; [by left | right].
    pose proof (Hpl j n Hj) as H. rewrite Hcj in H. simpl in H.
    destruct (lookup_lt_is_Some_2 cj n) as [x Hx]; [lia |].
    rewrite Hx in H. symmetry in H. apply lookup_lt_Some in H.
    replace (S n - 1)%nat with n by lia. lia.
Qed.

Lemma placed_step c done chunks (x : A) :
  (0 < c)%nat → placed c done chunks →
  placed c (done ++ [x]) (alter (λ cj, cj ++ [x]) (length done mod c)%nat chunks).
Proof.
  intros Hc Hpl. pose proof Hpl as (Hlen & Hlk & Hperm).
  remember (length done) as m eqn:Em.
  remember (m mod c)%nat as pos eqn:Epos.
  assert (Hpos : (pos < c)%nat) by (subst pos; apply Nat.mod_upper_bound; lia).
  assert (Hm : (m = c * (m / c) + pos)%nat) by (subst pos; apply Nat.div_mod; lia).
  split; [| split].
  - by rewrite length_alter.
  - intros j k Hj. destruct (decide (j = pos)) as [-> | Hne].
    + rewrite list_lookup_alter_eq.
      destruct (lookup_lt_is_Some_2 chunks pos) as [cj Hcj]; [lia |].
      rewrite Hcj. simpl.
      assert (HL : length cj = (m / c)%nat).
      { destruct (placed_chunk_length c done chunks pos cj Hc Hpl Hpos Hcj) as [H | [H1 H2]];
          rewrite <- Em in *; nia. }
      pose proof (Hlk pos k Hpos) as Hk. rewrite Hcj in Hk. simpl in Hk.
      destruct (Nat.lt_total k (m / c)) as [Hlt | [-> | Hgt]].
      * rewrite lookup_app_l by lia. rewrite Hk.
        symmetry. apply lookup_app_l. rewrite <- Em. nia.
      * rewrite <- HL at 1. rewrite list_lookup_middle by done.
        symmetry. replace (m / c * c + pos)%nat with (length done) by lia.
        by apply list_lookup_middle.
      * rewrite lookup_ge_None_2 by (rewrite length_app; simpl; lia).
        symmetry. apply lookup_ge_None_2. rewrite length_app, <- Em. simpl. nia.
    + rewrite list_lookup_alter_ne by done. rewrite Hlk by done.
      assert ((k * c + j)%nat ≠ m).
      { intros E. apply Hne. rewrite Epos, <- E.
        rewrite Nat.add_comm, Nat.Div0.mod_add. by rewrite Nat.mod_small. }
      destruct (Nat.lt_total (k * c + j) m) as [Hlt | [? | Hgt]]; [| done |].
      * symmetry. apply lookup_app_l. lia.
      * rewrite lookup_ge_None_2 by lia.
        symmetry. apply lookup_ge_None_2. rewrite length_app. simpl. lia.
  - rewrite concat_alter_snoc by lia. rewrite Hperm.
    by rewrite Permutation_cons_append.
Qed.

Lemma chunks_loop_placed (c : nat) items : ∀ done chunks,
  (0 < c)%nat → placed c done chunks →
  ∃ chunks', chunks_loop (Z.of_nat c) (Z.of_nat (length done)) items chunks = Ok chunks'
             ∧ placed c (done ++ items) chunks'.
Proof.
  induction items as [| x items IH]; intros done chunks Hc Hpl.
  - exists chunks. rewrite app_nil_r. done.
  - simpl. rewrite py_mod_pos by lia. simpl.
    pose proof Hpl as (Hlen & _ & _).
    rewrite py_index_in_range; last first.
    { rewrite Hlen. apply Z.mod_pos_bound. lia. }
    simpl.
    replace (Z.to_nat (Z.of_nat (length done) mod Z.of_nat c)) with (length done mod c)%nat
      by (rewrite <- Nat2Z.inj_mod; lia).
    destruct (IH (done ++ [x]) _ Hc (placed_step c done chunks x Hc Hpl)) as (chunks' & Hrun & Hpl').
    exists chunks'. split.
    + rewrite <- Hrun. f_equal. rewrite length_app. simpl. lia.
    + by rewrite <- app_assoc in Hpl'.
Qed.

Lemma placed_init (c : nat) : placed c (@nil A) (replicate c []).
Proof.
  split; [by rewrite length_replicate | split].
  - intros j k Hj. rewrite lookup_replicate_2 by done. done.
  - induction c; simpl; done.
Qed.

(** C9: for a non-empty list [s] and a count [n >= 1], [get_chunks s n]
    returns [min n (length s)] chunks; the item of index [i] sits in chunk
    [i mod count] (at position [i / count]), a chunk holds nothing else, so
    every item is in exactly one chunk (the chunks together are a
    permutation of [s]), and no chunk is empty. *)
Theorem get_chunks_round_robin s (n : Z) :
  s ≠ [] → 1 ≤ n →
  let count := Nat.min (Z.to_nat n) (length s) in
  ∃ chunks,
    get_chunks s n = Ok chunks ∧
    length chunks = count ∧
    (∀ (i : nat) x, s !! i = Some x →
       ∃ c, chunks !! (i mod count)%nat = Some c ∧ c !! (i / count)%nat = Some x) ∧
    (∀ (j k : nat) c x, chunks !! j = Some c → c !! k = Some x →
       s !! (k * count + j)%nat = Some x ∧
       ((k * count + j) mod count = j ∧ (k * count + j) / count = k)%nat) ∧
    Forall (λ c, c ≠ []) chunks ∧
    concat chunks ≡ₚ s.
Proof.
  intros Hs Hn count.
  assert (Hlen : (0 < length s)%nat) by (destruct s; [done | simpl; lia]).
  assert (Hc : (0 < count)%nat) by (unfold count; lia).
  unfold get_chunks.
  replace (Z.min n (Z.of_nat (length s))) with (Z.of_nat count) by (unfold count; lia).
  rewrite Nat2Z.id.
  destruct (chunks_loop_placed count s [] (replicate count []) Hc (placed_init count))
    as (chunks & Hrun & Hlenc & Hlk & Hperm).
  simpl in Hrun, Hlk, Hperm.
  exists chunks. split; [done |]. split; [done |].
  assert (Hat : ∀ (j k : nat) c, chunks !! j = Some c → c !! k = s !! (k * count + j)%nat).
  { intros j k c Hj. pose proof (lookup_lt_Some _ _ _ Hj).
    specialize (Hlk j k ltac:(lia)). by rewrite Hj in Hlk. }
  split; [| split; [| split]].
  - intros i x Hi.
    assert (Hp : (i mod count < count)%nat) by (apply Nat.mod_upper_bound; lia).
    destruct (lookup_lt_is_Some_2 chunks (i mod count)%nat) as [c Hcj]; [lia |].
    exists c. split; [done |]. rewrite (Hat _ _ _ Hcj).
    replace (i / count * count + i mod count)%nat with i; [done |].
    pose proof (Nat.div_mod i count). lia.
  - intros j k c x Hj Hk. pose proof (lookup_lt_Some _ _ _ Hj).
    split; [by rewrite <- (Hat _ _ _ Hj) |]. split.
    + rewrite Nat.add_comm, Nat.Div0.mod_add. apply Nat.mod_small. lia.
    + rewrite Nat.add_comm, Nat.div_add by lia. rewrite Nat.div_small by lia. done.
  - apply Forall_lookup. intros j c Hj ->.
    pose proof (lookup_lt_Some _ _ _ Hj).
    pose proof (Hat j 0%nat [] Hj) as H0. simpl in H0.
    symmetry in H0. apply lookup_ge_None_1 in H0. unfold count in *. lia.
  - done.
Qed.
End ChunksFacts.

Lemma get_chunks_round_robin_witness :
  ∃ chunks,
    get_chunks [10; 11; 12; 13; 14] 2 = Ok chunks ∧
    length chunks = 2%nat ∧
    (∀ (i : nat) x, [10; 11; 12; 13; 14] !! i = Some x →
       ∃ c, chunks !! (i mod 2)%nat = Some c ∧ c !! (i / 2)%nat = Some x) ∧
    (∀ (j k : nat) c x, chunks !! j = Some c → c !! k = Some x →
       [10; 11; 12; 13; 14] !! (k * 2 + j)%nat = Some x ∧
       ((k * 2 + j) mod 2 = j ∧ (k * 2 + j) / 2 = k)%nat) ∧
    Forall (λ c, c ≠ []) chunks ∧
    concat chunks ≡ₚ [10; 11; 12; 13; 14].
Proof.
  apply (get_chunks_round_robin [10; 11; 12; 13; 14] 2); [done | lia].
Defined.

(** ** The content cache and the fetcher *)

Lemma string_app_cons (x : ascii) (a b : string) :
  String x a +:+ b = String x (a +:+ b).
Proof. reflexivity. Qed.

Lemma string_app_nil_l (a : string) : "" +:+ a = a.
Proof. reflexivity. Qed.

Lemma string_app_assoc (a b c : string) : (a +:+ b) +:+ c = a +:+ b +:+ c.
Proof.
  induction a as [| x a IH]; [done |].
  by rewrite !string_app_cons, IH.
Qed.

Lemma string_app_nil_r (a : string) : a +:+ "" = a.
Proof.
  induction a as [| x a IH]; [done |].
  by rewrite string_app_cons, IH.
Qed.

Lemma hex_digit_is_hex (n : Z) : is_hex_digit (Sha1.hex_digit n) = true.
Proof. unfold Sha1.hex_digit. repeat case_match; reflexivity. Qed.

(** The digest is printed as 40 hexadecimal digits. *)
Lemma hex_digits_all_hex (n : nat) : ∀ x rest,
  Forall (λ c, is_hex_digit c = true) (list_ascii_of_string rest) →
  Forall (λ c, is_hex_digit c = true) (list_ascii_of_string (Sha1.hex_digits n x rest)).
Proof.
  induction n as [| n IH]; intros x rest Hrest; simpl; [done |].
  apply IH. simpl. constructor; [apply hex_digit_is_hex | done].
Qed.

Lemma hex_digits_length (n : nat) : ∀ x rest,
  String.length (Sha1.hex_digits n x rest) = (n + String.length rest)%nat.
Proof.
  induction n as [| n IH]; intros x rest; simpl; [done |].
  rewrite IH. simpl. lia.
Qed.

Lemma hexdigest_all_hex (s : string) :
  Forall (λ c, is_hex_digit c = true) (list_ascii_of_string (Sha1.hexdigest s)).
Proof.
  unfold Sha1.hexdigest. destruct (Sha1.digest _) as [[[[h0 h1] h2] h3] h4].
  repeat apply hex_digits_all_hex. constructor.
Qed.

Lemma hexdigest_length (s : string) : String.length (Sha1.hexdigest s) = 40%nat.
Proof.
  unfold Sha1.hexdigest. destruct (Sha1.digest _) as [[[[h0 h1] h2] h3] h4].
  by rewrite !hex_digits_length.
Qed.

Lemma hash_url_head (url : string) :
  ∃ c rest, hash_url url = String c rest ∧ is_hex_digit c = true.
Proof.
  pose proof (hexdigest_all_hex url) as Hhex.
  pose proof (hexdigest_length url) as Hlen.
  unfold hash_url. destruct (Sha1.hexdigest url) as [| c rest]; [done |].
  exists c, rest. split; [done |]. by inversion Hhex.
Qed.

Lemma get_html_path_eq (url : string) :
  get_html_path url = "data/html/" +:+ hash_url url +:+ ".html".
Proof.
  unfold get_html_path, get_html_filename.
  destruct (hash_url_head url) as (c & rest & -> & Hc).
  unfold path_join at 1. rewrite string_app_cons.
  unfold startswith. cbn [String.prefix].
  destruct (ascii_dec "/" c) as [<- | _]; [done |].
  reflexivity.
Qed.

Lemma get_html_path_not_index (url : string) : get_html_path url ≠ HTML_LIST.
Proof.
  rewrite get_html_path_eq.
  destruct (hash_url_head url) as (c & rest & -> & Hc).
  intros E.
  assert (E' : String c rest +:+ ".html" = "list.txt").
  { apply (inj (String.append "data/html/")). exact E. }
  rewrite string_app_cons in E'. injection E' as -> _. discriminate Hc.
Qed.

(** The files after [dump_html]: the blob is written first, then the index
    gets its line. *)
Lemma dump_html_files (url : string) (html : option string) (w : World) :
  files (dump_html url html w) =
    <[HTML_LIST := default "" (files w !! HTML_LIST) +:+ index_line url]>
      (<[get_html_path url := default "" html]> (files w)).
Proof.
  unfold dump_html, update_html_cache, update_urls_cache, set_files,
    file_append, file_write. simpl.
  rewrite lookup_insert_ne by apply get_html_path_not_index.
  by destruct html.
Qed.

Lemma dump_html_requests (url : string) (html : option string) (w : World) :
  requests (dump_html url html w) = requests w.
Proof. reflexivity. Qed.

(** C8: [dump_html url html] stores the blob ([html], or the empty text for
    [None]) at [data/html/<hex SHA-1 of the UTF-8 bytes of url>.html] and
    appends the one line [<key> TAB <url> NEWLINE] to the index
    [data/html/list.txt]; no other file changes and no request is made. *)
Theorem dump_html_blob_and_index_line (url : string) (html : option string) (w : World) :
  let key := Sha1.hexdigest url in
  let path := "data/html/" +:+ key +:+ ".html" in
  let w' := dump_html url html w in
  get_html_path url = path ∧
  files w' !! path = Some (default "" html) ∧
  files w' !! "data/html/list.txt" =
    Some (default "" (files w !! "data/html/list.txt") +:+ key +:+ TAB +:+ url +:+ NEWLINE) ∧
  (∀ p, p ≠ path → p ≠ "data/html/list.txt" → files w' !! p = files w !! p) ∧
  requests w' = requests w.
Proof.
  intros key path w'.
  pose proof (get_html_path_eq url) as Hpath. fold key path in Hpath.
  pose proof (get_html_path_not_index url) as Hne. rewrite Hpath in Hne.
  subst w'. rewrite dump_html_files, Hpath.
  change HTML_LIST with "data/html/list.txt" in *.
  split; [done |]. split; [| split; [| split]].
  - rewrite lookup_insert_ne by done. by rewrite lookup_insert_eq.
  - by rewrite lookup_insert_eq.
  - intros p Hp1 Hp2. by rewrite !lookup_insert_ne.
  - apply dump_html_requests.
Qed.

Example dump_html_none :
  let w := dump_html "u" None (fresh_world None) in
  files w !! "data/html/51e69892ab49df85c6230ccc57f8e1d1606caccc.html" = Some "" ∧
  files w !! "data/html/list.txt" =
    Some ("51e69892ab49df85c6230ccc57f8e1d1606caccc" +:+ TAB +:+ "u" +:+ NEWLINE).
Proof. vm_compute. done. Qed.

(** C1 fails on the code: a second [fetch_url] of the root URL issues a
    second GET although the first call cached it. *)
Lemma fetch_url_fetches_again :
  ¬ second_fetch_is_free ROOT_URL (fresh_world (Some "<html></html>")).
Proof. intros [_ H]. vm_compute in H. discriminate H. Qed.

Lemma cache_has_dump_html (url : string) (html : option string) (w : World) :
  cache_has url (dump_html url html w).
Proof.
  unfold cache_has. rewrite dump_html_files. split.
  - rewrite lookup_insert_ne by (apply not_eq_sym, get_html_path_not_index).
    rewrite lookup_insert_eq. by eexists.
  - rewrite lookup_insert_eq. simpl.
    exists (default "" (files w !! HTML_LIST)), "".
    by rewrite string_app_nil_r.
Qed.

(** An entry of the cache survives every later [dump_html]. *)
Lemma cache_has_preserved (url url' : string) (html : option string) (w : World) :
  cache_has url w → cache_has url (dump_html url' html w).
Proof.
  intros [[blob Hblob] (pre & post & Hidx)].
  unfold cache_has. rewrite dump_html_files. split.
  - rewrite lookup_insert_ne by (apply not_eq_sym, get_html_path_not_index).
    rewrite lookup_insert. case_decide; [by eexists | by rewrite Hblob].
  - rewrite lookup_insert_eq. simpl. rewrite Hidx.
    exists pre, (post +:+ index_line url').
    by rewrite !string_app_assoc.
Qed.

(** C1, amended: after [fetch_url url] the cache holds [url], and stays so;
    every call of [fetch_url] issues exactly one GET for its URL, whether
    the cache holds it or not. *)
Theorem fetch_url_caches_and_always_requests (url : string) (w : World) :
  let w1 := fetch_url url w in
  let w2 := fetch_url url w1 in
  cache_has url w1 ∧ requests w1 = requests w ++ [url] ∧
  cache_has url w2 ∧ requests w2 = requests w1 ++ [url].
Proof.
  intros w1 w2.
  assert (Hreq : ∀ u w0, requests (fetch_url u w0) = requests w0 ++ [u]).
  { intros u w0. unfold fetch_url, curl_url. by rewrite dump_html_requests. }
  repeat split; try apply Hreq; apply cache_has_dump_html.
Qed.

(** ** The region tree builder *)

Section RegionTreeFacts.
Context `{Builtins}.

Lemma parse_region_row_parent parent item r :
  parse_region_row parent item = Ok (Some r) → region_parent r = parent.
Proof.
  unfold parse_region_row. intros Hrow.
  destruct (find "a" None (node item)) as [link |]; [| done].
  repeat (match type of Hrow with
          | context [mbind _ ?x] => destruct x; simpl in Hrow; try done
          end).
  by injection Hrow as <-.
Qed.

Lemma parse_region_rows_parent parent items :
  Forall (λ r, region_parent r = parent) (yielded (parse_region_rows parent items)).
Proof.
  induction items as [| item items IH]; simpl; [constructor |].
  destruct (parse_region_row parent item) as [[r |] | e] eqn:Hrow; simpl.
  - constructor; [by eapply parse_region_row_parent | done].
  - done.
  - constructor.
Qed.

(** The regions of the root page have no parent; the children listed on the
    page of a region have that region as their parent. *)
Lemma load_raw_regions_parent w :
  Forall (λ r, region_parent r = None) (yielded (load_raw_regions w)).
Proof.
  unfold load_raw_regions. destruct (load_html ROOT_URL w); simpl; [| constructor].
  apply parse_region_rows_parent.
Qed.

Lemma load_subregions_parent region id w subregions :
  load_subregions region id w = Ok subregions →
  Forall (λ r, region_parent r = Some region) subregions.
Proof.
  unfold load_subregions. intros Hload.
  destruct (attr _ _) as [url |]; simpl in Hload; [| done].
  destruct (load_html url w) as [html |]; simpl in Hload; [| done].
  unfold list_of_gen in Hload.
  destruct (raised _) eqn:Hr; [done |]. injection Hload as <-.
  apply parse_region_rows_parent.
Qed.

Lemma ancestors_child r p : region_parent r = Some p → ancestors r = p :: ancestors p.
Proof. intros Hp. destruct r. simpl in *. by rewrite Hp. Qed.

Lemma load_raw_subregions_loop_yielded regions stop w :
  raised (load_raw_subregions_loop regions stop w) = None →
  yielded (load_raw_subregions_loop regions stop w) = (regions ≫= expand w) ++ yielded stop.
Proof.
  induction regions as [| region regions IH]; simpl; [done |].
  unfold expand at 1.
  destruct (region_id region) as [id |]; simpl.
  - destruct (load_subregions region id w) as [[| s subs] | e]; simpl; intros Hr.
    + by rewrite IH.
    + by rewrite IH, <- app_assoc.
    + done.
  - intros Hr. by rewrite IH.
Qed.

Lemma load_raw_subregions_loop_elem regions stop w r :
  r ∈ yielded (load_raw_subregions_loop regions stop w) →
  r ∈ yielded stop ∨
  (r ∈ regions ∧ is_leaf w r) ∨
  (∃ p id subregions, p ∈ regions ∧ region_id p = Some id ∧
     load_subregions p id w = Ok subregions ∧ subregions ≠ [] ∧ r ∈ subregions).
Proof.
  induction regions as [| region regions IH]; simpl; [by left |].
  assert (Hrest : r ∈ yielded (load_raw_subregions_loop regions stop w) →
    r ∈ yielded stop ∨ (r ∈ region :: regions ∧ is_leaf w r) ∨
    (∃ p id subregions, p ∈ region :: regions ∧ region_id p = Some id ∧
       load_subregions p id w = Ok subregions ∧ subregions ≠ [] ∧ r ∈ subregions)).
  { intros Hin. destruct (IH Hin) as [? | [[? ?] | (p & id & subs & ? & ?)]].
    - by left.
    - right. left. split; [by right | done].
    - right. right. exists p, id, subs. split; [by right | done]. }
  assert (Hleaf : is_leaf w region → r = region →
    r ∈ yielded stop ∨ (r ∈ region :: regions ∧ is_leaf w r) ∨
    (∃ p id subregions, p ∈ region :: regions ∧ region_id p = Some id ∧
       load_subregions p id w = Ok subregions ∧ subregions ≠ [] ∧ r ∈ subregions)).
  { intros Hl ->. right. left. split; [by left | done]. }
  destruct (region_id region) as [id |] eqn:Hid; simpl.
  - destruct (load_subregions region id w) as [[| s subs] | e] eqn:Hload; simpl.
    + intros [-> | Hin]%elem_of_cons; [| by apply Hrest].
      apply Hleaf; [| done]. unfold is_leaf. by rewrite Hid.
    + intros [-> | [Hin | Hin]%elem_of_app]%elem_of_cons; [| | by apply Hrest].
      * right. right. exists region, id, (s :: subs).
        repeat split; [by left | done | done | done | by left].
      * right. right. exists region, id, (s :: subs).
        repeat split; [by left | done | done | done | by right].
    + intros Hin. by apply elem_of_nil in Hin.
  - intros [-> | Hin]%elem_of_cons; [| by apply Hrest].
    apply Hleaf; [| done]. unfold is_leaf. by rewrite Hid.
Qed.

(** C2, amended: one pass of [load_raw_subregions] goes one level down. A
    region it yields is either a region of its input that is a leaf, or a
    child found on the page of a region of its input that is not a leaf,
    with that region as its parent and so with its whole chain of
    ancestors; when no probe raises, the output is the input with every
    region that has children replaced by its children, which are yielded
    as they are found, without being probed in the same pass; a pass over
    leaves yields them unchanged. *)
Theorem load_raw_subregions_one_level (regions : list RegionRecord) (w : World) :
  let out := load_raw_subregions (gen_done regions) w in
  (∀ r, r ∈ yielded out →
     (r ∈ regions ∧ is_leaf w r) ∨
     (∃ p id subregions, p ∈ regions ∧ region_id p = Some id ∧
        load_subregions p id w = Ok subregions ∧ r ∈ subregions ∧
        ¬ is_leaf w p ∧
        region_parent r = Some p ∧ ancestors r = p :: ancestors p)) ∧
  (raised out = None → yielded out = regions ≫= expand w) ∧
  (Forall (is_leaf w) regions → out = gen_done regions).
Proof.
  intros out. subst out. unfold load_raw_subregions. simpl. split; [| split].
  - intros r Hin.
    apply load_raw_subregions_loop_elem in Hin
      as [Hin | [? | (p & id & subs & Hp & Hid & Hload & Hne & Hin)]].
    + by apply elem_of_nil in Hin.
    + by left.
    + right. exists p, id, subs.
      pose proof (load_subregions_parent _ _ _ _ Hload) as Hpar.
      rewrite Forall_forall in Hpar. specialize (Hpar r Hin).
      repeat split; try done.
      * unfold is_leaf. rewrite Hid, Hload. intros E. by injection E as ->.
      * by apply ancestors_child.
  - intros Hr. rewrite load_raw_subregions_loop_yielded by done.
    simpl. by rewrite app_nil_r.
  - induction 1 as [| region regions Hleaf _ IH]; simpl; [done |].
    unfold is_leaf in Hleaf.
    destruct (region_id region) as [id |]; simpl.
    + rewrite Hleaf. simpl. by rewrite IH.
    + by rewrite IH.
Qed.

End RegionTreeFacts.

(** C2 fails on the code: below the root page of [Sample.deep_world] lie
    region 1, its child 2 and the child 3 of that one; the pass over the
    regions of the root page yields region 2, whose page lists a child. *)
Lemma load_raw_subregions_yields_inner_region :
  ¬ builder_yields_only_leaves (H:=Sample.builtins) Sample.deep_world.
Proof.
  intros Hleaves. specialize (Hleaves Sample.raion).
  assert (Hin : Sample.raion
                ∈ yielded (load_raw_subregions (H:=Sample.builtins)
                    (load_raw_regions (H:=Sample.builtins) Sample.deep_world)
                    Sample.deep_world)).
  { vm_compute. apply list_elem_of_here. }
  specialize (Hleaves Hin). vm_compute in Hleaves. discriminate Hleaves.
Qed.

(** In that world the second pass reaches the leaf, and a third pass
    changes nothing. *)
Example load_raw_subregions_passes :
  let pass g := load_raw_subregions (H:=Sample.builtins) g Sample.deep_world in
  let roots := load_raw_regions (H:=Sample.builtins) Sample.deep_world in
  region_id <$> yielded roots = [Some 1] ∧
  region_id <$> yielded (pass roots) = [Some 2] ∧
  pass (pass roots) = gen_done [Sample.poselok] ∧
  pass (pass (pass roots)) = pass (pass roots).
Proof. vm_compute. done. Qed.

(** ** Region persistence *)

Lemma dump_regions_loop_no_parent regions : ∀ parents leafs,
  (∃ r, r ∈ regions ∧ region_parent r = None) →
  dump_regions_loop regions parents leafs = Raise AttributeError.
Proof.
  induction regions as [| region regions IH]; intros parents leafs (r & Hin & Hr).
  - by apply elem_of_nil in Hin.
  - destruct region as [parent name id buildings]. simpl.
    destruct parent as [p |]; simpl; [| done].
    apply IH. exists r. split; [| done].
    apply elem_of_cons in Hin as [-> | Hin]; [done | done].
Qed.

(** C10: [dump_regions] needs every leaf to have a parent: when a leaf has
    none, reading [parent.id] raises [AttributeError] and nothing is
    written. *)
Theorem dump_regions_needs_parent (regions : list RegionRecord) (w : World) :
  (∃ r, r ∈ regions ∧ region_parent r = None) →
  dump_regions regions w = Raise AttributeError.
Proof.
  intros Hr. unfold dump_regions.
  by rewrite dump_regions_loop_no_parent.
Qed.

(** The builder does produce such a leaf: a label of the root page, whose
    link has no [href], is yielded with no id and no parent. *)
Lemma dump_regions_needs_parent_witness :
  let leaves :=
    yielded (load_raw_subregions (H:=Sample.builtins)
      (load_raw_regions (H:=Sample.builtins) Sample.label_world) Sample.label_world) in
  leaves = [mkRegionRecord None "Прочие" None 7] ∧
  dump_regions leaves Sample.label_world = Raise AttributeError.
Proof.
  split; [by vm_compute |].
  apply (dump_regions_needs_parent _ Sample.label_world).
  exists (mkRegionRecord None "Прочие" None 7).
  split; [vm_compute; apply list_elem_of_here | reflexivity].
Defined.

Lemma ancestors_parent a r p :
  a ∈ ancestors r → region_parent a = Some p → p ∈ ancestors r.
Proof.
  induction r as [name id buildings | q name id buildings IH] using RegionRecord_chain_ind;
    simpl; intros Hin Hp.
  - by apply elem_of_nil in Hin.
  - apply elem_of_cons in Hin as [-> | Hin].
    + right. destruct q. simpl in *. rewrite Hp. by left.
    + right. by apply IH.
Qed.

Lemma depth_of_ancestor a r : a ∈ ancestors r → (depth_of a < depth_of r)%nat.
Proof.
  unfold depth_of.
  induction r as [name id buildings | q name id buildings IH] using RegionRecord_chain_ind;
    simpl; intros Hin.
  - by apply elem_of_nil in Hin.
  - apply elem_of_cons in Hin as [-> | Hin]; [lia |].
    specialize (IH Hin). lia.
Qed.

Section Table.
(** The regions [known] carry ids that name one region each. *)
Variable known : list RegionRecord.
Hypothesis known_ids : ∀ a, a ∈ known → region_id a ≠ None.
Hypothesis known_inj : ∀ a b, a ∈ known → b ∈ known → region_id a = region_id b → a = b.
Hypothesis known_closed : ∀ a p, a ∈ known → region_parent a = Some p → p ∈ known.

Lemma table_of_insert written parents b :
  b ∈ known → written ⊆ known → table_of known written parents →
  table_of known (b :: written) (<[region_id b := entry_of b]> parents).
Proof.
  intros Hb Hsub [Hrows Hwritten]. split.
  - intros k v. rewrite lookup_insert. case_decide as Hk.
    + intros [= <-]. by exists b.
    + apply Hrows.
  - intros a Ha. rewrite lookup_insert. case_decide as Hk.
    + f_equal. f_equal. apply known_inj; [done | | done].
      apply elem_of_cons in Ha as [-> | Ha]; [done | by apply Hsub].
    + apply elem_of_cons in Ha as [-> | Ha]; [done | by apply Hwritten].
Qed.

Lemma table_of_dump_ancestors p : ∀ written parents,
  p ∈ known → written ⊆ known → table_of known written parents →
  ∃ written', written' ⊆ known ∧ (p :: ancestors p) ++ written ⊆ written' ∧
    table_of known written' (dump_ancestors p parents).
Proof.
  induction p as [name id buildings | q name id buildings IH] using RegionRecord_chain_ind;
    intros written parents Hp Hsub Htab.
  - exists (mkRegionRecord None name id buildings :: written). split; [| split].
    + intros a [-> | Ha]%elem_of_cons; [done | by apply Hsub].
    + done.
    + by apply (table_of_insert written parents (mkRegionRecord None name id buildings)).
  - pose proof (table_of_insert written parents _ Hp Hsub Htab) as Htab'.
    assert (Hq : q ∈ known) by (by eapply known_closed).
    assert (Hsub2 : mkRegionRecord (Some q) name id buildings :: written ⊆ known).
    { intros a [-> | Ha]%elem_of_cons; [done | by apply Hsub]. }
    destruct (IH _ _ Hq Hsub2 Htab') as (written' & Hsub' & Hall & Htab'').
    exists written'. split; [done |]. split; [| done].
    intros a Ha. apply Hall. simpl in Ha.
    repeat (rewrite elem_of_cons in Ha || rewrite elem_of_app in Ha).
    repeat (rewrite elem_of_cons || rewrite elem_of_app).
    tauto.
Qed.

Lemma table_of_weaken written written' parents :
  written ⊆ written' → table_of known written' parents → table_of known written parents.
Proof. intros Hsub [Hrows Hwritten]. split; [done |]. intros a Ha. by apply Hwritten, Hsub. Qed.

Lemma load_parent_region_known parents depth : ∀ a,
  table_of known known parents → a ∈ known → (depth_of a < depth)%nat →
  load_parent_region depth (region_id a) parents = Ok a.
Proof.
  intros a [Hrows Hwritten]. revert a.
  induction depth as [| depth IH]; intros a Ha Hdepth; [lia |].
  simpl. rewrite (Hwritten a Ha). unfold entry_of.
  destruct a as [[p |] name id buildings]; simpl; [| done].
  assert (Hp : p ∈ known) by (by eapply known_closed).
  destruct (region_id p) as [pid |] eqn:Hpid; [| by destruct (known_ids p Hp)].
  rewrite <- Hpid. rewrite IH; [done | done |].
  unfold depth_of in *. simpl in Hdepth. destruct p; simpl in *. lia.
Qed.

Lemma dump_regions_loop_known regions : ∀ written parents leafs,
  (∀ r, r ∈ regions → ∃ p, region_parent r = Some p ∧ p ∈ known) →
  written ⊆ known → table_of known written parents →
  ∃ written' parents',
    dump_regions_loop regions parents leafs = Ok (parents', leafs ++ (leaf_row <$> regions)) ∧
    written' ⊆ known ∧ all_ancestors regions ++ written ⊆ written' ∧
    table_of known written' parents'.
Proof.
  induction regions as [| region regions IH]; intros written parents leafs Hpar Hsub Htab.
  - exists written, parents. simpl. by rewrite app_nil_r.
  - destruct (Hpar region) as (p & Hp & Hpk); [by left |].
    destruct region as [parent name id buildings]. simpl in Hp. subst parent.
    destruct (table_of_dump_ancestors p written parents Hpk Hsub Htab)
      as (written1 & Hsub1 & Hall1 & Htab1).
    destruct (IH written1 (dump_ancestors p parents)
                (leafs ++ [(region_id p, name, id, buildings)]))
      as (written' & parents' & Hrun & Hsub' & Hall' & Htab'); [| done | done |].
    { intros r Hr. apply Hpar. by right. }
    exists written', parents'. split; [| split; [done | split; [| done]]].
    + simpl. rewrite Hrun. by rewrite <- app_assoc.
    + intros a Ha. apply Hall'. unfold all_ancestors in *.
      rewrite bind_cons in Ha. simpl in Ha.
      repeat (rewrite elem_of_cons in Ha || rewrite elem_of_app in Ha).
      rewrite elem_of_app.
      assert (Hp1 : ∀ b, b = p ∨ b ∈ ancestors p ∨ b ∈ written → b ∈ written1).
      { intros b Hb. apply Hall1.
        repeat (rewrite elem_of_cons || rewrite elem_of_app). tauto. }
      intuition auto.
Qed.

Lemma load_regions_loop_known parents depth regions :
  table_of known known parents →
  (∀ r, r ∈ regions → ∃ p, region_parent r = Some p ∧ p ∈ known) →
  Forall (λ r, (depth_of r ≤ depth)%nat) regions →
  load_regions_loop depth parents (leaf_row <$> regions) = gen_done regions.
Proof.
  intros Htab. induction regions as [| region regions IH]; intros Hpar Hdepth; [done |].
  destruct (Hpar region) as (p & Hp & Hpk); [by left |].
  apply Forall_cons in Hdepth as [Hd Hdepth].
  destruct region as [parent name id buildings]. simpl in Hp. subst parent.
  rewrite fmap_cons. cbn [load_regions_loop leaf_row region_parent region_name
    region_id region_buildings].
  rewrite load_parent_region_known; [| done | done |]; last first.
  { unfold depth_of in *. simpl in Hd. destruct p; simpl in *. lia. }
  cbn [gen_bind]. rewrite IH; [done | | done].
  intros r Hr. apply Hpar. by right.
Qed.

End Table.

Lemma table_of_empty known : table_of known [] ∅.
Proof. split; [intros k v; by rewrite lookup_empty | intros a Ha; by apply elem_of_nil in Ha]. Qed.

Lemma all_ancestors_closed regions a p :
  a ∈ all_ancestors regions → region_parent a = Some p → p ∈ all_ancestors regions.
Proof.
  unfold all_ancestors. rewrite !list_elem_of_bind.
  intros (r & Ha & Hr) Hp. exists r. split; [by eapply ancestors_parent | done].
Qed.

Lemma parent_in_all_ancestors regions r p :
  r ∈ regions → region_parent r = Some p → p ∈ all_ancestors regions.
Proof.
  intros Hr Hp. unfold all_ancestors. rewrite list_elem_of_bind.
  exists r. split; [| done]. destruct r. simpl in *. rewrite Hp. by left.
Qed.

(** What [dump_regions] writes for a forest with consistent ids, and what
    [load_regions] reads back from it. *)
Lemma dump_load_regions regions depth w :
  id_consistent regions →
  Forall (λ r, (depth_of r ≤ depth)%nat) regions →
  ∃ parents,
    dump_regions regions w = Ok (dump_regions_json (parents, leaf_row <$> regions) w) ∧
    load_regions depth (dump_regions_json (parents, leaf_row <$> regions) w)
      = gen_done regions.
Proof.
  intros (Hpar & Hids & Hinj) Hdepth.
  set (known := all_ancestors regions).
  assert (Hparents : ∀ r, r ∈ regions → ∃ p, region_parent r = Some p ∧ p ∈ known).
  { intros r Hr. destruct (region_parent r) as [p |] eqn:Hp; [| by destruct (Hpar r Hr)].
    exists p. split; [done | by eapply parent_in_all_ancestors]. }
  destruct (dump_regions_loop_known known Hinj (all_ancestors_closed regions)
              regions [] ∅ [] Hparents) as (written' & parents & Hrun & Hsub & Hall & Htab).
  { intros a Ha. by apply elem_of_nil in Ha. }
  { apply table_of_empty. }
  assert (Htab' : table_of known known parents).
  { eapply table_of_weaken; [| exact Htab]. intros a Ha. apply Hall.
    rewrite elem_of_app. by left. }
  exists parents. split.
  - unfold dump_regions. by rewrite Hrun.
  - unfold load_regions, load_regions_json. simpl.
    assert (Hnone : parents !! None = None).
    { destruct (parents !! None) as [v |] eqn:E; [| done].
      destruct Htab as [Hrows _]. destruct (Hrows None v E) as (a & Ha & Hid & _).
      by destruct (Hids a Ha). }
    unfold int_keys. rewrite Hnone. simpl.
    by apply (load_regions_loop_known known Hids (all_ancestors_closed regions)).
Qed.

(** Starting from regions: for the leaves of a forest with consistent
    ids, the store [dump_regions] writes is read back by [load_regions] as
    the same regions, value for value, and saving what was loaded writes
    the same parent table and leaf list again. [depth] is the recursion
    depth at hand, which has to cover the longest chain of ancestors. *)
Theorem regions_store_round_trip (regions : list RegionRecord) (depth : nat) (w : World) :
  id_consistent regions →
  Forall (λ r, (depth_of r ≤ depth)%nat) regions →
  ∃ store,
    dump_regions regions w = Ok store ∧
    load_regions depth store = gen_done regions ∧
    dump_regions (yielded (load_regions depth store)) store = Ok store ∧
    ∃ parents, regions_json store = Some (parents, leaf_row <$> regions).
Proof.
  intros Hcons Hdepth.
  destruct (dump_load_regions regions depth w Hcons Hdepth) as (parents & Hdump & Hload).
  eexists. split; [exact Hdump |]. split; [exact Hload |]. split; [| by eexists].
  rewrite Hload. simpl.
  destruct (dump_load_regions regions depth
              (dump_regions_json (parents, leaf_row <$> regions) w) Hcons Hdepth)
    as (parents' & Hdump' & _).
  rewrite Hdump'. unfold dump_regions in Hdump, Hdump'.
  destruct (dump_regions_loop regions ∅ []) as [data |]; [| done].
  simpl in *. injection Hdump as Hdump. injection Hdump' as Hdump'.
  f_equal. unfold dump_regions_json in *. simpl in *. congruence.
Qed.

Ltac elem_cases H :=
  repeat (apply elem_of_cons in H as [-> | H]); [.. | by apply elem_of_nil in H].

Lemma regions_store_round_trip_witness :
  ∃ store,
    dump_regions Sample.leaves (fresh_world None) = Ok store ∧
    load_regions 2 store = gen_done Sample.leaves ∧
    dump_regions (yielded (load_regions 2 store)) store = Ok store ∧
    ∃ parents, regions_json store = Some (parents, leaf_row <$> Sample.leaves).
Proof.
  apply (regions_store_round_trip Sample.leaves 2 (fresh_world None)).
  - split; [| split].
    + intros r Hr. unfold Sample.leaves in Hr. elem_cases Hr; done.
    + intros a Ha. vm_compute in Ha. elem_cases Ha; done.
    + intros a b Ha Hb. vm_compute in Ha, Hb.
      elem_cases Ha; elem_cases Hb; intros E; first [reflexivity | discriminate E].
  - unfold Sample.leaves. repeat constructor.
Defined.

(** Without ids that name one region each the round trip is lost: the two
    parents of [Sample.clashing_leaves] share the id 1, the later one takes
    the row of the table, and the row of the region 2 is not written
    again. *)
Example round_trip_needs_consistent_ids :
  ∃ store store',
    dump_regions Sample.clashing_leaves (fresh_world None) = Ok store ∧
    dump_regions (yielded (load_regions 3 store)) store = Ok store' ∧
    raised (load_regions 3 store) = None ∧
    (fst <$> regions_json store) ≫= (.!! Some 2) = Some (None, "Край", 30) ∧
    (fst <$> regions_json store') ≫= (.!! Some 2) = None.
Proof. do 2 eexists. vm_compute. repeat split; reflexivity. Qed.

(** ** The listing parser *)

Section ListingFacts.
Context `{Builtins}.

(** The guarded case: on a page without the [div.grid],
    [parse_region_list] for a region yields nothing, does not raise, and
    writes the line [Unable to parse region: <id>] to stderr; nothing else
    changes. *)
Theorem parse_region_list_without_table (html : string) (region : RegionRecord) (w : World) :
  find "div" (Some "grid") (get_soup html) = None →
  let '(records, w') := parse_region_list html (Some region) w in
  records = gen_done [] ∧
  stderr w' = stderr w +:+ "Unable to parse region: " +:+ str_int (region_id region) +:+ NEWLINE ∧
  files w' = files w ∧ requests w' = requests w.
Proof.
  intros Habsent. unfold parse_region_list. rewrite Habsent. simpl.
  repeat split. by rewrite !string_app_assoc.
Qed.

(** Without a region to name, the same page makes [region.id] raise
    [AttributeError] after the first words of the line are written. *)
Lemma parse_region_list_needs_region (html : string) (w : World) :
  find "div" (Some "grid") (get_soup html) = None →
  parse_region_list html None w =
    (gen_raise AttributeError, write_stderr "Unable to parse region:" w).
Proof. intros Habsent. unfold parse_region_list. by rewrite Habsent. Qed.

(** With the [div.grid] present but no [table] inside it,
    [table.find_all] is called on [None] and raises [AttributeError]. *)
Lemma parse_region_list_grid_without_table (html : string)
    (region : option RegionRecord) (w : World) (grid : Node) :
  find "div" (Some "grid") (get_soup html) = Some grid →
  find "table" None grid = None →
  parse_region_list html region w = (gen_raise AttributeError, w).
Proof.
  intros Hgrid Htable. unfold parse_region_list, data_rows.
  by rewrite Hgrid, Htable.
Qed.

(** The records yielded are those of the rows, in order, up to the first
    row that raises. *)
Lemma parse_list_rows_lookup region rows (i : nat) record :
  yielded (parse_list_rows region rows) !! i = Some record →
  ∃ row, rows !! i = Some row ∧ parse_list_row region row = Ok record.
Proof.
  revert i. induction rows as [| row rows IH]; intros i; simpl; [done |].
  destruct (parse_list_row region row) as [r | e] eqn:Hrow; simpl; [| done].
  destruct i as [| i]; simpl.
  - intros [= <-]. by exists row.
  - apply IH.
Qed.

Lemma parse_list_rows_all region rows records :
  Forall2 (λ row record, parse_list_row region row = Ok record) rows records →
  parse_list_rows region rows = gen_done records.
Proof.
  induction 1 as [| row record rows records Hrow _ IH]; simpl; [done |].
  rewrite Hrow. simpl. by rewrite IH.
Qed.

Lemma bind_Ok {A B} (r : Result A) (k : A → Result B) (b : B) :
  r ≫= k = Ok b → ∃ a, r = Ok a ∧ k a = Ok b.
Proof. destruct r as [a | e]; simpl; [by exists a | done]. Qed.

(** A cell that holds either a sentinel text or a value to read. *)
Lemma sentinel_or_value {A} (read : string → Result A) (sentinel cell : string)
    (v : option A) :
  (if bool_decide (cell = sentinel) then Ok None else Some <$> read cell) = Ok v →
  (v = None ↔ cell = sentinel) ∧ (cell ≠ sentinel → Some <$> read cell = Ok v).
Proof.
  case_bool_decide as Hcell.
  - intros [= <-]. done.
  - intros Hread. split; [| done].
    destruct (read cell) as [a | e]; simpl in Hread; [| done].
    injection Hread as <-. done.
Qed.

Lemma sentinel_or_value_total {A} (read : string → Result A) (sentinel cell : string) :
  cell = sentinel ∨ (∃ a, read cell = Ok a) →
  ∃ v, (if bool_decide (cell = sentinel) then Ok None else Some <$> read cell) = Ok v.
Proof.
  intros Hcell. case_bool_decide as Hs; [by exists None |].
  destruct Hcell as [? | [a ->]]; [done | by exists (Some a)].
Qed.

(** A row with four cells and a profile link whose numbers can be read is
    parsed into a record. *)
Lemma parse_list_row_total region row href address year area company digits id :
  row_cells row = Ok (href, address, year, area, company) →
  search_profile_id href = Some digits → int_of_text digits = Some id →
  year = "н.д." ∨ is_Some (int_of_text year) →
  area = "н.д." ∨ is_Some (float_of_text (remove_spaces area)) →
  ∃ record, parse_list_row region row = Ok record.
Proof.
  intros Hcells Hsearch Hid Hyear Harea.
  unfold parse_list_row. rewrite Hcells. simpl. rewrite Hsearch. simpl.
  assert (py_int digits = Ok id) as -> by (unfold py_int; by rewrite Hid).
  simpl.
  destruct (sentinel_or_value_total py_int NO_DATA year) as [y ->].
  { destruct Hyear as [? | [z Hz]]; [by left | right].
    exists z. unfold py_int. by rewrite Hz. }
  destruct (sentinel_or_value_total parse_reforma_float NO_DATA area) as [a ->].
  { destruct Harea as [? | [z Hz]]; [by left | right].
    exists z. unfold parse_reforma_float, py_float. by rewrite Hz. }
  simpl. by eexists.
Qed.

(** C7: a record that [parse_region_list] yields comes from a data row of
    the table, and its fields are normalized from the texts of the cells
    of that row: the year is [None] exactly for the text "н.д." and the
    integer read from the text otherwise; the area is [None] exactly for
    "н.д." and otherwise the float read from the text without its spaces;
    the company is [None] exactly for "Не заполнено" and the text
    otherwise. *)
Theorem parse_region_list_normalizes (html : string) (region : option RegionRecord)
    (w : World) (i : nat) (record : RegionListRecord) :
  yielded (fst (parse_region_list html region w)) !! i = Some record →
  ∃ table rows row href address year area company,
    find "div" (Some "grid") (get_soup html) = Some table ∧
    data_rows table = Ok rows ∧ rows !! i = Some row ∧
    row_cells row = Ok (href, address, year, area, company) ∧
    record_region record = region ∧
    record_address record = address ∧
    (record_year record = None ↔ year = "н.д.") ∧
    (year ≠ "н.д." → Some <$> py_int year = Ok (record_year record)) ∧
    (record_area record = None ↔ area = "н.д.") ∧
    (area ≠ "н.д." → Some <$> py_float (remove_spaces area) = Ok (record_area record)) ∧
    (record_company record = None ↔ company = "Не заполнено") ∧
    (company ≠ "Не заполнено" → record_company record = Some company).
Proof.
  unfold parse_region_list.
  destruct (find "div" (Some "grid") (get_soup html)) as [table |]; last first.
  { destruct region; simpl; intros Hi; by rewrite lookup_nil in Hi. }
  simpl. destruct (data_rows table) as [rows | e] eqn:Hrows; simpl; [| by rewrite lookup_nil].
  intros (row & Hrow & Hparse)%parse_list_rows_lookup.
  unfold parse_list_row in Hparse.
  destruct (row_cells row) as [[[[[href address] year] area] company] | e] eqn:Hcells;
    simpl in Hparse; [| done].
  apply bind_Ok in Hparse as (digits & _ & Hparse).
  apply bind_Ok in Hparse as (id & _ & Hparse).
  apply bind_Ok in Hparse as (y & Hyear & Hparse).
  apply bind_Ok in Hparse as (a & Harea & Hparse).
  injection Hparse as <-. simpl.
  apply sentinel_or_value in Hyear as [Hy1 Hy2].
  apply (sentinel_or_value parse_reforma_float) in Harea as [Ha1 Ha2].
  exists table, rows, row, href, address, year, area, company.
  do 6 (split; [done |]). split; [done |]. split; [done |]. split; [done |].
  unfold NOT_FILLED. case_bool_decide; done.
Qed.

End ListingFacts.

Lemma parse_region_list_without_table_witness :
  let '(records, w') :=
    parse_region_list (H:=Sample.builtins) Sample.no_table_html (Some Sample.raion)
      (fresh_world None) in
  records = gen_done [] ∧
  stderr w' = stderr (fresh_world None) +:+ "Unable to parse region: " +:+
              str_int (region_id Sample.raion) +:+ NEWLINE ∧
  files w' = files (fresh_world None) ∧ requests w' = requests (fresh_world None).
Proof.
  apply (parse_region_list_without_table (H:=Sample.builtins) Sample.no_table_html
           Sample.raion (fresh_world None)).
  vm_compute. reflexivity.
Defined.

Example no_table_stderr_sample :
  stderr (snd (parse_region_list (H:=Sample.builtins) Sample.no_table_html
                 (Some Sample.raion) (fresh_world None)))
  = "Unable to parse region: 2" +:+ NEWLINE.
Proof. vm_compute. reflexivity. Qed.

(** The two data rows of the sample listing: the area text "1 234.5" is
    read as 1234.5 and "Не заполнено" as no company; the texts "н.д." give
    no year and no area. *)
Example parse_region_list_sample :
  fst (parse_region_list (H:=Sample.builtins) Sample.listing_html (Some Sample.raion)
         (fresh_world None))
  = gen_done
      [mkRegionListRecord (Some Sample.raion) 7001 "ул. Мира, д. 1"
         (Some 1975) (Some 1234.5%float) None;
       mkRegionListRecord (Some Sample.raion) 7002 "ул. Мира, д. 2"
         None None (Some "ООО Ромашка")].
Proof. vm_compute. reflexivity. Qed.

Lemma parse_region_list_normalizes_witness :
  ∃ table rows row href address year area company,
    find "div" (Some "grid") (get_soup (H:=Sample.builtins) Sample.listing_html) = Some table ∧
    data_rows table = Ok rows ∧ rows !! 0%nat = Some row ∧
    row_cells row = Ok (href, address, year, area, company) ∧
    record_region (mkRegionListRecord (Some Sample.raion) 7001 "ул. Мира, д. 1"
                     (Some 1975) (Some 1234.5%float) None) = Some Sample.raion ∧
    "ул. Мира, д. 1" = address ∧
    (Some 1975 = None ↔ year = "н.д.") ∧
    (year ≠ "н.д." → Some <$> py_int (H:=Sample.builtins) year = Ok (Some 1975)) ∧
    (Some 1234.5%float = None ↔ area = "н.д.") ∧
    (area ≠ "н.д." →
       Some <$> py_float (H:=Sample.builtins) (remove_spaces area) = Ok (Some 1234.5%float)) ∧
    (@None string = None ↔ company = "Не заполнено") ∧
    (company ≠ "Не заполнено" → @None string = Some company).
Proof.
  apply (parse_region_list_normalizes (H:=Sample.builtins) Sample.listing_html
           (Some Sample.raion) (fresh_world None) 0
           (mkRegionListRecord (Some Sample.raion) 7001 "ул. Мира, д. 1"
              (Some 1975) (Some 1234.5%float) None)).
  vm_compute. reflexivity.
Defined.

(** C6 does not hold on the code: the guard of [parse_region_list] covers
    the missing [div.grid] only. On a page that has the [div.grid] but no
    [table] inside it the results table is absent as well, and there
    [table.find_all] is called on [None]: [AttributeError] is raised,
    nothing is yielded and no diagnostic is written. *)
Theorem parse_region_list_empty_grid_raises :
  results_table (get_soup (H:=Sample.builtins) Sample.grid_only_html) = None ∧
  parse_region_list (H:=Sample.builtins) Sample.grid_only_html (Some Sample.raion)
    (fresh_world None)
  = (gen_raise AttributeError, fresh_world None).
Proof.
  split.
  - vm_compute. reflexivity.
  - apply (parse_region_list_grid_without_table (H:=Sample.builtins) Sample.grid_only_html
             (Some Sample.raion) (fresh_world None)
             (Tag "div" ["grid"] [] [Tag "p" [] [] [NavigableString "Нет данных"]])).
    + vm_compute. reflexivity.
    + vm_compute. reflexivity.
Qed.

(** ** Listing persistence *)

Lemma stored_as_weaken companies companies' r row :
  companies ⊆ companies' → stored_as companies r row → stored_as companies' r row.
Proof.
  intros Hsub (region & Hreg & -> & Hsome). exists region. split; [done |]. split.
  - destruct (record_company r) as [name |]; simpl; [| done].
    destruct (Hsome name eq_refl) as [i Hi]. rewrite Hi.
    by rewrite (lookup_weaken _ _ _ _ Hi Hsub).
  - intros name Hname. destruct (Hsome name Hname) as [i Hi].
    exists i. by eapply lookup_weaken.
Qed.

Lemma interned_nil : interned [] ∅ [].
Proof. split; [intros name i; by rewrite lookup_empty | constructor]. Qed.

Lemma interned_step seen companies data r region :
  interned seen companies data → record_region r = Some region →
  let n := Z.of_nat (length seen) in
  let '(this_id, companies') :=
    match record_company r with
    | None => (None, companies)
    | Some name =>
        match companies !! name with
        | Some known => (Some known, companies)
        | None => (Some n, <[name := n]> companies)
        end
    end in
  interned (seen ++ [r]) companies'
    (data ++ [(region_id region, record_id r, record_address r, record_year r,
               record_area r, this_id)]).
Proof.
  intros [Hids Hrows] Hreg n.
  assert (Hold : ∀ name i, companies !! name = Some i →
    0 ≤ i ∧ ∃ r', (seen ++ [r]) !! Z.to_nat i = Some r' ∧ record_company r' = Some name).
  { intros name i Hi. destruct (Hids name i Hi) as (Hpos & r' & Hr' & Hc).
    split; [done |]. exists r'. split; [| done]. by apply lookup_app_l_Some. }
  destruct (record_company r) as [name |] eqn:Hcompany.
  - destruct (companies !! name) as [known |] eqn:Hknown.
    + split; [done |]. apply Forall2_app; [done |]. constructor; [| constructor].
      exists region. rewrite Hcompany. simpl. rewrite Hknown.
      split; [done |]. split; [done |]. intros ? [= <-]. by eexists.
    + split.
      * intros name' i. rewrite lookup_insert. case_decide as Hname.
        -- intros [= <-]. subst name'. split; [lia |]. exists r.
           unfold n. rewrite Nat2Z.id. split; [| done].
           by apply list_lookup_middle.
        -- apply Hold.
      * apply Forall2_app.
        -- eapply Forall2_impl; [exact Hrows |].
           intros r' row. apply stored_as_weaken. by apply insert_subseteq.
        -- constructor; [| constructor].
           exists region. rewrite Hcompany. simpl. rewrite lookup_insert_eq.
           split; [done |]. split; [done |]. intros ? [= <-].
           rewrite lookup_insert_eq. by eexists.
  - split; [done |]. apply Forall2_app; [done |]. constructor; [| constructor].
    exists region. rewrite Hcompany. simpl. done.
Qed.

Lemma dump_region_lists_loop_interned results : ∀ seen companies data,
  interned seen companies data →
  Forall (λ r, is_Some (record_region r)) results →
  ∃ companies' data',
    dump_region_lists_loop (Z.of_nat (length seen)) results companies data
      = Ok (companies', data') ∧
    interned (seen ++ results) companies' data'.
Proof.
  induction results as [| r results IH]; intros seen companies data Hint Hreg.
  - exists companies, data. by rewrite app_nil_r.
  - apply Forall_cons in Hreg as [[region Hregion] Hreg].
    pose proof (interned_step seen companies data r region Hint Hregion) as Hstep.
    destruct r as [reg id address year area company]. simpl in *. subst reg.
    destruct (match company with
              | Some name =>
                  match companies !! name with
                  | Some known => (Some known, companies)
                  | None => (Some (Z.of_nat (length seen)),
                             <[name:=Z.of_nat (length seen)]> companies)
                  end
              | None => (None, companies)
              end) as [this_id companies1] eqn:Hthis.
    simpl.
    destruct (IH (seen ++ [mkRegionListRecord (Some region) id address year area company])
                companies1
                (data ++ [(region_id region, id, address, year, area, this_id)]))
      as (companies' & data' & Hrun & Hint'); [done | done |].
    exists companies', data'. split.
    + rewrite <- Hrun. f_equal. rewrite length_app. simpl. lia.
    + by rewrite <- app_assoc in Hint'.
Qed.

Lemma companies_by_id_lookup seen companies data name i :
  interned seen companies data → companies !! name = Some i →
  companies_by_id companies !! Some i = Some (Some name).
Proof.
  intros [Hids _] Hi. unfold companies_by_id.
  rewrite lookup_insert_ne by done.
  apply elem_of_list_to_map_1'.
  - intros y ((name' & i') & [= Hi' ->] & Hin%elem_of_map_to_list)%list_elem_of_fmap.
    simpl in *. subst i'.
    destruct (Hids name i Hi) as (_ & r & Hr & Hc).
    destruct (Hids name' i Hin) as (_ & r' & Hr' & Hc').
    congruence.
  - apply list_elem_of_fmap. exists (name, i). split; [done |].
    by apply elem_of_map_to_list.
Qed.

Lemma load_region_lists_loop_interned regions seen companies data records rows :
  interned seen companies data →
  Forall (region_known regions) records →
  Forall2 (stored_as companies) records rows →
  load_region_lists_loop (regions_by_id regions) (companies_by_id companies) rows
    = gen_done records.
Proof.
  intros Hint Hknown Hrows.
  induction Hrows as [| r row records rows Hrow _ IH]; [done |].
  apply Forall_cons in Hknown as [(region' & Hreg' & Hlookup) Hknown].
  destruct Hrow as (region & Hreg & -> & Hsome).
  assert (region' = region) as -> by congruence.
  simpl. rewrite Hlookup. simpl.
  assert (Hcompany : companies_by_id companies !! (record_company r ≫= (companies !!.))
                     = Some (record_company r)).
  { destruct (record_company r) as [name |] eqn:Hc; simpl.
    - destruct (Hsome name eq_refl) as [i Hi]. rewrite Hi.
      by eapply companies_by_id_lookup.
    - apply lookup_insert_eq. }
  rewrite Hcompany. simpl. rewrite (IH Hknown).
  destruct r. simpl in *. by subst.
Qed.

(** C5: when the regions handed to [load_region_lists] hold the region of
    every record under its id, loading what [dump_region_lists] stored gives
    the records back: each with its company text, or no company, and with
    its region. In the store no company is [None], never an id: a row has
    the id [None] exactly when its record has no company, and an id that is
    stored is the index, from 0, of a record of that company. *)
Theorem region_lists_round_trip (records : list RegionListRecord)
    (regions : list RegionRecord) (w : World) :
  Forall (region_known regions) records →
  ∃ store companies rows,
    dump_region_lists records w = Ok store ∧
    region_lists_json store = Some (companies, rows) ∧
    load_region_lists regions store = gen_done records ∧
    Forall2 (λ r row, (snd row = None ↔ record_company r = None) ∧
                      ∀ i, snd row = Some i → 0 ≤ i ∧
                        ∃ r', records !! Z.to_nat i = Some r' ∧
                              record_company r' = record_company r) records rows.
Proof.
  intros Hknown.
  destruct (dump_region_lists_loop_interned records [] ∅ [] interned_nil)
    as (companies & rows & Hrun & Hint).
  { eapply Forall_impl; [exact Hknown |]. intros r (region & -> & _). by eexists. }
  change (Z.of_nat (length [])) with 0 in Hrun. simpl in Hint.
  exists (dump_region_lists_json (companies, rows) w), companies, rows.
  split; [| split; [done | split]].
  - unfold dump_region_lists. by rewrite Hrun.
  - unfold load_region_lists, load_region_lists_json. simpl.
    destruct Hint as [Hids Hrows].
    by eapply load_region_lists_loop_interned.
  - destruct Hint as [Hids Hrows].
    eapply Forall2_impl; [exact Hrows |].
    intros r row (region & Hreg & -> & Hsome). simpl.
    destruct (record_company r) as [name |] eqn:Hc; simpl.
    + destruct (Hsome name eq_refl) as [i Hi]. rewrite Hi. split; [done |].
      intros ? [= <-]. destruct (Hids name i Hi) as (Hpos & r' & Hr' & Hc').
      split; [done |]. by exists r'.
    + split; [done | done].
Qed.

Lemma region_lists_round_trip_witness :
  ∃ store companies rows,
    dump_region_lists Sample.records (fresh_world None) = Ok store ∧
    region_lists_json store = Some (companies, rows) ∧
    load_region_lists Sample.leaves store = gen_done Sample.records ∧
    Forall2 (λ r row, (snd row = None ↔ record_company r = None) ∧
                      ∀ i, snd row = Some i → 0 ≤ i ∧
                        ∃ r', Sample.records !! Z.to_nat i = Some r' ∧
                              record_company r' = record_company r)
      Sample.records rows.
Proof.
  apply (region_lists_round_trip Sample.records Sample.leaves (fresh_world None)).
  unfold Sample.records.
  repeat constructor; eexists; (split; [reflexivity | vm_compute; reflexivity]).
Defined.

(** The first company is interned under the id 0, and a record without a
    company is stored with [None]. *)
Example dump_region_lists_sample :
  (λ store, snd <$> region_lists_json store)
    <$> dump_region_lists Sample.records (fresh_world None)
  = Ok (Some
      [(Some 3, 7001, "ул. Мира, д. 1", Some 1975, Some 1234.5%float, Some 0);
       (Some 3, 7002, "ул. Мира, д. 2", None, None, None);
       (Some 3, 7003, "ул. Мира, д. 3", Some 1980, None, Some 0)]).
Proof. vm_compute. reflexivity. Qed.

(** ** The classification group of a profile *)

(** A label maps to the value of its last pair, the "not filled" text
    giving [None]. *)
Lemma parse_building_profile_data_lookup (groups : list (string * string)) (key : string) :
  parse_building_profile_data groups !! key =
    (λ value, if bool_decide (value = NOT_FILLED) then None else Some value)
      <$> last_value key groups.
Proof.
  unfold parse_building_profile_data, last_value.
  induction groups as [| [k v] groups IH] using rev_ind; [done |].
  rewrite foldl_app, filter_app. simpl.
  rewrite lookup_insert. case_decide as Hk.
  - subst k. rewrite filter_cons_True by done. rewrite filter_nil.
    by rewrite last_snoc.
  - rewrite filter_cons_False by done. rewrite filter_nil, app_nil_r. apply IH.
Qed.

(** C3 fails on the code: a value of the label other than "Да", "Нет" and
    "Не заполнено" is kept as it is. *)
Lemma repair_keeps_other_text :
  ¬ repair_is_tristate (parse_building_profile_data [(REPAIR_LABEL, "Неизвестно")]).
Proof.
  intros Hclaim. specialize (Hclaim "Неизвестно" ltac:(by vm_compute)).
  vm_compute in Hclaim. discriminate Hclaim.
Qed.

(** C3, amended: the [repair] field is [True] for the value "Да" of the
    label "Дом признан аварийным", [False] for "Нет", and [None] when the
    label is absent or its value is "Не заполнено"; any other value is
    kept as its text. *)
Theorem parse_building_profile_types_repair (groups : list (string * string)) :
  type_repair (parse_building_profile_types (parse_building_profile_data groups)) =
    match last_value "Дом признан аварийным" groups with
    | None => RepairNone
    | Some value =>
        if bool_decide (value = "Не заполнено") then RepairNone
        else if bool_decide (value = "Да") then RepairBool true
        else if bool_decide (value = "Нет") then RepairBool false
        else RepairText value
    end.
Proof.
  unfold parse_building_profile_types, dict_get. simpl.
  rewrite (parse_building_profile_data_lookup groups REPAIR_LABEL).
  change REPAIR_LABEL with "Дом признан аварийным".
  destruct (last_value _ groups) as [value |]; simpl; [| done].
  change NOT_FILLED with "Не заполнено".
  by case_bool_decide.
Qed.

Example parse_building_profile_types_sample :
  type_repair <$>
    (parse_building_profile_types ∘ parse_building_profile_data <$>
       [[(REPAIR_LABEL, "Да")]; [(REPAIR_LABEL, "Нет")]; [(REPAIR_LABEL, "Не заполнено")];
        [("Тип дома", "Многоквартирный дом")]; [(REPAIR_LABEL, "Неизвестно")]])
  = [RepairBool true; RepairBool false; RepairNone; RepairNone; RepairText "Неизвестно"].
Proof. vm_compute. reflexivity. Qed.

(** * Further properties of the code *)

(** ** [get_chunks] outside its intended use *)

(** X1: [get_chunks] of an empty list is the empty list of chunks whatever
    the count; on a non-empty list a count of 0 makes [index % count] raise
    [ZeroDivisionError] and a negative count leaves no chunk to index, so
    that the first item raises [IndexError]. *)
Theorem get_chunks_degenerate {A} (s : list A) (n : Z) :
  s = [] ∨ n ≤ 0 →
  get_chunks s n =
    match s with
    | [] => Ok []
    | _ :: _ => if n =? 0 then Raise ZeroDivisionError else Raise IndexError
    end.
Proof.
  intros Hcase. unfold get_chunks. destruct s as [| x s].
  - simpl. by rewrite Z2Nat.nonpos by lia.
  - destruct Hcase as [? | Hn]; [done |].
    replace (Z.min n (Z.of_nat (length (x :: s)))) with n by (simpl; lia).
    rewrite Z2Nat.nonpos by lia. simpl. unfold py_mod.
    destruct (Z.eqb_spec n 0) as [-> | Hne]; [done |].
    rewrite Z.mod_0_l by done. reflexivity.
Qed.

Lemma get_chunks_degenerate_witness :
  get_chunks [10; 11] (-3) = Raise IndexError.
Proof. apply (get_chunks_degenerate [10; 11] (-3)). right. lia. Defined.

(** ** Reading the cache back *)

Lemma dump_html_keeps_blobs (url : string) (html : option string) (w : World) (p : string) :
  is_Some (files w !! p) → is_Some (files (dump_html url html w) !! p).
Proof.
  intros Hp. rewrite dump_html_files.
  rewrite lookup_insert. case_decide; [by eexists |].
  rewrite lookup_insert. case_decide; [by eexists | done].
Qed.

Lemma load_html_dump_html (url : string) (html : option string) (w : World) :
  load_html url (dump_html url html w) = Ok (default "" html).
Proof.
  unfold load_html, load_text, file_read. rewrite dump_html_files.
  rewrite lookup_insert_ne by (apply not_eq_sym, get_html_path_not_index).
  by rewrite lookup_insert_eq.
Qed.

(** X2: what [dump_html] stores under a URL is what [load_html] returns
    for it, the empty text for a failed fetch; the page of a URL with
    another path in the cache is as it was. *)
Theorem load_html_after_dump_html (url : string) (html : option string) (w : World) :
  load_html url (dump_html url html w) = Ok (default "" html) ∧
  ∀ url', get_html_path url' ≠ get_html_path url →
    load_html url' (dump_html url html w) = load_html url' w.
Proof.
  split; [apply load_html_dump_html |].
  unfold load_html, load_text, file_read. rewrite dump_html_files.
  - intros url' Hne.
    rewrite lookup_insert_ne by (apply not_eq_sym, get_html_path_not_index).
    by rewrite lookup_insert_ne.
Qed.

Lemma fetch_urls_snoc (urls : list string) (url : string) (w : World) :
  fetch_urls (urls ++ [url]) w = fetch_url url (fetch_urls urls w).
Proof. unfold fetch_urls. by rewrite foldl_app. Qed.

(** X3: [fetch_urls] issues one GET for every URL of its list, in the order
    of the list and again for a URL that is listed twice or is cached
    already, and afterwards [load_html] finds a page for each of them. *)
Theorem fetch_urls_requests_every_url (urls : list string) (w : World) :
  requests (fetch_urls urls w) = requests w ++ urls ∧
  ∀ url, url ∈ urls → ∃ html, load_html url (fetch_urls urls w) = Ok html.
Proof.
  induction urls as [| url urls IH] using rev_ind.
  - split; [by rewrite app_nil_r |]. intros url Hin. by apply elem_of_nil in Hin.
  - destruct IH as [Hreq Hload]. rewrite fetch_urls_snoc. split.
    + unfold fetch_url, curl_url. rewrite dump_html_requests. simpl.
      by rewrite Hreq, app_assoc.
    + intros url' [Hin | ->%list_elem_of_singleton]%elem_of_app.
      * destruct (Hload url' Hin) as [html Hhtml].
        unfold load_html, load_text, file_read in *.
        unfold fetch_url, curl_url.
        destruct (dump_html_keeps_blobs url (network (fetch_urls urls w) url)
                    (log_request url (fetch_urls urls w)) (get_html_path url'))
          as [html' ->]; [| by eexists].
        simpl. destruct (files (fetch_urls urls w) !! get_html_path url'); [by eexists | done].
      * unfold fetch_url, curl_url. eexists.
        apply load_html_dump_html.
Qed.

(** ** The region store, whatever it holds *)

Lemma rows_of_equiv regions regions' parents :
  (∀ a, a ∈ regions ↔ a ∈ regions') → rows_of regions parents → rows_of regions' parents.
Proof.
  intros Heq [Hrows Hkeys]. split.
  - intros k v Hk. destruct (Hrows k v Hk) as (a & Ha & ?). exists a. by rewrite <- Heq.
  - intros a Ha. apply Hkeys. by rewrite Heq.
Qed.

Lemma rows_of_insert regions parents b :
  rows_of regions parents →
  rows_of (b :: regions) (<[region_id b := entry_of b]> parents).
Proof.
  intros [Hrows Hkeys]. split.
  - intros k v. rewrite lookup_insert. case_decide as Hk.
    + intros [= <-]. exists b. split; [by left | done].
    + intros Hv. destruct (Hrows k v Hv) as (a & Ha & ?). exists a. split; [by right | done].
  - intros a Ha. rewrite lookup_insert. case_decide; [by eexists |].
    apply elem_of_cons in Ha as [-> | Ha]; [done | by apply Hkeys].
Qed.

Lemma rows_of_dump_ancestors p : ∀ regions parents,
  rows_of regions parents →
  rows_of ((p :: ancestors p) ++ regions) (dump_ancestors p parents).
Proof.
  induction p as [name id buildings | q name id buildings IH] using RegionRecord_chain_ind;
    intros regions parents Hrows.
  - by apply (rows_of_insert regions parents (mkRegionRecord None name id buildings)).
  - pose proof (rows_of_insert regions parents
                  (mkRegionRecord (Some q) name id buildings) Hrows) as Hrows'.
    apply IH in Hrows'. simpl.
    eapply rows_of_equiv; [| exact Hrows'].
    intros a. simpl.
    repeat (rewrite elem_of_cons || rewrite elem_of_app). tauto.
Qed.

Lemma dump_regions_loop_rows regions : ∀ seen parents leafs,
  Forall (λ r, is_Some (region_parent r)) regions →
  rows_of seen parents →
  ∃ parents',
    dump_regions_loop regions parents leafs = Ok (parents', leafs ++ (leaf_row <$> regions)) ∧
    rows_of (all_ancestors regions ++ seen) parents'.
Proof.
  induction regions as [| region regions IH]; intros seen parents leafs Hpar Hrows.
  - exists parents. simpl. by rewrite app_nil_r.
  - apply Forall_cons in Hpar as [[p Hp] Hpar].
    destruct region as [parent name id buildings]. simpl in Hp. subst parent.
    destruct (IH ((p :: ancestors p) ++ seen) (dump_ancestors p parents)
                (leafs ++ [(region_id p, name, id, buildings)]) Hpar
                (rows_of_dump_ancestors p seen parents Hrows)) as (parents' & Hrun & Hrows').
    exists parents'. split.
    + simpl. rewrite Hrun. by rewrite <- app_assoc.
    + eapply rows_of_equiv; [| exact Hrows'].
      intros a. unfold all_ancestors. rewrite bind_cons. simpl.
      repeat (rewrite elem_of_cons || rewrite elem_of_app). tauto.
Qed.

(** X4: [dump_regions] writes the store exactly when every leaf has a
    parent. The leaf list then has one row per leaf, in order; the parent
    table has a row under the id of every ancestor of a leaf, and each of
    its rows is the row of an ancestor with that id. Otherwise it raises
    [AttributeError]. *)
Theorem dump_regions_outcome (regions : list RegionRecord) (w : World) :
  match dump_regions regions w with
  | Ok w' =>
      Forall (λ r, is_Some (region_parent r)) regions ∧
      ∃ parents, w' = dump_regions_json (parents, leaf_row <$> regions) w ∧
                 rows_of (all_ancestors regions) parents
  | Raise e => e = AttributeError ∧ ∃ r, r ∈ regions ∧ region_parent r = None
  end.
Proof.
  destruct (decide (Forall (λ r, is_Some (region_parent r)) regions)) as [Hall | Hsome].
  - destruct (dump_regions_loop_rows regions [] ∅ [] Hall) as (parents & Hrun & Hrows).
    { split; [intros k v; by rewrite lookup_empty | intros a Ha; by apply elem_of_nil in Ha]. }
    unfold dump_regions. rewrite Hrun. simpl. split; [exact Hall |].
    exists parents. split; [reflexivity |]. by rewrite app_nil_r in Hrows.
  - apply not_Forall_Exists in Hsome; [| apply _].
    apply Exists_exists in Hsome as (r & Hr & Hnone).
    assert (Hp : region_parent r = None).
    { simpl in Hnone. destruct (region_parent r) as [p |]; [| done].
      destruct Hnone. by exists p. }
    unfold dump_regions. rewrite dump_regions_loop_no_parent by (by exists r).
    simpl. split; [done | by exists r].
Qed.

(** What [load_parent_region] returns is the region of the id asked for,
    built from rows of the table, one per ancestor, within the depth. *)
Lemma load_parent_region_sound depth : ∀ id parents r,
  load_parent_region depth id parents = Ok r →
  region_id r = id ∧ parents !! id = Some (entry_of r) ∧
  (∀ a, a ∈ ancestors r → parents !! region_id a = Some (entry_of a)) ∧
  (depth_of r < depth)%nat.
Proof.
  induction depth as [| depth IH]; intros id parents r; simpl; [done |].
  destruct (parents !! id) as [[[parent_id name] buildings] |] eqn:Hrow; [| done].
  destruct parent_id as [pid |]; simpl.
  - destruct (load_parent_region depth (Some pid) parents) as [p |] eqn:Hp; simpl; [| done].
    intros [= <-]. apply IH in Hp as (Hid & Hprow & Hanc & Hdepth).
    unfold entry_of, depth_of in *. simpl. rewrite Hid.
    split; [done |]. split; [done |]. split.
    + intros a Ha. destruct p as [pp pn pi pb]. simpl in *.
      apply elem_of_cons in Ha as [-> | Ha]; [by subst | by apply Hanc].
    + destruct p. simpl in *. lia.
  - intros [= <-]. unfold entry_of, depth_of. simpl.
    split; [done |]. split; [done |]. split; [| lia].
    intros a Ha. by apply elem_of_nil in Ha.
Qed.

Lemma gen_yield_done {A} (x : A) (g : Gen A) (l : list A) :
  gen_yield x g = gen_done l → ∃ l', l = x :: l' ∧ g = gen_done l'.
Proof.
  destruct g as [ys r]. unfold gen_yield, gen_done. simpl.
  intros [= <- ->]. by exists ys.
Qed.

Lemma load_regions_loop_sound depth parents leafs : ∀ regions,
  load_regions_loop depth parents leafs = gen_done regions →
  leaf_row <$> regions = leafs ∧
  Forall (λ r, is_Some (region_parent r)) regions ∧
  ∀ a, a ∈ all_ancestors regions → parents !! region_id a = Some (entry_of a).
Proof.
  induction leafs as [| [[[parent_id name] id] buildings] leafs IH]; intros regions; simpl.
  - intros [= <-]. split; [done |]. split; [constructor |].
    intros a Ha. by apply elem_of_nil in Ha.
  - destruct (load_parent_region depth parent_id parents) as [p |] eqn:Hp; simpl; [| done].
    intros (regions' & -> & Hrest)%gen_yield_done.
    apply IH in Hrest as (Hrows & Hpar & Hanc).
    apply load_parent_region_sound in Hp as (Hid & Hprow & Hpanc & _).
    split; [| split].
    + rewrite fmap_cons. unfold leaf_row at 1. simpl. by rewrite Hid, Hrows.
    + constructor; [by eexists | done].
    + intros a. unfold all_ancestors. rewrite bind_cons.
      change (ancestors (mkRegionRecord (Some p) name id buildings))
        with (p :: ancestors p).
      rewrite elem_of_app, elem_of_cons. intros [[-> | Ha] | Ha].
      * by rewrite Hid.
      * by apply Hpanc.
      * by apply Hanc.
Qed.

(** X5: whatever the region store holds, if [load_regions] reads it to the
    end, saving the regions it yields writes the same leaf list again and a
    parent table that is part of the stored one: a row of the stored table
    is written again exactly when a leaf reaches it. *)
Theorem dump_after_load_regions (depth : nat) (w : World)
    (parents : gmap (option Z) ParentRow) (leafs : list LeafRow)
    (regions : list RegionRecord) :
  regions_json w = Some (parents, leafs) →
  load_regions depth w = gen_done regions →
  ∃ parents',
    dump_regions regions w = Ok (dump_regions_json (parents', leafs) w) ∧
    parents' ⊆ parents ∧
    ∀ k, is_Some (parents' !! k) ↔ ∃ a, a ∈ all_ancestors regions ∧ region_id a = k.
Proof.
  intros Hstore Hload.
  unfold load_regions, load_regions_json in Hload. rewrite Hstore in Hload. simpl in Hload.
  unfold int_keys in Hload. destruct (parents !! None); [done |]. simpl in Hload.
  apply load_regions_loop_sound in Hload as (Hrows & Hpar & Hanc).
  destruct (dump_regions_loop_rows regions [] ∅ [] Hpar) as (parents' & Hrun & Hrows').
  { split; [intros k v; by rewrite lookup_empty | intros a Ha; by apply elem_of_nil in Ha]. }
  rewrite app_nil_r in Hrows'. destruct Hrows' as [Hfrom Hkeys].
  exists parents'. split; [| split].
  - unfold dump_regions. rewrite Hrun. simpl. by rewrite Hrows.
  - apply map_subseteq_spec. intros k v Hk.
    destruct (Hfrom k v Hk) as (a & Ha & <- & <-). by apply Hanc.
  - intros k. split.
    + intros [v Hk]. destruct (Hfrom k v Hk) as (a & Ha & Hid & _). by exists a.
    + intros (a & Ha & <-). by apply Hkeys.
Qed.

Lemma dump_after_load_regions_witness :
  ∃ parents',
    dump_regions [mkRegionRecord (Some (mkRegionRecord None "Район" (Some 1) 20))
                    "Хутор" (Some 11) 1] (with_regions_json More.spare_row_store)
      = Ok (dump_regions_json (parents', snd More.spare_row_store)
              (with_regions_json More.spare_row_store)) ∧
    parents' ⊆ fst More.spare_row_store ∧
    ∀ k, is_Some (parents' !! k) ↔
         ∃ a, a ∈ all_ancestors
                    [mkRegionRecord (Some (mkRegionRecord None "Район" (Some 1) 20))
                       "Хутор" (Some 11) 1] ∧ region_id a = k.
Proof.
  apply (dump_after_load_regions 2 (with_regions_json More.spare_row_store)
           (fst More.spare_row_store) (snd More.spare_row_store)).
  - reflexivity.
  - vm_compute. reflexivity.
Defined.

Lemma load_parent_region_raises depth : ∀ id parents e,
  load_parent_region depth id parents = Raise e →
  e = RuntimeError ∨
  (e = KeyError ∧ ∃ id', parents !! id' = None ∧
     (id' = id ∨ (id' ≠ None ∧ ∃ k name buildings, parents !! k = Some (id', name, buildings)))).
Proof.
  induction depth as [| depth IH]; intros id parents e; simpl.
  - intros [= <-]. by left.
  - destruct (parents !! id) as [[[parent_id name] buildings] |] eqn:Hrow.
    + destruct parent_id as [pid |]; simpl; [| done].
      destruct (load_parent_region depth (Some pid) parents) as [p | e'] eqn:Hp; simpl; [done |].
      intros [= <-]. apply IH in Hp as [-> | (-> & id' & Hnone & Href)]; [by left |].
      right. split; [done |]. exists id'. split; [done |]. right.
      destruct Href as [-> | Href]; [| done].
      split; [done |]. by exists id, name, buildings.
    + intros [= <-]. right. split; [done |]. exists id. split; [done | by left].
Qed.

Lemma load_regions_loop_raises depth parents leafs e :
  raised (load_regions_loop depth parents leafs) = Some e →
  e = RuntimeError ∨
  (e = KeyError ∧ ∃ id, parents !! id = None ∧ referenced parents leafs id).
Proof.
  induction leafs as [| [[[parent_id name] id] buildings] leafs IH]; simpl; [done |].
  destruct (load_parent_region depth parent_id parents) as [p | e'] eqn:Hp; simpl.
  - intros Hr. destruct (IH Hr) as [-> | (-> & id' & Hnone & Href)]; [by left |].
    right. split; [done |]. exists id'. split; [done |].
    destruct Href as [(n & i & b & Hin) | Href]; [left | by right].
    exists n, i, b. by right.
  - intros [= <-]. apply load_parent_region_raises in Hp as [-> | (-> & id' & Hnone & Href)];
      [by left |].
    right. split; [done |]. exists id'. split; [done |].
    destruct Href as [-> | Href]; [left | by right].
    exists name, id, buildings. by left.
Qed.

(** X6: [load_regions] stops with an exception in four ways only:
    [IOError] when the store file is missing, [ValueError] when the parent
    table has the key "null", [KeyError] when an id that a leaf or a row
    names as parent has no row in the table, and [RuntimeError] when the
    recursion over the parents runs out of depth. *)
Theorem load_regions_raises (depth : nat) (w : World) (e : Exn) :
  raised (load_regions depth w) = Some e →
  (e = IOError ∧ regions_json w = None) ∨
  (∃ parents leafs, regions_json w = Some (parents, leafs) ∧
     ((e = ValueError ∧ is_Some (parents !! None)) ∨
      (e = KeyError ∧ ∃ id, parents !! id = None ∧ referenced parents leafs id) ∨
      e = RuntimeError)).
Proof.
  unfold load_regions, load_regions_json.
  destruct (regions_json w) as [[parents leafs] |]; simpl.
  - intros Hr. right. exists parents, leafs. split; [done |].
    unfold int_keys in Hr. destruct (parents !! None) as [row |] eqn:Hnull; simpl in Hr.
    + injection Hr as <-. left. split; [done | by eexists].
    + right. apply load_regions_loop_raises in Hr as [-> | ?]; [by right | by left].
  - intros [= <-]. by left.
Qed.

Lemma load_regions_raises_witness :
  (KeyError = IOError ∧ regions_json (with_regions_json More.dangling_store) = None) ∨
  (∃ parents leafs,
     regions_json (with_regions_json More.dangling_store) = Some (parents, leafs) ∧
     ((KeyError = ValueError ∧ is_Some (parents !! None)) ∨
      (KeyError = KeyError ∧ ∃ id, parents !! id = None ∧ referenced parents leafs id) ∨
      KeyError = RuntimeError)).
Proof.
  apply (load_regions_raises 5 (with_regions_json More.dangling_store) KeyError).
  vm_compute. reflexivity.
Defined.

(** ** Saving what was loaded *)

Example dump_regions_clashing_leaves :
  dump_regions Sample.clashing_leaves (fresh_world None)
  = Ok (with_regions_json More.clashing_store).
Proof. vm_compute. reflexivity. Qed.

(** The claim of C4 fails on the code: [dump_regions] builds the parent
    table anew from the ancestors of the leaves it is given. The store it
    writes for [Sample.clashing_leaves], whose two parents share the id 1,
    keeps the row of the region 2, which no leaf reaches any more; loading
    that store and saving the result drops the row. *)
Lemma regions_store_round_trip_fails :
  ¬ store_round_trips 1000 (with_regions_json More.clashing_store).
Proof.
  intros (regions & w' & Hload & Hdump & Hjson).
  vm_compute in Hload. injection Hload as <-.
  vm_compute in Hdump. injection Hdump as <-.
  apply (f_equal (λ store, (fst <$> store) ≫= (.!! Some 2))) in Hjson.
  vm_compute in Hjson. discriminate Hjson.
Qed.

(** C4, amended: for a region store that [load_regions] reads to the end,
    saving the regions it yields writes the same leaf list again, and of
    the stored parent table exactly the rows that a leaf reaches through
    its chain of parents, each as it was stored; the pair written is the
    stored pair exactly when every row of the stored table is reached. *)
Theorem regions_store_reload (depth : nat) (w : World)
    (parents : gmap (option Z) ParentRow) (leafs : list LeafRow)
    (regions : list RegionRecord) :
  regions_json w = Some (parents, leafs) →
  load_regions depth w = gen_done regions →
  ∃ parents',
    dump_regions regions w = Ok (dump_regions_json (parents', leafs) w) ∧
    (∀ k row, parents' !! k = Some row ↔
       parents !! k = Some row ∧ ∃ a, a ∈ all_ancestors regions ∧ region_id a = k) ∧
    (parents' = parents ↔
       ∀ k, is_Some (parents !! k) → ∃ a, a ∈ all_ancestors regions ∧ region_id a = k).
Proof.
  intros Hstore Hload.
  unfold load_regions, load_regions_json in Hload. rewrite Hstore in Hload. simpl in Hload.
  unfold int_keys in Hload. destruct (parents !! None); [done |]. simpl in Hload.
  apply load_regions_loop_sound in Hload as (Hrows & Hpar & Hanc).
  destruct (dump_regions_loop_rows regions [] ∅ [] Hpar) as (parents' & Hrun & Hrows').
  { split; [intros k v; by rewrite lookup_empty | intros a Ha; by apply elem_of_nil in Ha]. }
  rewrite app_nil_r in Hrows'. destruct Hrows' as [Hfrom Hkeys].
  assert (Hrestrict : ∀ k row, parents' !! k = Some row ↔
            parents !! k = Some row ∧ ∃ a, a ∈ all_ancestors regions ∧ region_id a = k).
  { intros k row. split.
    - intros Hk. destruct (Hfrom k row Hk) as (a & Ha & <- & <-).
      split; [by apply Hanc | by exists a].
    - intros [Hk (a & Ha & <-)]. destruct (Hkeys a Ha) as [row' Hrow'].
      destruct (Hfrom _ _ Hrow') as (b & Hb & Hid & <-).
      pose proof (Hanc b Hb) as Hstored. rewrite Hid, Hk in Hstored.
      injection Hstored as ->. by rewrite <- Hid in Hrow' |- *. }
  exists parents'. split; [| split; [done |]].
  - unfold dump_regions. rewrite Hrun. simpl. by rewrite Hrows.
  - split.
    + intros <- k [row Hk]. by apply Hrestrict in Hk as [_ ?].
    + intros Hall. apply map_eq. intros k.
      destruct (parents !! k) as [row |] eqn:Hk.
      * apply Hrestrict. split; [done |]. apply Hall. by eexists.
      * destruct (parents' !! k) as [row |] eqn:Hk'; [| done].
        apply Hrestrict in Hk' as [Hk' _]. congruence.
Qed.

Lemma regions_store_reload_witness :
  ∃ parents',
    dump_regions [mkRegionRecord (Some (mkRegionRecord None "Район" (Some 1) 20))
                    "Хутор" (Some 11) 1] (with_regions_json More.spare_row_store)
      = Ok (dump_regions_json (parents', snd More.spare_row_store)
              (with_regions_json More.spare_row_store)) ∧
    (∀ k row, parents' !! k = Some row ↔
       fst More.spare_row_store !! k = Some row ∧
       ∃ a, a ∈ all_ancestors
                  [mkRegionRecord (Some (mkRegionRecord None "Район" (Some 1) 20))
                     "Хутор" (Some 11) 1] ∧ region_id a = k) ∧
    (parents' = fst More.spare_row_store ↔
       ∀ k, is_Some (fst More.spare_row_store !! k) →
         ∃ a, a ∈ all_ancestors
                    [mkRegionRecord (Some (mkRegionRecord None "Район" (Some 1) 20))
                       "Хутор" (Some 11) 1] ∧ region_id a = k).
Proof.
  apply (regions_store_reload 2 (with_regions_json More.spare_row_store)
           (fst More.spare_row_store) (snd More.spare_row_store)).
  - reflexivity.
  - vm_compute. reflexivity.
Defined.

(** ** The index of the cache read back *)

Lemma list_ascii_app (a b : string) :
  list_ascii_of_string (a +:+ b) = list_ascii_of_string a ++ list_ascii_of_string b.
Proof.
  induction a as [| c a IH]; [done |].
  rewrite string_app_cons. simpl. by rewrite IH.
Qed.

Lemma string_of_list_ascii_app (l1 l2 : list ascii) :
  string_of_list_ascii (l1 ++ l2) = string_of_list_ascii l1 +:+ string_of_list_ascii l2.
Proof.
  induction l1 as [| c l1 IH]; [done |].
  simpl. by rewrite string_app_cons, IH.
Qed.

Lemma hex_digit_not_space (c : ascii) :
  is_hex_digit c = true →
  is_ascii_space c = false ∧ c ≠ ascii_of_nat 9 ∧ c ≠ ascii_of_nat 10 ∧
  ∀ l, space_at_start (c :: l) = 0%nat.
Proof.
  unfold is_hex_digit. intros Hc%bool_decide_eq_true.
  simpl in Hc. repeat (apply elem_of_cons in Hc as [-> | Hc]);
    [.. | by apply elem_of_nil in Hc];
    (split; [reflexivity |]; split; [done |]; split; [done |];
     intros [| b2 [| b3 l]]; reflexivity).
Qed.

(** A line of the index is read whole: it has one line break, at its
    end. *)
Lemma file_lines_line (body : list ascii) : ∀ cur rest,
  ascii_of_nat 10 ∉ body →
  file_lines cur (string_of_list_ascii body +:+ NEWLINE +:+ rest) =
    string_of_list_ascii (reverse cur ++ body ++ [ascii_of_nat 10]) :: file_lines [] rest.
Proof.
  induction body as [| c body IH]; intros cur rest Hnl.
  - change (file_lines cur (String (ascii_of_nat 10) rest) =
            string_of_list_ascii (reverse cur ++ [] ++ [ascii_of_nat 10])
              :: file_lines [] rest).
    simpl. by rewrite reverse_cons.
  - simpl string_of_list_ascii. rewrite string_app_cons. simpl.
    destruct (Ascii.eqb_spec c (ascii_of_nat 10)) as [-> | Hc].
    { destruct Hnl. by left. }
    rewrite IH by (intros Hin; apply Hnl; by right).
    by rewrite reverse_cons, <- app_assoc.
Qed.

Lemma split_tab_at (before : list ascii) (after : string) :
  ascii_of_nat 9 ∉ before →
  split_tab (string_of_list_ascii before +:+ TAB +:+ after) =
    Some (string_of_list_ascii before, after).
Proof.
  induction before as [| c before IH]; intros Htab.
  - reflexivity.
  - simpl string_of_list_ascii. rewrite string_app_cons. simpl.
    destruct (Ascii.eqb_spec c (ascii_of_nat 9)) as [-> | Hc].
    { destruct Htab. by left. }
    rewrite IH by (intros Hin; apply Htab; by right). done.
Qed.

Lemma split_tab_none (s : list ascii) :
  ascii_of_nat 9 ∉ s → split_tab (string_of_list_ascii s) = None.
Proof.
  induction s as [| c s IH]; intros Htab; [done |].
  simpl. destruct (Ascii.eqb_spec c (ascii_of_nat 9)) as [-> | Hc].
  { destruct Htab. by left. }
  rewrite IH by (intros Hin; apply Htab; by right). done.
Qed.

Lemma is_space3_tab_mid (b3 b1 : ascii) : is_space3 b3 (ascii_of_nat 9) b1 = false.
Proof.
  unfold is_space3. cbn [N_of_ascii]. 
  change (N_of_ascii (ascii_of_nat 9)) with 9%N.
  destruct (N_of_ascii b3 =? 225)%N, (N_of_ascii b3 =? 226)%N,
    (N_of_ascii b3 =? 227)%N; reflexivity.
Qed.

(** Whether a text ends with whitespace does not depend on what stands
    before a tab in front of it. *)
Lemma space_at_end_after_tab (r r' : list ascii) :
  r ≠ [] → space_at_end r = 0%nat → space_at_end (r ++ ascii_of_nat 9 :: r') = 0%nat.
Proof.
  intros Hne Hend. destruct r as [| b1 [| b2 [| b3 r]]]; [done | | |].
  - simpl in *. destruct (is_ascii_space b1); [done |].
    change (is_space2 (ascii_of_nat 9) b1) with false. simpl.
    destruct r' as [| b3 r']; [done |]. by rewrite is_space3_tab_mid.
  - simpl in *. destruct (is_ascii_space b1); [done |].
    destruct (is_space2 b2 b1); [done |]. reflexivity.
  - exact Hend.
Qed.

Lemma drop_spaces_none width fuel l : width l = 0%nat → drop_spaces width fuel l = l.
Proof. intros Hw. destruct fuel; simpl; [done | by rewrite Hw]. Qed.

Lemma index_line_bytes (url : string) :
  ∃ c hash,
    list_ascii_of_string (hash_url url) = c :: hash ∧
    Forall (λ c, is_hex_digit c = true) (c :: hash) ∧
    list_ascii_of_string (index_line url) =
      (c :: hash) ++ ascii_of_nat 9 :: list_ascii_of_string url ++ [ascii_of_nat 10].
Proof.
  pose proof (hexdigest_all_hex url) as Hhex.
  pose proof (hexdigest_length url) as Hlen.
  unfold index_line, hash_url.
  destruct (list_ascii_of_string (Sha1.hexdigest url)) as [| c hash] eqn:Hbytes.
  { destruct (Sha1.hexdigest url); [done | discriminate Hbytes]. }
  exists c, hash. split; [done |]. split; [done |].
  rewrite !list_ascii_app, Hbytes. reflexivity.
Qed.

Lemma hex_no_byte (hash : list ascii) (b : ascii) :
  Forall (λ c, is_hex_digit c = true) hash → is_hex_digit b = false → b ∉ hash.
Proof.
  intros Hhex Hb Hin. rewrite Forall_forall in Hhex.
  specialize (Hhex b Hin). congruence.
Qed.

Lemma drop_spaces_one width fuel (x : ascii) (l : list ascii) :
  width (x :: l) = 1%nat → width l = 0%nat → (0 < fuel)%nat →
  drop_spaces width fuel (x :: l) = l.
Proof.
  intros Hx Hl Hfuel. destruct fuel as [| fuel]; [lia |].
  simpl. rewrite Hx. simpl. by apply drop_spaces_none.
Qed.

Lemma reverse_nonempty {A} (l : list A) : l ≠ [] → reverse l ≠ [].
Proof.
  intros Hne Hrev. apply Hne. apply (f_equal reverse) in Hrev.
  by rewrite reverse_involutive in Hrev.
Qed.

Lemma list_ascii_nonempty (s : string) : s ≠ "" → list_ascii_of_string s ≠ [].
Proof. by destruct s. Qed.

(** The line [update_urls_cache] writes for a listable URL is read back as
    the URL. *)
Lemma parse_index_line_listable (url : string) :
  listable url → parse_index_line (index_line url) = Ok url.
Proof.
  intros (Hne & Hnl & Hend).
  destruct (index_line_bytes url) as (c & hash & Hhash & Hhex & Hbytes).
  pose proof (Forall_inv Hhex) as Hc. apply hex_digit_not_space in Hc as (_ & _ & _ & Hstart).
  unfold parse_index_line, strip. rewrite Hbytes.
  set (u := list_ascii_of_string url) in *.
  rewrite (drop_spaces_none space_at_start) by apply Hstart.
  assert (Hrev : reverse ((c :: hash) ++ ascii_of_nat 9 :: u ++ [ascii_of_nat 10]) =
                 ascii_of_nat 10 :: (reverse u ++ ascii_of_nat 9 :: reverse (c :: hash))).
  { rewrite reverse_app, reverse_cons, reverse_app. simpl. by rewrite <- !app_assoc. }
  rewrite Hrev. rewrite drop_spaces_one; [| reflexivity | |].
  - rewrite reverse_app, reverse_cons, !reverse_involutive.
    rewrite !string_of_list_ascii_app.
    change (string_of_list_ascii [ascii_of_nat 9]) with TAB.
    rewrite string_app_assoc. rewrite split_tab_at.
    + unfold u. by rewrite string_of_list_ascii_of_string.
    + apply hex_no_byte; [done | reflexivity].
  - apply space_at_end_after_tab; [| done].
    apply reverse_nonempty. by apply list_ascii_nonempty.
  - rewrite length_app. simpl. lia.
Qed.

Lemma newline_not_in (s : string) :
  has_newline s = false → ascii_of_nat 10 ∉ list_ascii_of_string s.
Proof. unfold has_newline. by intros ?%bool_decide_eq_false. Qed.

(** A line of the index for a URL without line break is one line of the
    file. *)
Lemma file_lines_index_line (url rest : string) :
  has_newline url = false →
  file_lines [] (index_line url +:+ rest) = index_line url :: file_lines [] rest.
Proof.
  intros Hnl.
  destruct (index_line_bytes url) as (c & hash & Hhash & Hhex & Hbytes).
  assert (Hline : index_line url =
                  string_of_list_ascii ((c :: hash) ++ ascii_of_nat 9 ::
                                        list_ascii_of_string url) +:+ NEWLINE).
  { rewrite <- (string_of_list_ascii_of_string (index_line url)), Hbytes.
    change ((c :: hash) ++ ascii_of_nat 9 :: list_ascii_of_string url ++ [ascii_of_nat 10])
      with ((c :: hash) ++ (ascii_of_nat 9 :: list_ascii_of_string url) ++ [ascii_of_nat 10]).
    by rewrite app_assoc, string_of_list_ascii_app. }
  rewrite Hline at 1. rewrite string_app_assoc.
  rewrite file_lines_line.
  - f_equal. rewrite Hline. simpl reverse. rewrite app_nil_l.
    by rewrite string_of_list_ascii_app.
  - intros [Hin | Hin]%elem_of_app.
    + revert Hin. apply hex_no_byte; [done | reflexivity].
    + apply elem_of_cons in Hin as [? | Hin]; [done |].
      by apply newline_not_in in Hnl.
Qed.

(** The index written for listable URLs splits into their lines. *)
Lemma file_lines_index_text (urls : list string) (rest : string) :
  Forall listable urls →
  file_lines [] (index_text urls +:+ rest) = (index_line <$> urls) ++ file_lines [] rest.
Proof.
  induction 1 as [| url urls (Hne & Hnl & Hend) _ IH]; [done |].
  simpl index_text. rewrite fmap_cons, string_app_assoc.
  rewrite file_lines_index_line by done. by rewrite IH.
Qed.

Lemma list_index_lines_app (urls : list string) (lines : list string) :
  Forall listable urls →
  list_index_lines ((index_line <$> urls) ++ lines) =
    gen_yield_all urls (list_index_lines lines).
Proof.
  induction 1 as [| url urls Hurl _ IH].
  - simpl. by destruct (list_index_lines lines).
  - rewrite fmap_cons. simpl. rewrite parse_index_line_listable by done.
    simpl. by rewrite IH.
Qed.

Lemma index_text_app (urls urls' : list string) :
  index_text (urls ++ urls') = index_text urls +:+ index_text urls'.
Proof.
  induction urls as [| url urls IH]; [done |].
  simpl. by rewrite IH, string_app_assoc.
Qed.

(** The index after [fetch_urls]: the lines of the URLs are appended. *)
Lemma index_after_fetch_urls (urls : list string) (w : World) :
  default "" (files (fetch_urls urls w) !! HTML_LIST) =
    default "" (files w !! HTML_LIST) +:+ index_text urls ∧
  (is_Some (files w !! HTML_LIST) ∨ urls ≠ [] →
   is_Some (files (fetch_urls urls w) !! HTML_LIST)).
Proof.
  induction urls as [| url urls [IH1 IH2]] using rev_ind.
  - simpl. rewrite string_app_nil_r. split; [done |]. by intros [? | ?].
  - rewrite fetch_urls_snoc. unfold fetch_url, curl_url. rewrite dump_html_files.
    rewrite lookup_insert_eq. simpl. split; [| by eexists].
    rewrite IH1, index_text_app. simpl. by rewrite string_app_nil_r, string_app_assoc.
Qed.

(** X7: the index lists what was fetched. When the index holds the lines
    of the listable URLs [old] (a URL is listable when it is not empty, has
    no line break and does not end with whitespace), then after
    [fetch_urls urls] for listable URLs [list_html_cache] yields [old]
    followed by [urls], a URL that was fetched twice being listed twice. *)
Theorem list_html_cache_after_fetch_urls (old urls : list string) (w : World) :
  Forall listable (old ++ urls) →
  default "" (files w !! HTML_LIST) = index_text old →
  is_Some (files w !! HTML_LIST) ∨ urls ≠ [] →
  list_html_cache (fetch_urls urls w) = gen_done (old ++ urls).
Proof.
  intros Hlistable Hold Hfile.
  destruct (index_after_fetch_urls urls w) as [Htext Hsome].
  destruct (Hsome Hfile) as [text Hindex].
  unfold list_html_cache, list_urls_cache, file_read. rewrite Hindex. simpl.
  rewrite Hindex in Htext. simpl in Htext. subst text.
  rewrite Hold, <- index_text_app.
  rewrite <- (string_app_nil_r (index_text (old ++ urls))).
  rewrite file_lines_index_text by done.
  rewrite list_index_lines_app by done. simpl.
  unfold gen_yield_all, gen_done. simpl. by rewrite app_nil_r.
Qed.

Lemma list_html_cache_after_fetch_urls_witness :
  list_html_cache (fetch_urls ["http://a/?b=1"; "http://c d"; "http://a/?b=1"]
                     (fresh_world None))
  = gen_done ([] ++ ["http://a/?b=1"; "http://c d"; "http://a/?b=1"]).
Proof.
  apply (list_html_cache_after_fetch_urls []
           ["http://a/?b=1"; "http://c d"; "http://a/?b=1"] (fresh_world None)).
  - repeat constructor; done.
  - reflexivity.
  - by right.
Defined.

Lemma low_byte_not_space_end (h : ascii) (l : list ascii) :
  (N_of_ascii h <? 128)%N = true → is_ascii_space h = false →
  space_at_end (h :: l) = 0%nat.
Proof.
  intros Hlow%N.ltb_lt Hh. simpl. rewrite Hh.
  assert (H2 : ∀ b, is_space2 b h = false).
  { intros b. unfold is_space2.
    destruct (N.eqb_spec (N_of_ascii h) 133), (N.eqb_spec (N_of_ascii h) 160); lia. }
  assert (H3 : ∀ b3 b2, is_space3 b3 b2 h = false).
  { intros b3 b2. unfold is_space3.
    destruct (N.eqb_spec (N_of_ascii h) 128), (N.eqb_spec (N_of_ascii h) 142),
      (N.eqb_spec (N_of_ascii h) 168), (N.eqb_spec (N_of_ascii h) 169),
      (N.eqb_spec (N_of_ascii h) 175), (N.eqb_spec (N_of_ascii h) 159),
      (N.leb_spec 128 (N_of_ascii h)); lia. }
  destruct l as [| b2 [| b3 l]]; [done | by rewrite H2 | by rewrite H2, H3].
Qed.

Lemma hex_digit_low (c : ascii) :
  is_hex_digit c = true → (N_of_ascii c <? 128)%N = true.
Proof.
  unfold is_hex_digit. intros Hc%bool_decide_eq_true.
  simpl in Hc. repeat (apply elem_of_cons in Hc as [-> | Hc]);
    [.. | by apply elem_of_nil in Hc]; reflexivity.
Qed.

Lemma drop_spaces_ascii (spaces rest : list ascii) (fuel : nat) :
  Forall (λ c, is_ascii_space c = true) spaces → space_at_end rest = 0%nat →
  (length spaces ≤ fuel)%nat →
  drop_spaces space_at_end fuel (spaces ++ rest) = rest.
Proof.
  revert fuel. induction spaces as [| c spaces IH]; intros fuel Hsp Hrest Hfuel.
  - by apply drop_spaces_none.
  - apply Forall_cons in Hsp as [Hc Hsp]. destruct fuel as [| fuel]; [simpl in Hfuel; lia |].
    simpl. rewrite Hc. simpl. apply IH; [done | done | simpl in Hfuel; lia].
Qed.

(** The line of a blank URL has no tab left once it is stripped. *)
Lemma parse_index_line_blank (url : string) :
  blank url → parse_index_line (index_line url) = Raise ValueError.
Proof.
  intros Hblank.
  destruct (index_line_bytes url) as (c & hash & Hhash & Hhex & Hbytes).
  pose proof (Forall_inv Hhex) as Hc. apply hex_digit_not_space in Hc as (_ & _ & _ & Hstart).
  unfold parse_index_line, strip. rewrite Hbytes.
  set (u := list_ascii_of_string url) in *.
  rewrite (drop_spaces_none space_at_start) by apply Hstart.
  assert (Hrev : reverse ((c :: hash) ++ ascii_of_nat 9 :: u ++ [ascii_of_nat 10]) =
                 (ascii_of_nat 10 :: reverse u ++ [ascii_of_nat 9]) ++ reverse (c :: hash)).
  { rewrite reverse_app, reverse_cons, reverse_app. simpl. by rewrite <- !app_assoc. }
  rewrite Hrev. rewrite drop_spaces_ascii.
  - rewrite reverse_involutive.
    rewrite (split_tab_none (c :: hash)); [done |].
    apply hex_no_byte; [done | reflexivity].
  - constructor; [reflexivity |]. apply Forall_app. split.
    + apply Forall_reverse. eapply Forall_impl; [exact Hblank |]. by intros ? [? _].
    + by constructor.
  - destruct (reverse (c :: hash)) as [| h rest] eqn:Hh.
    { apply (f_equal reverse) in Hh. by rewrite reverse_involutive in Hh. }
    assert (Hhhex : is_hex_digit h = true).
    { rewrite Forall_forall in Hhex. apply Hhex.
      rewrite <- (reverse_involutive (c :: hash)), Hh, reverse_cons.
      rewrite elem_of_app, list_elem_of_singleton. by right. }
    apply low_byte_not_space_end; [by apply hex_digit_low |].
    by apply hex_digit_not_space in Hhhex as (? & _).
  - simpl. rewrite !length_app, length_reverse. simpl. rewrite length_app. simpl. lia.
Qed.

Lemma blank_no_newline (url : string) : blank url → has_newline url = false.
Proof.
  intros Hblank. unfold has_newline. apply bool_decide_eq_false.
  intros Hin. unfold blank in Hblank. rewrite Forall_forall in Hblank.
  by destruct (Hblank _ Hin).
Qed.

(** X8: a blank URL (the empty text, or spaces and tabs only) spoils the
    index: its line loses its tab when it is stripped, so that
    [list_html_cache] raises [ValueError] on reaching it and lists none of
    the URLs fetched after it. *)
Theorem list_html_cache_blank_url (old more : list string) (url : string) (w : World) :
  Forall listable old → blank url →
  default "" (files w !! HTML_LIST) = index_text old →
  list_html_cache (fetch_urls (url :: more) w) = mkGen old (Some ValueError).
Proof.
  intros Hold Hblank Hindex.
  destruct (index_after_fetch_urls (url :: more) w) as [Htext Hsome].
  destruct Hsome as [text Hfile]; [by right |].
  unfold list_html_cache, list_urls_cache, file_read. rewrite Hfile. simpl.
  rewrite Hfile in Htext. simpl in Htext. subst text. rewrite Hindex.
  rewrite file_lines_index_text by done.
  rewrite file_lines_index_line by (by apply blank_no_newline).
  rewrite list_index_lines_app by done. simpl.
  rewrite parse_index_line_blank by done. simpl.
  unfold gen_yield_all. simpl. by rewrite app_nil_r.
Qed.

Lemma list_html_cache_blank_url_witness :
  list_html_cache (fetch_urls ["  "; "http://c"] (fetch_urls ["http://a"] (fresh_world None)))
  = mkGen ["http://a"] (Some ValueError).
Proof.
  apply (list_html_cache_blank_url ["http://a"] ["http://c"] "  "
           (fetch_urls ["http://a"] (fresh_world None))).
  - repeat constructor; done.
  - repeat constructor; done.
  - vm_compute. reflexivity.
Defined.

(** ** The pass over the listing pages *)

Section RawListsFacts.
Context `{Builtins}.

Lemma parse_list_row_region region row record :
  parse_list_row region row = Ok record → record_region record = region.
Proof.
  unfold parse_list_row. intros Hrow.
  apply bind_Ok in Hrow as ([[[[href address] year] area] company] & _ & Hrow).
  apply bind_Ok in Hrow as (digits & _ & Hrow).
  apply bind_Ok in Hrow as (id & _ & Hrow).
  apply bind_Ok in Hrow as (y & _ & Hrow).
  apply bind_Ok in Hrow as (a & _ & Hrow).
  by injection Hrow as <-.
Qed.

Lemma parse_list_rows_region region rows record :
  record ∈ yielded (parse_list_rows region rows) → record_region record = region.
Proof.
  intros (i & Hi)%list_elem_of_lookup.
  apply parse_list_rows_lookup in Hi as (row & _ & Hrow).
  by apply parse_list_row_region in Hrow.
Qed.

(** What [parse_region_list] yields does not depend on the world, and it
    leaves the world as it is but for text added to stderr. *)
Lemma parse_region_list_world html region w :
  ∃ err, snd (parse_region_list html region w) = write_stderr err w.
Proof.
  unfold parse_region_list. destruct (find "div" (Some "grid") (get_soup html)).
  - exists "". simpl. unfold write_stderr. rewrite string_app_nil_r. by destruct w.
  - destruct region as [r |]; simpl.
    + eexists. unfold write_stderr. simpl. by rewrite string_app_assoc.
    + by eexists.
Qed.

Lemma parse_region_list_records html region w w' :
  fst (parse_region_list html region w) = fst (parse_region_list html region w').
Proof.
  unfold parse_region_list. destruct (find "div" (Some "grid") (get_soup html)); [done |].
  by destruct region.
Qed.

Lemma parse_region_list_region html region w record :
  record ∈ yielded (fst (parse_region_list html (Some region) w)) →
  record_region record = Some region.
Proof.
  unfold parse_region_list. destruct (find "div" (Some "grid") (get_soup html)); simpl.
  - destruct (data_rows n) as [rows | e]; simpl.
    + apply parse_list_rows_region.
    + by intros ?%elem_of_nil.
  - by intros ?%elem_of_nil.
Qed.

Lemma load_region_page_stderr id err w :
  load_region_page id (write_stderr err w) = load_region_page id w.
Proof. done. Qed.

Lemma listed_stderr err w region : listed (write_stderr err w) region = listed w region.
Proof.
  unfold listed. destruct (region_id region) as [id |]; [| done].
  rewrite load_region_page_stderr. destruct (load_region_page id w); [| done].
  by rewrite (parse_region_list_records _ _ _ w).
Qed.

Lemma write_stderr_twice a b w :
  write_stderr b (write_stderr a w) = write_stderr (a +:+ b) w.
Proof. unfold write_stderr. simpl. by rewrite string_app_assoc. Qed.

(** The pass, region by region. *)
Lemma load_raw_region_lists_run regions : ∀ w,
  ∃ err,
    snd (load_raw_region_lists regions w) = write_stderr err w ∧
    yielded (fst (load_raw_region_lists regions w)) `prefix_of` (regions ≫= listed w) ∧
    (raised (fst (load_raw_region_lists regions w)) = None →
     yielded (fst (load_raw_region_lists regions w)) = regions ≫= listed w).
Proof.
  induction regions as [| region rest IH]; intros w.
  - exists "". simpl. split; [| done].
    unfold write_stderr. rewrite string_app_nil_r. by destruct w.
  - simpl. unfold listed at 1 3. 
    destruct (region_id region) as [id |] eqn:Hid; [| by apply IH].
    destruct (load_region_page id w) as [html | e] eqn:Hpage; simpl.
    + destruct (parse_region_list_world html (Some region) w) as [err1 Hw1].
      destruct (parse_region_list html (Some region) w) as [records w1] eqn:Hparse.
      simpl in Hw1. subst w1. simpl.
      destruct (raised records) as [e |] eqn:Hraised; simpl.
      * exists err1. split; [done |]. split; [by apply prefix_app_r | by rewrite Hraised].
      * destruct (IH (write_stderr err1 w)) as (err2 & Hw2 & Hprefix & Hall).
        destruct (load_raw_region_lists rest (write_stderr err1 w)) as [more w2].
        simpl in *. subst w2. exists (err1 +:+ err2).
        rewrite write_stderr_twice. split; [done |].
        assert (Hsame : rest ≫= listed (write_stderr err1 w) = rest ≫= listed w).
        { apply list_bind_ext; [| done]. intros region'. apply listed_stderr. }
        rewrite Hsame in *. split; [by apply prefix_app |].
        intros Hnone. by rewrite Hall.
    + exists "". split; [| split; [apply prefix_nil | done]].
      unfold write_stderr. rewrite string_app_nil_r. by destruct w.
Qed.

Lemma load_region_page_raises id w e :
  load_region_page id w = Raise e →
  (id = 0 ∧ e = AttributeError) ∨
  (id ≠ 0 ∧ e = IOError ∧
   ∃ url, region_list_url (Some id) = Some url ∧ files w !! get_html_path url = None).
Proof.
  unfold load_region_page, region_list_url.
  destruct (Z.eqb_spec id 0) as [-> | Hid]; simpl.
  - intros [= <-]. by left.
  - unfold load_html, load_text, file_read.
    destruct (files w !! _) eqn:Hfile; [done |].
    intros [= <-]. right. split; [done |]. split; [done |]. by eexists.
Qed.

Lemma listed_region w region r :
  r ∈ listed w region →
  ∃ id html, region_id region = Some id ∧ id ≠ 0 ∧ load_region_page id w = Ok html ∧
    record_region r = Some region.
Proof.
  unfold listed. destruct (region_id region) as [id |]; [| by intros ?%elem_of_nil].
  destruct (load_region_page id w) as [html | e] eqn:Hpage; [| by intros ?%elem_of_nil].
  intros Hr%parse_region_list_region. exists id, html.
  split; [done |]. split; [| done].
  intros ->. by vm_compute in Hpage.
Qed.

(** X9: the pass over the listing pages reads the cache and does nothing
    else but write to stderr; it yields the records of the cached pages of
    the regions, region by region in the order of [regions] (all of them
    when it ends without exception, the first of them otherwise), and every
    record carries the region whose page listed it, a region with an id
    other than 0. *)
Theorem load_raw_region_lists_in_region_order (regions : list RegionRecord) (w : World) :
  let '(records, w') := load_raw_region_lists regions w in
  (∃ err, w' = write_stderr err w) ∧
  yielded records `prefix_of` (regions ≫= listed w) ∧
  (raised records = None → yielded records = regions ≫= listed w) ∧
  (∀ r, r ∈ yielded records →
     ∃ region id, region ∈ regions ∧ region_id region = Some id ∧ id ≠ 0 ∧
       record_region r = Some region).
Proof.
  destruct (load_raw_region_lists_run regions w) as (err & Hw & Hprefix & Hall).
  destruct (load_raw_region_lists regions w) as [records w']. simpl in *.
  split; [by exists err |]. split; [done |]. split; [done |].
  intros r Hr. destruct Hprefix as [more Hmore].
  assert (Hin : r ∈ regions ≫= listed w).
  { rewrite Hmore, elem_of_app. by left. }
  apply list_elem_of_bind in Hin as (region & Hlisted & Hregion).
  apply listed_region in Hlisted as (id & html & Hid & Hnz & _ & Hrec).
  by exists region, id.
Qed.

Lemma load_raw_region_lists_stops regions : ∀ w e,
  raised (fst (load_raw_region_lists regions w)) = Some e →
  ∃ region id, region ∈ regions ∧ region_id region = Some id ∧
    (load_region_page id w = Raise e ∨
     ∃ html, load_region_page id w = Ok html ∧
       raised (fst (parse_region_list html (Some region) w)) = Some e).
Proof.
  induction regions as [| region rest IH]; intros w e; simpl; [done |].
  destruct (region_id region) as [id |] eqn:Hid.
  - destruct (load_region_page id w) as [html | e'] eqn:Hpage; simpl.
    + destruct (parse_region_list_world html (Some region) w) as [err1 Hw1].
      destruct (parse_region_list html (Some region) w) as [records w1] eqn:Hparse.
      simpl in Hw1. subst w1.
      destruct (raised records) as [e' |] eqn:Hraised; simpl.
      * intros He. exists region, id. split; [apply list_elem_of_here |].
        split; [done |]. right. exists html. split; [done |].
        rewrite Hparse. simpl. congruence.
      * specialize (IH (write_stderr err1 w) e).
        destruct (load_raw_region_lists rest (write_stderr err1 w)) as [more w2].
        simpl in *. intros He. destruct (IH He) as (region' & id' & Hin & Hid' & Hwhy).
        exists region', id'. split; [by apply list_elem_of_further |]. split; [done |].
        rewrite load_region_page_stderr in Hwhy.
        destruct Hwhy as [Hwhy | (html' & Hpage' & Hwhy)]; [by left |].
        right. exists html'. split; [done |].
        by rewrite (parse_region_list_records _ _ _ (write_stderr err1 w)).
    + intros [= <-]. exists region, id. split; [apply list_elem_of_here |]. by auto.
  - intros He. destruct (IH w e He) as (region' & id' & Hin & Hrest).
    exists region', id'. split; [by apply list_elem_of_further | done].
Qed.

(** X10: what ends the pass over the listing pages early: a region with
    the id 0, for which no URL is built ([AttributeError]); a region whose
    page is not in the cache ([IOError]); or a page on which
    [parse_region_list] raises. *)
Theorem load_raw_region_lists_raises (regions : list RegionRecord) (w : World) (e : Exn) :
  raised (fst (load_raw_region_lists regions w)) = Some e →
  ∃ region id, region ∈ regions ∧ region_id region = Some id ∧
    ((id = 0 ∧ e = AttributeError) ∨
     (id ≠ 0 ∧ e = IOError ∧
      ∃ url, region_list_url (Some id) = Some url ∧ files w !! get_html_path url = None) ∨
     (∃ html, load_region_page id w = Ok html ∧
        raised (fst (parse_region_list html (Some region) w)) = Some e)).
Proof.
  intros (region & id & Hin & Hid & Hwhy)%load_raw_region_lists_stops.
  exists region, id. split; [done |]. split; [done |].
  destruct Hwhy as [Hpage%load_region_page_raises | Hparse]; [| by auto].
  destruct Hpage as [? | ?]; by auto.
Qed.

End RawListsFacts.

Lemma load_raw_region_lists_raises_witness :
  ∃ region id, region ∈ Sample.leaves ∧ region_id region = Some id ∧
    ((id = 0 ∧ IOError = AttributeError) ∨
     (id ≠ 0 ∧ IOError = IOError ∧
      ∃ url, region_list_url (Some id) = Some url ∧
        files More.partly_listed_world !! get_html_path url = None) ∨
     (∃ html, load_region_page id More.partly_listed_world = Ok html ∧
        raised (fst (parse_region_list (H:=Sample.builtins) html (Some region)
                       More.partly_listed_world)) = Some IOError)).
Proof.
  apply (load_raw_region_lists_raises (H:=Sample.builtins) Sample.leaves
           More.partly_listed_world IOError).
  vm_compute. reflexivity.
Defined.

(** The pass over the sample leaves with the page of the first one cached:
    its two records are yielded, the leaf without id is passed over, and
    the missing page of the third ends the pass. *)
Example load_raw_region_lists_sample :
  fst (load_raw_region_lists (H:=Sample.builtins) Sample.leaves More.partly_listed_world)
  = mkGen
      [mkRegionListRecord (Some Sample.poselok) 7001 "ул. Мира, д. 1"
         (Some 1975) (Some 1234.5%float) None;
       mkRegionListRecord (Some Sample.poselok) 7002 "ул. Мира, д. 2"
         None None (Some "ООО Ромашка")]
      (Some IOError).
Proof. vm_compute. reflexivity. Qed.

(** A page without the results table does not end the pass: the region is
    reported on stderr and the next one is read. *)
Example load_raw_region_lists_no_table_sample :
  let '(records, w) :=
    load_raw_region_lists (H:=Sample.builtins) Sample.leaves More.no_table_world in
  length (yielded records) = 2%nat ∧ raised records = None ∧
  stderr w = "Unable to parse region: 3" +:+ NEWLINE.
Proof. vm_compute. done. Qed.

(** ** The table of companies of the listing store *)

Lemma first_naming_snoc name seen r :
  first_naming name (seen ++ [r]) =
    match first_naming name seen with
    | Some i => Some i
    | None => if decide (record_company r = Some name)
              then Some (Z.of_nat (length seen)) else None
    end.
Proof.
  unfold first_naming.
  destruct (list_find (λ r, record_company r = Some name) seen) as [[i r'] |] eqn:Hfind.
  - by rewrite (list_find_app_l _ _ _ _ _ Hfind).
  - rewrite (list_find_app_r _ _ _ Hfind). simpl.
    case_decide; simpl; done.
Qed.

Lemma dump_region_lists_loop_first results : ∀ seen companies data,
  (∀ name, companies !! name = first_naming name seen) →
  match dump_region_lists_loop (Z.of_nat (length seen)) results companies data with
  | Ok (companies', data') =>
      Forall (λ r, is_Some (record_region r)) results ∧
      (∀ name, companies' !! name = first_naming name (seen ++ results)) ∧
      length data' = (length data + length results)%nat
  | Raise e => e = AttributeError ∧ ∃ r, r ∈ results ∧ record_region r = None
  end.
Proof.
  induction results as [| r results IH]; intros seen companies data Hfirst.
  - simpl. rewrite app_nil_r. split; [constructor |]. split; [done | lia].
  - destruct r as [region id address year area company]. simpl.
    set (r := mkRegionListRecord region id address year area company).
    destruct (match company with
              | Some name =>
                  match companies !! name with
                  | Some known => (Some known, companies)
                  | None => (Some (Z.of_nat (length seen)),
                             <[name:=Z.of_nat (length seen)]> companies)
                  end
              | None => (None, companies)
              end) as [this_id companies1] eqn:Hthis.
    destruct region as [region |]; simpl.
    + assert (Hfirst1 : ∀ name, companies1 !! name = first_naming name (seen ++ [r])).
      { intros name. rewrite first_naming_snoc. simpl.
        destruct company as [name' |].
        - destruct (companies !! name') as [known |] eqn:Hknown.
          + injection Hthis as _ <-. rewrite Hfirst.
            destruct (first_naming name seen) eqn:Hname; [done |].
            case_decide as Heq; [| done]. injection Heq as ->. congruence.
          + injection Hthis as _ <-. rewrite lookup_insert. case_decide as Heq.
            * subst name'. rewrite <- Hfirst, Hknown. by rewrite decide_True.
            * rewrite Hfirst. destruct (first_naming name seen); [done |].
              rewrite decide_False; [done | congruence].
        - injection Hthis as _ <-. rewrite Hfirst.
          destruct (first_naming name seen); [done |]. by rewrite decide_False. }
      specialize (IH (seen ++ [r]) companies1
                    (data ++ [(region_id region, id, address, year, area, this_id)]) Hfirst1).
      replace (Z.of_nat (length (seen ++ [r]))) with (Z.of_nat (length seen) + 1) in IH
        by (rewrite length_app; simpl; lia).
      destruct (dump_region_lists_loop _ results companies1 _) as [[companies' data'] | e].
      * destruct IH as (Hregions & Hnames & Hlen). split; [| split].
        -- constructor; [by eexists | done].
        -- intros name. by rewrite Hnames, <- app_assoc.
        -- rewrite Hlen, length_app. simpl. lia.
      * destruct IH as (-> & r' & Hin & Hnone). split; [done |].
        exists r'. split; [by apply list_elem_of_further | done].
    + split; [done |]. exists r. split; [apply list_elem_of_here | done].
Qed.

(** X11: [dump_region_lists] stores one row per record and gives every
    company that is named the position, from 0, of the first record that
    names it as its id (the ids are not consecutive numbers); a row holds
    the id of the region of its record and the id of its company. It raises
    [AttributeError], and stores nothing, exactly when a record has no
    region. *)
Theorem dump_region_lists_outcome (results : list RegionListRecord) (w : World) :
  match dump_region_lists results w with
  | Ok w' =>
      Forall (λ r, is_Some (record_region r)) results ∧
      ∃ companies data,
        w' = dump_region_lists_json (companies, data) w ∧
        (∀ name, companies !! name = first_naming name results) ∧
        Forall2 (stored_as companies) results data
  | Raise e => e = AttributeError ∧ ∃ r, r ∈ results ∧ record_region r = None
  end.
Proof.
  unfold dump_region_lists.
  pose proof (dump_region_lists_loop_first results [] ∅ []) as Hrun.
  change (Z.of_nat (length [])) with 0 in Hrun. simpl in Hrun.
  destruct (dump_region_lists_loop 0 results ∅ []) as [[companies data] | e] eqn:Hloop;
    simpl.
  - destruct Hrun as (Hregions & Hnames & _); [by intros name; rewrite lookup_empty |].
    split; [done |]. exists companies, data. split; [done |]. split; [done |].
    destruct (dump_region_lists_loop_interned results [] ∅ [] interned_nil Hregions)
      as (companies' & data' & Hrun' & _ & Hrows).
    change (Z.of_nat (length [])) with 0 in Hrun'. simpl in Hrows.
    rewrite Hloop in Hrun'. by injection Hrun' as <- <-.
  - apply Hrun. by intros name; rewrite lookup_empty.
Qed.

(** The sample records: the one company is named first by the record 0. *)
Example dump_region_lists_table_sample :
  (λ store, fst <$> region_lists_json store)
    <$> dump_region_lists
          (mkRegionListRecord (Some Sample.poselok) 7000 "ул. Мира, д. 0" None None None
           :: Sample.records) (fresh_world None)
  = Ok (Some {[ "ООО Ромашка" := 1 ]}).
Proof. vm_compute. reflexivity. Qed.

(** ** Reading the listing store *)

(** The table of regions by id holds, for an id, the last region of the
    list that carries it. *)
Lemma regions_by_id_last (regions : list RegionRecord) (k : option Z) :
  regions_by_id regions !! k = last (filter (λ r, region_id r = k) regions).
Proof.
  unfold regions_by_id.
  induction regions as [| r regions IH] using rev_ind; [done |].
  rewrite foldl_app, filter_app. simpl. rewrite lookup_insert.
  rewrite filter_cons, filter_nil. case_decide as Hk.
  - by rewrite last_snoc.
  - by rewrite app_nil_r.
Qed.

Lemma last_filter_None {A} (P : A → Prop) `{!∀ x, Decision (P x)} (l : list A) :
  last (filter P l) = None → ∀ x, x ∈ l → ¬ P x.
Proof.
  intros Hlast x Hx HP. apply last_None in Hlast.
  assert (Hin : x ∈ filter P l) by by apply list_elem_of_filter.
  rewrite Hlast in Hin. by apply elem_of_nil in Hin.
Qed.

Lemma companies_by_id_Some companies i c :
  companies_by_id companies !! Some i = Some c →
  ∃ name, c = Some name ∧ companies !! name = Some i.
Proof.
  unfold companies_by_id. rewrite lookup_insert_ne by done.
  intros Hin%elem_of_list_to_map_2.
  apply list_elem_of_fmap in Hin as ([name i'] & [= -> ->] & Hin%elem_of_map_to_list).
  by exists name.
Qed.

Lemma companies_by_id_None companies i :
  companies_by_id companies !! Some i = None → ∀ name, companies !! name ≠ Some i.
Proof.
  unfold companies_by_id. rewrite lookup_insert_ne by done.
  intros Hnone%not_elem_of_list_to_map_2 name Hname. apply Hnone.
  rewrite <- list_fmap_compose. apply list_elem_of_fmap.
  exists (name, i). split; [done |]. by apply elem_of_map_to_list.
Qed.

Lemma companies_by_id_null companies : companies_by_id companies !! None = Some None.
Proof. apply lookup_insert_eq. Qed.

Lemma load_region_lists_loop_raises regions companies results e :
  raised (load_region_lists_loop (regions_by_id regions) (companies_by_id companies) results)
    = Some e →
  e = KeyError ∧
  ∃ region_id' id address year area company_id,
    (region_id', id, address, year, area, company_id) ∈ results ∧
    ((∀ r, r ∈ regions → region_id r ≠ region_id') ∨
     (∃ i, company_id = Some i ∧ ∀ name, companies !! name ≠ Some i)).
Proof.
  induction results as [| [[[[[rid id] address] year] area] cid] results IH]; [done |].
  simpl.
  destruct (regions_by_id regions !! rid) as [region |] eqn:Hregion; simpl.
  - destruct (companies_by_id companies !! cid) as [company |] eqn:Hcompany; simpl.
    + intros (-> & rid' & id' & address' & year' & area' & cid' & Hin & Hwhy)%IH.
      split; [done |]. exists rid', id', address', year', area', cid'.
      split; [by apply list_elem_of_further | done].
    + intros [= <-]. split; [done |]. exists rid, id, address, year, area, cid.
      split; [apply list_elem_of_here |]. right.
      destruct cid as [i |]; [| by rewrite companies_by_id_null in Hcompany].
      exists i. split; [done |]. by apply companies_by_id_None.
  - intros [= <-]. split; [done |]. exists rid, id, address, year, area, cid.
    split; [apply list_elem_of_here |]. left.
    rewrite regions_by_id_last in Hregion. intros r Hr.
    by apply (last_filter_None _ _ Hregion).
Qed.

(** X12: what makes [load_region_lists] raise: the store is missing
    ([IOError]), or a row names a region id that no region of [regions]
    carries, or a company id that the table gives to no name ([KeyError]). *)
Theorem load_region_lists_raises (regions : list RegionRecord) (w : World) (e : Exn) :
  raised (load_region_lists regions w) = Some e →
  (e = IOError ∧ region_lists_json w = None) ∨
  (e = KeyError ∧
   ∃ companies results region_id' id address year area company_id,
     region_lists_json w = Some (companies, results) ∧
     (region_id', id, address, year, area, company_id) ∈ results ∧
     ((∀ r, r ∈ regions → region_id r ≠ region_id') ∨
      (∃ i, company_id = Some i ∧ ∀ name, companies !! name ≠ Some i))).
Proof.
  unfold load_region_lists, load_region_lists_json.
  destruct (region_lists_json w) as [[companies results] |]; simpl.
  - intros (-> & rid & id & address & year & area & cid & Hin & Hwhy)
             %load_region_lists_loop_raises.
    right. split; [done |]. by exists companies, results, rid, id, address, year, area, cid.
  - intros [= <-]. by left.
Qed.

Lemma load_region_lists_loop_lookup regions companies results (i : nat) record :
  yielded (load_region_lists_loop (regions_by_id regions) (companies_by_id companies) results)
    !! i = Some record →
  ∃ region_id' company_id,
    results !! i = Some (region_id', record_id record, record_address record,
                         record_year record, record_area record, company_id) ∧
    record_region record = last (filter (λ r, region_id r = region_id') regions) ∧
    is_Some (record_region record) ∧
    match record_company record with
    | Some name => ∃ c, company_id = Some c ∧ companies !! name = Some c
    | None => company_id = None
    end.
Proof.
  revert i. induction results as [| [[[[[rid id] address] year] area] cid] results IH];
    intros i; [done |].
  simpl.
  destruct (regions_by_id regions !! rid) as [region |] eqn:Hregion; simpl; [| done].
  destruct (companies_by_id companies !! cid) as [company |] eqn:Hcompany; simpl; [| done].
  destruct i as [| i]; simpl; [| apply IH].
  intros [= <-]. simpl. exists rid, cid. split; [done |].
  rewrite <- regions_by_id_last. split; [done |]. split; [by eexists |].
  destruct cid as [c |].
  - apply companies_by_id_Some in Hcompany as (name & -> & Hname). by exists c.
  - rewrite companies_by_id_null in Hcompany. by injection Hcompany as <-.
Qed.

Lemma load_region_lists_raises_witness :
  (KeyError = IOError ∧ region_lists_json More.stray_lists_world = None) ∨
  (KeyError = KeyError ∧
   ∃ companies results region_id' id address year area company_id,
     region_lists_json More.stray_lists_world = Some (companies, results) ∧
     (region_id', id, address, year, area, company_id) ∈ results ∧
     ((∀ r, r ∈ Sample.leaves → region_id r ≠ region_id') ∨
      (∃ i, company_id = Some i ∧ ∀ name, companies !! name ≠ Some i))).
Proof.
  apply (load_region_lists_raises Sample.leaves More.stray_lists_world KeyError).
  vm_compute. reflexivity.
Defined.

(** X13: the records [load_region_lists] yields are the rows of the store
    in order, each with the fields of its row; its region is the last
    region of [regions] that carries the region id of the row, and its
    company is a name to which the table gives the company id of the row
    (no company for the id [None]). *)
Theorem load_region_lists_reads_rows (regions : list RegionRecord) (w : World)
    (companies : gmap string Z) (results : list ListRow) (i : nat)
    (record : RegionListRecord) :
  region_lists_json w = Some (companies, results) →
  yielded (load_region_lists regions w) !! i = Some record →
  ∃ region_id' company_id,
    results !! i = Some (region_id', record_id record, record_address record,
                         record_year record, record_area record, company_id) ∧
    record_region record = last (filter (λ r, region_id r = region_id') regions) ∧
    is_Some (record_region record) ∧
    match record_company record with
    | Some name => ∃ c, company_id = Some c ∧ companies !! name = Some c
    | None => company_id = None
    end.
Proof.
  intros Hstore. unfold load_region_lists, load_region_lists_json. rewrite Hstore. simpl.
  apply load_region_lists_loop_lookup.
Qed.

Lemma load_region_lists_reads_rows_witness :
  ∃ region_id' company_id,
    More.lists_rows !! 0%nat =
      Some (region_id', 7001, "ул. Мира, д. 1", Some 1975, Some 1234.5%float, company_id) ∧
    Some More.twin =
      last (filter (λ r, region_id r = region_id') (Sample.leaves ++ [More.twin])) ∧
    is_Some (Some More.twin) ∧
    ∃ c, company_id = Some c ∧ More.lists_companies !! "ООО Ромашка" = Some c.
Proof.
  apply (load_region_lists_reads_rows (Sample.leaves ++ [More.twin]) More.lists_world
           More.lists_companies More.lists_rows 0
           (mkRegionListRecord (Some More.twin) 7001 "ул. Мира, д. 1"
              (Some 1975) (Some 1234.5%float) (Some "ООО Ромашка"))).
  - reflexivity.
  - vm_compute. reflexivity.
Defined.

(** ** Selecting the records of a top-level region *)

Lemma filter_region_lists_step r rest name :
  below_a_parent r →
  filter_region_lists (r :: rest) name =
    if under name r then gen_yield r (filter_region_lists rest name)
    else filter_region_lists rest name.
Proof.
  intros (region & parent & Hregion & Hparent). simpl.
  unfold grandparent, under. rewrite Hregion. simpl. rewrite Hparent. simpl.
  destruct (region_parent parent) as [top |]; [| done].
  by case_bool_decide.
Qed.

Lemma filter_region_lists_stop r rest name :
  ¬ below_a_parent r → filter_region_lists (r :: rest) name = gen_raise AttributeError.
Proof.
  intros Hnot. simpl. unfold grandparent.
  destruct (record_region r) as [region |] eqn:Hregion; [| done]. simpl.
  destruct (region_parent region) as [parent |] eqn:Hparent; [| done].
  destruct Hnot. by exists region, parent.
Qed.

(** X14: [filter_region_lists] keeps, in order, the records whose region
    lies two levels below a region called [name], as long as the regions of
    the records have a parent; at the first record whose region has none
    (or that has no region) it raises [AttributeError], after the records
    kept so far. *)
Theorem filter_region_lists_outcome (pre : list RegionListRecord) (name : string) :
  Forall below_a_parent pre →
  filter_region_lists pre name = gen_done (filter (λ r, under name r = true) pre) ∧
  ∀ r post, ¬ below_a_parent r →
    filter_region_lists (pre ++ r :: post) name =
      mkGen (filter (λ r, under name r = true) pre) (Some AttributeError).
Proof.
  induction 1 as [| r pre Hr _ [IHdone IHstop]].
  - split; [done |]. intros r post Hnot. simpl app.
    by rewrite filter_region_lists_stop.
  - split.
    + rewrite filter_region_lists_step by done. rewrite IHdone, filter_cons.
      destruct (under name r); [by rewrite decide_True | by rewrite decide_False].
    + intros r' post Hnot. rewrite <- app_comm_cons.
      rewrite filter_region_lists_step by done. rewrite (IHstop r' post Hnot), filter_cons.
      destruct (under name r); [by rewrite decide_True | by rewrite decide_False].
Qed.

Lemma filter_region_lists_outcome_witness :
  filter_region_lists Sample.records "Область" =
    gen_done (filter (λ r, under "Область" r = true) Sample.records) ∧
  ∀ r post, ¬ below_a_parent r →
    filter_region_lists (Sample.records ++ r :: post) "Область" =
      mkGen (filter (λ r, under "Область" r = true) Sample.records) (Some AttributeError).
Proof.
  apply (filter_region_lists_outcome Sample.records "Область").
  repeat constructor; by exists Sample.poselok, Sample.raion.
Defined.

(** The sample records lie below "Область" and not below "Район", which is
    their parent's name; a record of a top-level region ends the filter. *)
Example filter_region_lists_sample :
  filter_region_lists Sample.records "Область" = gen_done Sample.records ∧
  filter_region_lists Sample.records "Район" = gen_done [] ∧
  filter_region_lists
    (Sample.records ++
     [mkRegionListRecord (Some Sample.oblast) 7004 "ул. Мира, д. 4" None None None])
    "Область" = mkGen Sample.records (Some AttributeError).
Proof. vm_compute. done. Qed.

(** ** The URLs of the pages and the ids read from links *)

Lemma pretty_N_char_digit (x : N) : is_digit (pretty_N_char x) = true.
Proof. unfold pretty_N_char. by repeat case_match. Qed.

(** The decimal text of a number: digits, at least one for a number above
    0. *)
Lemma pretty_N_go_digits (x : N) : ∀ s,
  ∃ ds, pretty_N_go x s = ds +:+ s ∧
    Forall (λ c, is_digit c = true) (list_ascii_of_string ds) ∧
    ((0 < x)%N → ds ≠ "").
Proof.
  induction (N.lt_wf_0 x) as [x _ IH]. intros s.
  assert (x = 0 ∨ 0 < x)%N as [-> | Hpos] by lia.
  - exists "". rewrite pretty_N_go_0. split; [done |]. split; [constructor | lia].
  - rewrite pretty_N_go_step by done.
    destruct (IH (x `div` 10)%N (N.div_lt x 10 Hpos eq_refl)
                (String (pretty_N_char (x `mod` 10)) s)) as (ds & Hgo & Hds & _).
    exists (ds +:+ String (pretty_N_char (x `mod` 10)) "").
    split; [| split].
    + rewrite Hgo. by rewrite string_app_assoc.
    + rewrite list_ascii_app. apply Forall_app. split; [done |].
      constructor; [apply pretty_N_char_digit | constructor].
    + intros _. by destruct ds.
Qed.

Lemma pretty_pos_digits (id : Z) :
  0 < id →
  Forall (λ c, is_digit c = true) (list_ascii_of_string (pretty id)) ∧ pretty id ≠ "".
Proof.
  destruct id as [| p | p]; [lia | | lia]. intros _.
  unfold pretty, pretty_Z, pretty, pretty_positive, pretty, pretty_N.
  rewrite decide_False by done.
  destruct (pretty_N_go_digits (N.pos p) "") as (ds & -> & Hds & Hne).
  rewrite string_app_nil_r. split; [done |]. apply Hne. lia.
Qed.

Lemma span_digits_app (ds rest : string) :
  Forall (λ c, is_digit c = true) (list_ascii_of_string ds) →
  match rest with String c _ => is_digit c = false | EmptyString => True end →
  span_digits (ds +:+ rest) = (ds, rest).
Proof.
  intros Hds Hrest. induction ds as [| c ds IH].
  - rewrite string_app_nil_l. destruct rest as [| c rest]; [done |]. simpl. by rewrite Hrest.
  - apply Forall_cons in Hds as [Hc Hds]. rewrite string_app_cons. simpl.
    rewrite Hc, (IH Hds). done.
Qed.

Lemma strip_prefix_app (p s : string) : strip_prefix p (p +:+ s) = Some s.
Proof.
  induction p as [| c p IH]; [by destruct s |].
  rewrite string_app_cons. simpl. by rewrite Ascii.eqb_refl.
Qed.

(** [tid=] followed by digits is found where it stands. *)
Lemma search_tid_here (ds rest : string) :
  Forall (λ c, is_digit c = true) (list_ascii_of_string ds) → ds ≠ "" →
  match rest with String c _ => is_digit c = false | EmptyString => True end →
  search_tid ("tid=" +:+ ds +:+ rest) = Some ds.
Proof.
  intros Hds Hne Hrest.
  assert (Hhere : strip_prefix "tid=" ("tid=" +:+ ds +:+ rest) = Some (ds +:+ rest))
    by apply strip_prefix_app.
  destruct ("tid=" +:+ ds +:+ rest) as [| c tail] eqn:Htext; [done |].
  unfold search_tid; fold search_tid. rewrite Hhere.
  rewrite span_digits_app by done. by rewrite bool_decide_eq_false_2.
Qed.

Lemma search_tid_page (tail : string) :
  search_tid ("https://www.reformagkh.ru/myhouse?" +:+ tail) = search_tid tail.
Proof. cbv [String.append]. reflexivity. Qed.

(** X15: the URLs of the pages carry the id they are built from in the
    place where the parsers read the id of a link: for an id above 0,
    [re.search('tid=(\d+)', ...)] on the URL of the page of subregions, and
    on the URL of the listing, gives the digits of the id, and the URL of a
    profile is the site followed by a path on which
    [re.search('^/myhouse/profile/view/(\d+)/', ...)] gives them. *)
Theorem region_urls_carry_their_id (id : Z) :
  0 < id →
  (∃ url, subregions_list_url (Some id) = Some url ∧ search_tid url = Some (pretty id)) ∧
  (∃ url, region_list_url (Some id) = Some url ∧ search_tid url = Some (pretty id)) ∧
  (∃ href, building_profile_url (Some id) = Some ("https://www.reformagkh.ru" +:+ href) ∧
     search_profile_id href = Some (pretty id)).
Proof.
  intros Hid. destruct (pretty_pos_digits id Hid) as [Hds Hne].
  assert (Hnz : (id =? 0) = false) by lia.
  unfold subregions_list_url, region_list_url, building_profile_url. rewrite Hnz.
  split; [| split].
  - eexists. split; [done |].
    change ("https://www.reformagkh.ru/myhouse?tid=" +:+ pretty id)
      with ("https://www.reformagkh.ru/myhouse?" +:+ "tid=" +:+ pretty id).
    rewrite search_tid_page. rewrite <- (string_app_nil_r (pretty id)) at 1.
    by apply search_tid_here.
  - eexists. split; [done |].
    change ("https://www.reformagkh.ru/myhouse?tid=" +:+ pretty id +:+ "&page=1&limit=100000")
      with ("https://www.reformagkh.ru/myhouse?" +:+ "tid=" +:+ pretty id +:+
            "&page=1&limit=100000").
    rewrite search_tid_page. by apply search_tid_here.
  - exists ("/myhouse/profile/view/" +:+ pretty id +:+ "/"). split; [done |].
    unfold search_profile_id. rewrite strip_prefix_app.
    rewrite span_digits_app by done. by rewrite bool_decide_eq_false_2.
Qed.

Lemma region_urls_carry_their_id_witness :
  (∃ url, subregions_list_url (Some 2280999) = Some url ∧
     search_tid url = Some (pretty 2280999)) ∧
  (∃ url, region_list_url (Some 2280999) = Some url ∧
     search_tid url = Some (pretty 2280999)) ∧
  (∃ href, building_profile_url (Some 2280999) =
             Some ("https://www.reformagkh.ru" +:+ href) ∧
     search_profile_id href = Some (pretty 2280999)).
Proof. apply (region_urls_carry_their_id 2280999). lia. Defined.

(** No URL is built for the id 0, and the digits of an id below 0 are not
    found again after [tid=]. *)
Example region_urls_edge :
  subregions_list_url (Some 0) = None ∧ region_list_url (Some 0) = None ∧
  building_profile_url (Some 0) = None ∧
  (search_tid <$> subregions_list_url (Some (-5))) = Some None.
Proof. vm_compute. done. Qed.

(** ** The dates and the measures of a profile *)

Lemma dict_get_shown (label : string) (groups : list (string * string)) :
  dict_get label (parse_building_profile_data groups) = shown label groups.
Proof.
  unfold dict_get, shown. rewrite parse_building_profile_data_lookup.
  by destruct (last_value label groups).
Qed.

Lemma int_or_none_Ok {A} (value : option string) (int : string → Result A) (x : option A) :
  int_or_none value int = Ok x → (x = None ↔ value = None).
Proof.
  destruct value as [v |]; simpl.
  - destruct (int v); simpl; [| done]. by intros [= <-].
  - by intros [= <-].
Qed.

Lemma int_or_none_Raise {A} (value : option string) (int : string → Result A) (e : Exn) :
  int_or_none value int = Raise e → ∃ v, value = Some v ∧ int v = Raise e.
Proof.
  destruct value as [v |]; simpl; [| done].
  destruct (int v) eqn:Hint; simpl; [done |]. intros [= <-]. by exists v.
Qed.

Section ProfileNumbersFacts.
Context `{Builtins}.

Lemma py_int_raises s e : py_int s = Raise e → e = ValueError.
Proof. unfold py_int. destruct (int_of_text s); [done |]. by intros [= <-]. Qed.

Lemma py_float_raises s e : py_float s = Raise e → e = ValueError.
Proof. unfold py_float. destruct (float_of_text s); [done |]. by intros [= <-]. Qed.

(** X16: the numbers of a profile page. When the parsers return, a date
    or a measure is [None] exactly when the page has no row with its label
    or the last such row shows "Не заполнено"; when they raise, a value
    that is shown does not read as a number (spaces aside for a measure),
    and [ValueError] is the only exception they raise. *)
Theorem profile_numbers_outcome (groups : list (string * string)) :
  let data := parse_building_profile_data groups in
  match parse_building_profile_dates data with
  | Ok when_was =>
      (when_built when_was = None ↔ shown BUILT_LABEL groups = None) ∧
      (when_opened when_was = None ↔ shown OPENED_LABEL groups = None)
  | Raise e =>
      e = ValueError ∧
      ∃ label v, label ∈ [BUILT_LABEL; OPENED_LABEL] ∧ shown label groups = Some v ∧
        py_int v = Raise ValueError
  end ∧
  match parse_building_profile_measures data with
  | Ok number_of =>
      (floors_min (measures_floors number_of) = None ↔ shown MIN_FLOORS_LABEL groups = None) ∧
      (floors_max (measures_floors number_of) = None ↔ shown MAX_FLOORS_LABEL groups = None) ∧
      (measures_appartments number_of = None ↔ shown APPARTMENTS_LABEL groups = None) ∧
      (measures_entrances number_of = None ↔ shown ENTRANCES_LABEL groups = None) ∧
      (measures_elevators number_of = None ↔ shown ELEVATORS_LABEL groups = None) ∧
      (measures_area_meters number_of = None ↔ shown AREA_LABEL groups = None) ∧
      (measures_parking_meters number_of = None ↔ shown PARKING_LABEL groups = None)
  | Raise e =>
      e = ValueError ∧
      ∃ label v, shown label groups = Some v ∧
        ((label ∈ [MIN_FLOORS_LABEL; MAX_FLOORS_LABEL; APPARTMENTS_LABEL;
                   ENTRANCES_LABEL; ELEVATORS_LABEL] ∧
          py_int (remove_spaces v) = Raise ValueError) ∨
         (label ∈ [AREA_LABEL; PARKING_LABEL] ∧
          py_float (remove_spaces v) = Raise ValueError))
  end.
Proof.
  intros data. subst data. split.
  - unfold parse_building_profile_dates. rewrite !dict_get_shown.
    destruct (int_or_none (shown BUILT_LABEL groups) py_int) as [built | e] eqn:Hbuilt;
      simpl.
    + destruct (int_or_none (shown OPENED_LABEL groups) py_int) as [opened | e] eqn:Hopened;
        simpl.
      * split; by eapply int_or_none_Ok.
      * apply int_or_none_Raise in Hopened as (v & Hv & Hint).
        pose proof (py_int_raises _ _ Hint) as ->. split; [done |].
        exists OPENED_LABEL, v. split; [| done]. apply list_elem_of_further, list_elem_of_here.
    + apply int_or_none_Raise in Hbuilt as (v & Hv & Hint).
      pose proof (py_int_raises _ _ Hint) as ->. split; [done |].
      exists BUILT_LABEL, v. split; [| done]. apply list_elem_of_here.
  - unfold parse_building_profile_measures. rewrite !dict_get_shown.
    unfold parse_reforma_int, parse_reforma_float.
    destruct (int_or_none (shown MIN_FLOORS_LABEL groups) _) as [f1 | e] eqn:H1; simpl;
      [| apply int_or_none_Raise in H1 as (v & Hv & Hint);
         pose proof (py_int_raises _ _ Hint) as ->; split; [done |];
         exists MIN_FLOORS_LABEL, v; split; [done |]; left; split; [| done];
         rewrite !elem_of_cons; tauto].
    destruct (int_or_none (shown MAX_FLOORS_LABEL groups) _) as [f2 | e] eqn:H2; simpl;
      [| apply int_or_none_Raise in H2 as (v & Hv & Hint);
         pose proof (py_int_raises _ _ Hint) as ->; split; [done |];
         exists MAX_FLOORS_LABEL, v; split; [done |]; left; split; [| done];
         rewrite !elem_of_cons; tauto].
    destruct (int_or_none (shown APPARTMENTS_LABEL groups) _) as [f3 | e] eqn:H3; simpl;
      [| apply int_or_none_Raise in H3 as (v & Hv & Hint);
         pose proof (py_int_raises _ _ Hint) as ->; split; [done |];
         exists APPARTMENTS_LABEL, v; split; [done |]; left; split; [| done];
         rewrite !elem_of_cons; tauto].
    destruct (int_or_none (shown ENTRANCES_LABEL groups) _) as [f4 | e] eqn:H4; simpl;
      [| apply int_or_none_Raise in H4 as (v & Hv & Hint);
         pose proof (py_int_raises _ _ Hint) as ->; split; [done |];
         exists ENTRANCES_LABEL, v; split; [done |]; left; split; [| done];
         rewrite !elem_of_cons; tauto].
    destruct (int_or_none (shown ELEVATORS_LABEL groups) _) as [f5 | e] eqn:H5; simpl;
      [| apply int_or_none_Raise in H5 as (v & Hv & Hint);
         pose proof (py_int_raises _ _ Hint) as ->; split; [done |];
         exists ELEVATORS_LABEL, v; split; [done |]; left; split; [| done];
         rewrite !elem_of_cons; tauto].
    destruct (int_or_none (shown AREA_LABEL groups) _) as [f6 | e] eqn:H6; simpl;
      [| apply int_or_none_Raise in H6 as (v & Hv & Hint);
         pose proof (py_float_raises _ _ Hint) as ->; split; [done |];
         exists AREA_LABEL, v; split; [done |]; right; split; [| done];
         rewrite !elem_of_cons; tauto].
    destruct (int_or_none (shown PARKING_LABEL groups) _) as [f7 | e] eqn:H7; simpl;
      [| apply int_or_none_Raise in H7 as (v & Hv & Hint);
         pose proof (py_float_raises _ _ Hint) as ->; split; [done |];
         exists PARKING_LABEL, v; split; [done |]; right; split; [| done];
         rewrite !elem_of_cons; tauto].
    repeat split; by eapply int_or_none_Ok.
Qed.

End ProfileNumbersFacts.

(** A page with a year, a number written with a space, an area, a row that
    is not filled and a row filled twice. *)
Example profile_numbers_sample :
  let data :=
    parse_building_profile_data
      [(BUILT_LABEL, "1975"); (APPARTMENTS_LABEL, "1 024"); (AREA_LABEL, "1 234.5");
       (ELEVATORS_LABEL, "Не заполнено"); (ENTRANCES_LABEL, "4"); (ENTRANCES_LABEL, "6")] in
  parse_building_profile_dates (H:=Sample.builtins) data
    = Ok (mkWhenBuildingWas (Some 1975) None) ∧
  parse_building_profile_measures (H:=Sample.builtins) data
    = Ok (mkBuildingMeasures (mkBuildingFloors None None) (Some 1024) (Some 6) None
            (Some 1234.5%float) None) ∧
  parse_building_profile_dates (H:=Sample.builtins)
    (parse_building_profile_data [(BUILT_LABEL, "до 1917")]) = Raise ValueError.
Proof. vm_compute. done. Qed.

(** ** From the listing pages to the listing store and back *)

Lemma NoDup_fmap_eq {A B} (f : A → B) (l : list A) (a b : A) :
  NoDup (f <$> l) → a ∈ l → b ∈ l → f a = f b → a = b.
Proof.
  induction l as [| x l IH]; [by intros _ ?%elem_of_nil |].
  rewrite fmap_cons, NoDup_cons. intros [Hx Hl].
  intros [-> | Ha]%elem_of_cons [-> | Hb]%elem_of_cons Hf; [done | | | by apply IH].
  - destruct Hx. rewrite Hf. by apply list_elem_of_fmap_2.
  - destruct Hx. rewrite <- Hf. by apply list_elem_of_fmap_2.
Qed.

Lemma regions_by_id_unique (regions : list RegionRecord) (region : RegionRecord) :
  NoDup (region_id <$> regions) → region ∈ regions →
  regions_by_id regions !! region_id region = Some region.
Proof.
  intros Hids Hregion. rewrite regions_by_id_last.
  assert (Hin : region ∈ filter (λ r, region_id r = region_id region) regions)
    by by apply list_elem_of_filter.
  destruct (last (filter (λ r, region_id r = region_id region) regions)) as [x |] eqn:Hlast.
  - apply last_Some_elem_of, list_elem_of_filter in Hlast as [Hid Hx].
    f_equal. by apply (NoDup_fmap_eq region_id regions).
  - apply last_None in Hlast. rewrite Hlast in Hin. by apply elem_of_nil in Hin.
Qed.

Section PipelineFacts.
Context `{Builtins}.

(** X17: what the pass over the listing pages yields can be stored and
    read back: when no two of the regions share an id, [dump_region_lists]
    stores the records the pass yields without raising, and
    [load_region_lists] with the same regions gives these records back,
    each with its region. *)
Theorem listing_pass_round_trip (regions : list RegionRecord) (w : World) :
  NoDup (region_id <$> regions) →
  let '(records, w') := load_raw_region_lists regions w in
  ∃ store,
    dump_region_lists (yielded records) w' = Ok store ∧
    load_region_lists regions store = gen_done (yielded records).
Proof.
  intros Hids.
  destruct (load_raw_region_lists_run regions w) as (err & _ & [more Hmore] & _).
  destruct (load_raw_region_lists regions w) as [records w']. simpl in *.
  assert (Hknown : Forall (region_known regions) (yielded records)).
  { apply Forall_forall. intros r Hr.
    assert (Hin : r ∈ regions ≫= listed w) by (rewrite Hmore, elem_of_app; by left).
    apply list_elem_of_bind in Hin as (region & Hlisted & Hregion).
    apply listed_region in Hlisted as (id & html & _ & _ & _ & Hrec).
    exists region. split; [done |]. by apply regions_by_id_unique. }
  destruct (dump_region_lists_loop_interned (yielded records) [] ∅ [] interned_nil)
    as (companies & rows & Hrun & Hint).
  { eapply Forall_impl; [exact Hknown |]. intros r (region & -> & _). by eexists. }
  change (Z.of_nat (length [])) with 0 in Hrun. simpl in Hint.
  exists (dump_region_lists_json (companies, rows) w'). split.
  - unfold dump_region_lists. by rewrite Hrun.
  - unfold load_region_lists, load_region_lists_json. simpl.
    destruct Hint as [Hnames Hrows].
    by eapply load_region_lists_loop_interned.
Qed.

End PipelineFacts.

Lemma listing_pass_round_trip_witness :
  let '(records, w') :=
    load_raw_region_lists (H:=Sample.builtins) Sample.leaves More.no_table_world in
  ∃ store,
    dump_region_lists (yielded records) w' = Ok store ∧
    load_region_lists Sample.leaves store = gen_done (yielded records).
Proof.
  apply (listing_pass_round_trip (H:=Sample.builtins) Sample.leaves More.no_table_world).
  by apply (bool_decide_unpack _).
Defined.

(** ** What ends a pass over the pages of regions *)

Section RegionErrors.
Context `{Builtins}.

(** A row of a page of regions raises [AttributeError] (no [tid=] in the
    link, no row after it, no [span] in that row) or [ValueError] (a count
    that is no number); the [href] is only read when it is there. *)
Lemma parse_region_row_raises parent item e :
  parse_region_row parent item = Raise e → e = AttributeError ∨ e = ValueError.
Proof.
  unfold parse_region_row.
  destruct (find "a" None (node item)) as [link |]; [| done].
  unfold has_attr, get_item, parse_reforma_int, py_int.
  destruct (get_attr "href" link) as [href |]; simpl.
  - destruct (search_tid href) as [digits |]; simpl; [| intros [= <-]; by left].
    destruct (int_of_text digits); simpl; [| intros [= <-]; by right].
    destruct (find_next_sibling item) as [next |]; simpl; [| intros [= <-]; by left].
    destruct (find "span" None next) as [span |]; simpl; [| intros [= <-]; by left].
    destruct (int_of_text _); simpl; [done |]. intros [= <-]; by right.
  - destruct (find_next_sibling item) as [next |]; simpl; [| intros [= <-]; by left].
    destruct (find "span" None next) as [span |]; simpl; [| intros [= <-]; by left].
    destruct (int_of_text _); simpl; [done |]. intros [= <-]; by right.
Qed.

Lemma parse_region_rows_raises parent items e :
  raised (parse_region_rows parent items) = Some e → e = AttributeError ∨ e = ValueError.
Proof.
  induction items as [| item items IH]; simpl; [done |].
  destruct (parse_region_row parent item) as [[r |] | e'] eqn:Hrow; simpl; [done | done |].
  intros [= <-]. by eapply parse_region_row_raises.
Qed.

Lemma load_subregions_raises region id w e :
  load_subregions region id w = Raise e →
  (id = 0 ∧ e = AttributeError) ∨
  (id ≠ 0 ∧ e = IOError ∧
   ∃ url, subregions_list_url (Some id) = Some url ∧ files w !! get_html_path url = None) ∨
  (id ≠ 0 ∧ (e = AttributeError ∨ e = ValueError) ∧
   ∃ url html, subregions_list_url (Some id) = Some url ∧ load_html url w = Ok html ∧
     raised (parse_regions_list html (Some region)) = Some e).
Proof.
  unfold load_subregions, subregions_list_url.
  destruct (Z.eqb_spec id 0) as [-> | Hid]; simpl.
  - intros [= <-]. by left.
  - destruct (load_html _ w) as [html |] eqn:Hhtml; simpl.
    + unfold list_of_gen.
      destruct (raised (parse_regions_list html (Some region))) as [e' |] eqn:Hraised;
        [| done].
      intros [= <-]. right. right. split; [done |].
      split; [by eapply parse_region_rows_raises |].
      eexists _, html. by split; [| split].
    + unfold load_html, load_text, file_read in Hhtml.
      destruct (files w !! _) eqn:Hfile; [done |]. injection Hhtml as <-.
      intros [= <-]. right. left. split; [done |]. split; [done |]. by eexists.
Qed.

(** X18: what ends a pass of [load_raw_subregions] early: a region with
    the id 0, for which no URL is built ([AttributeError]); a region whose
    page is not in the cache ([IOError]); or a page of which a row cannot be
    parsed, with [AttributeError] or [ValueError]. No other exception is
    raised, and the regions before that one have been yielded. *)
Theorem load_raw_subregions_raises (regions : list RegionRecord) (w : World) (e : Exn) :
  raised (load_raw_subregions (gen_done regions) w) = Some e →
  ∃ before region after id,
    regions = before ++ region :: after ∧ region_id region = Some id ∧
    yielded (load_raw_subregions (gen_done regions) w) = before ≫= expand w ∧
    ((id = 0 ∧ e = AttributeError) ∨
     (id ≠ 0 ∧ e = IOError ∧
      ∃ url, subregions_list_url (Some id) = Some url ∧
        files w !! get_html_path url = None) ∨
     (id ≠ 0 ∧ (e = AttributeError ∨ e = ValueError) ∧
      ∃ url html, subregions_list_url (Some id) = Some url ∧ load_html url w = Ok html ∧
        raised (parse_regions_list html (Some region)) = Some e)).
Proof.
  unfold load_raw_subregions. simpl.
  induction regions as [| region regions IH]; simpl; [done |].
  unfold expand in IH |- *.
  destruct (region_id region) as [id |] eqn:Hid; simpl.
  - destruct (load_subregions region id w) as [[| s subs] | e'] eqn:Hload; simpl.
    + intros (before & r & after & id' & -> & Hid' & Hyield & Hwhy)%IH.
      exists (region :: before), r, after, id'. split; [done |]. split; [done |].
      split; [| done]. simpl. by rewrite Hid, Hload, Hyield.
    + intros (before & r & after & id' & -> & Hid' & Hyield & Hwhy)%IH.
      exists (region :: before), r, after, id'. split; [done |]. split; [done |].
      split; [| done]. simpl. by rewrite Hid, Hload, Hyield.
    + intros [= <-]. exists [], region, regions, id. split; [done |]. split; [done |].
      split; [done |]. by apply load_subregions_raises.
  - intros (before & r & after & id' & -> & Hid' & Hyield & Hwhy)%IH.
    exists (region :: before), r, after, id'. split; [done |]. split; [done |].
    split; [| done]. simpl. by rewrite Hid, Hyield.
Qed.

End RegionErrors.

Lemma load_raw_subregions_raises_witness :
  ∃ before region after id,
    [mkRegionRecord None "Прочие" None 7; Sample.oblast] = before ++ region :: after ∧
    region_id region = Some id ∧
    yielded (load_raw_subregions (H:=Sample.builtins)
               (gen_done [mkRegionRecord None "Прочие" None 7; Sample.oblast]) Sample.label_world)
      = before ≫= expand (H:=Sample.builtins) Sample.label_world ∧
    ((id = 0 ∧ IOError = AttributeError) ∨
     (id ≠ 0 ∧ IOError = IOError ∧
      ∃ url, subregions_list_url (Some id) = Some url ∧
        files Sample.label_world !! get_html_path url = None) ∨
     (id ≠ 0 ∧ (IOError = AttributeError ∨ IOError = ValueError) ∧
      ∃ url html, subregions_list_url (Some id) = Some url ∧
        load_html url Sample.label_world = Ok html ∧
        raised (parse_regions_list (H:=Sample.builtins) html (Some region)) = Some IOError)).
Proof.
  apply (load_raw_subregions_raises (H:=Sample.builtins) [mkRegionRecord None "Прочие" None 7; Sample.oblast]
           Sample.label_world IOError).
  vm_compute. reflexivity.
Defined.

(** ** The ids of the stored profiles *)

Lemma split_dot_at (before after : string) :
  Forall (λ c, c ≠ "."%char) (list_ascii_of_string before) →
  split_dot (before +:+ "." +:+ after) = Some (before, after).
Proof.
  induction before as [| c before IH]; intros Hbefore; [done |].
  apply Forall_cons in Hbefore as [Hc Hbefore]. rewrite string_app_cons. simpl.
  apply Ascii.eqb_neq in Hc. rewrite Hc. by rewrite IH.
Qed.

Lemma digits_no_dot (ds : string) :
  Forall (λ c, is_digit c = true) (list_ascii_of_string ds) →
  Forall (λ c, c ≠ "."%char) (list_ascii_of_string ds).
Proof. intros Hds. eapply Forall_impl; [exact Hds |]. by intros c Hc ->. Qed.

(** The decimal text of an integer has no dot. *)
Lemma pretty_Z_no_dot (id : Z) : Forall (λ c, c ≠ "."%char) (list_ascii_of_string (pretty id)).
Proof.
  destruct id as [| p | p].
  - by repeat constructor.
  - by apply digits_no_dot, pretty_pos_digits.
  - change (pretty (Z.neg p)) with ("-" +:+ pretty (Z.pos p)).
    rewrite string_app_cons, string_app_nil_l. simpl.
    constructor; [done |]. by apply digits_no_dot, pretty_pos_digits.
Qed.

Section ProfileFilesFacts.
Context `{Builtins}.

Lemma parse_profile_filename_id (id : Z) :
  int_of_text (pretty id) = Some id →
  parse_profile_filename (get_profile_filename (Some id)) = Ok id.
Proof.
  intros Hint. unfold parse_profile_filename, get_profile_filename. simpl.
  change ".json" with ("." +:+ "json").
  rewrite split_dot_at by apply pretty_Z_no_dot.
  unfold py_int. by rewrite Hint.
Qed.

Lemma list_profiles_cache_app (ids : list Z) (more : list string) :
  Forall (λ id, int_of_text (pretty id) = Some id) ids →
  list_profiles_cache (((λ id, get_profile_filename (Some id)) <$> ids) ++ more) =
    gen_yield_all ids (list_profiles_cache more).
Proof.
  induction 1 as [| id ids Hid _ IH].
  - simpl. by destruct (list_profiles_cache more).
  - rewrite fmap_cons. simpl. rewrite parse_profile_filename_id by done.
    simpl. by rewrite IH.
Qed.

(** X19: the ids of the stored profiles are read back from the names of
    their files: for ids whose decimal text [int] reads back,
    [list_profiles_cache] over the names [get_profile_filename] gives them
    yields the ids, in the order of the names; a name without a dot in the
    directory makes it raise [ValueError], after the ids of the names
    before it. *)
Theorem list_profiles_cache_reads_ids (ids : list Z) :
  Forall (λ id, int_of_text (pretty id) = Some id) ids →
  let filenames := (λ id, get_profile_filename (Some id)) <$> ids in
  list_profiles_cache filenames = gen_done ids ∧
  ∀ stray rest, split_dot stray = None →
    list_profiles_cache (filenames ++ stray :: rest) = mkGen ids (Some ValueError).
Proof.
  intros Hids filenames. subst filenames. split.
  - rewrite <- (app_nil_r (_ <$> ids)). rewrite list_profiles_cache_app by done.
    simpl. unfold gen_yield_all, gen_done. simpl. by rewrite app_nil_r.
  - intros stray rest Hstray. rewrite list_profiles_cache_app by done.
    simpl. unfold parse_profile_filename. rewrite Hstray. simpl.
    unfold gen_yield_all. simpl. by rewrite app_nil_r.
Qed.

End ProfileFilesFacts.

Lemma list_profiles_cache_reads_ids_witness :
  list_profiles_cache (H:=Sample.builtins)
    ((λ id, get_profile_filename (Some id)) <$> [7002; 0; 6675312])
  = gen_done [7002; 0; 6675312] ∧
  ∀ stray rest, split_dot stray = None →
    list_profiles_cache (H:=Sample.builtins)
      (((λ id, get_profile_filename (Some id)) <$> [7002; 0; 6675312]) ++ stray :: rest) =
      mkGen [7002; 0; 6675312] (Some ValueError).
Proof.
  apply (list_profiles_cache_reads_ids (H:=Sample.builtins) [7002; 0; 6675312]).
  repeat constructor.
Defined.

Example list_profiles_cache_sample :
  list_profiles_cache (H:=Sample.builtins) ["7001.json"; "7002.json"; "README"; "7003.json"]
  = mkGen [7001; 7002] (Some ValueError).
Proof. vm_compute. reflexivity. Qed.

